(** * Minesweeper: CNF sentences, unit resolution, DPLL, the agent and
      the game it plays

    A shallow embedding of [cnf.py], [util.py], [search.py], [dpll.py],
    the agent of [agent.py], and the board and the game loop of
    [game.py], with the properties of the design document stated and
    settled against it.

    Conventions of the embedding.
    - A Python exception is the outcome [Raise e]; a [while] loop or a
      search that may run for an unknown number of rounds takes a [fuel]
      argument and yields [OutOfFuel] when it is exhausted.
    - A Python [dict] with [str] keys is a [gmap string _]; a [set] of
      strings is a [gset string].
    - A Python [set] of [Clause] objects is a list without repetitions, in
      insertion order.  Python finds an element of a set by its hash and
      then by [__eq__]; [Clause.__hash__] hashes the sorted tuple of the
      literals, and the embedding compares those tuples themselves (a hash
      function that never collides).  Python iterates a set in hash order;
      nothing proved below depends on the order of iteration.
    - A Python [set] of cells is a [gset (Z * Z)], iterated in the order
      of [elements].
    - What [random.sample] and [random.choice] return is a parameter of
      the functions that call them.
    - Strings are byte strings; symbols are ASCII. *)

From Stdlib Require Import Ascii String DecimalString.
From Stdlib Require OrderedTypeEx DecimalZ.
From stdpp Require Import gmap strings list sorting.

Local Open Scope string_scope.
Local Open Scope nat_scope.
Local Open Scope list_scope.
Local Open Scope stdpp_scope.

(** ** Outcomes of Python computations *)

Inductive exn : Set := KeyError | IndexError | ValueError | AttributeError.

Inductive outcome (A : Type) : Type :=
  | Ok (a : A)
  | Raise (e : exn)
  | OutOfFuel.
Arguments Ok {A} a.
Arguments Raise {A} e.
Arguments OutOfFuel {A}.

(** Sequencing: an exception or an exhausted budget ends the computation. *)
Definition bind {A B} (x : outcome A) (f : A → outcome B) : outcome B :=
  match x with
  | Ok a => f a
  | Raise e => Raise e
  | OutOfFuel => OutOfFuel
  end.

Notation "'let!' x := e 'in' k" := (bind e (λ x, k))
  (at level 10, x name, e at level 200, k at level 200, only parsing).
Notation "'let!' ' pat := e 'in' k" :=
  (bind e (λ x, match x with pat => k end))
  (at level 10, pat pattern, e at level 200, k at level 200, only parsing).

(** [[f(x) for x in xs]] where [f] may raise. *)
Fixpoint map_outcome {A B} (f : A → outcome B) (xs : list A)
    : outcome (list B) :=
  match xs with
  | [] => Ok []
  | x :: rest => let! y := f x in let! ys := map_outcome f rest in Ok (y :: ys)
  end.

(** ** Python string helpers used by [cnf.py] *)

Module pystr.

(** [str.isspace] on ASCII: tab, line feed, vertical tab, form feed,
    carriage return, the four separators 28..31 and the space. *)
Definition isspace (ch : ascii) : bool :=
  let n := N_of_ascii ch in
  ((9 <=? n) && (n <=? 13) || (28 <=? n) && (n <=? 32))%N.

Fixpoint lstrip (s : string) : string :=
  match s with
  | String ch s' => if isspace ch then lstrip s' else s
  | EmptyString => EmptyString
  end.

Definition rstrip (s : string) : string :=
  String.rev (lstrip (String.rev s)).

(** [s.strip()] *)
Definition strip (s : string) : string := rstrip (lstrip s).

(** [s.split('||')]: [cur] holds the piece being read. *)
Fixpoint split_bars_from (cur : string) (s : string) : list string :=
  match s with
  | EmptyString => [cur]
  | String ch s' =>
      match ch, s' with
      | "|"%char, String "|"%char rest => cur :: split_bars_from EmptyString rest
      | _, _ => split_bars_from (cur +:+ String ch EmptyString) s'
      end
  end.

Definition split_bars (s : string) : list string := split_bars_from EmptyString s.

(** [sep.join(parts)] *)
Fixpoint join (sep : string) (parts : list string) : string :=
  match parts with
  | [] => EmptyString
  | [x] => x
  | x :: rest => x +:+ sep +:+ join sep rest
  end.

(** [str(n)] for an [int]. *)
Definition str_of_int (n : Z) : string := NilZero.string_of_int (Z.to_int n).

End pystr.

(** ** [cnf.py] *)

Module cnf.

(** *** class Literal *)

Record Literal : Set := mkLiteral { symbol : string; polarity : bool }.

#[global] Instance Literal_eq_dec : EqDecision Literal.
Proof. solve_decision. Defined.

#[global] Instance Literal_countable : Countable Literal.
Proof.
  refine (inj_countable' (λ x, (symbol x, polarity x))
                         (λ p, mkLiteral p.1 p.2) _).
  by intros [].
Defined.

Definition get_symbol (self : Literal) : string := symbol self.
Definition get_polarity (self : Literal) : bool := polarity self.

Definition negate (self : Literal) : Literal :=
  mkLiteral (symbol self) (negb (polarity self)).

(** [Literal.__eq__] *)
Definition Literal_eq (self other : Literal) : bool :=
  String.eqb (symbol self) (symbol other)
  && Bool.eqb (polarity self) (polarity other).

(** [<] on [bool]: only [False < True]. *)
Definition bool_lt (a b : bool) : bool := negb a && b.

(** [Literal.__lt__] *)
Definition Literal_lt (self other : Literal) : bool :=
  if String.ltb (symbol self) (symbol other) then true
  else if String.ltb (symbol other) (symbol self) then false
  else bool_lt (polarity self) (polarity other).

(** [sorted] compares with [<] only and is stable: it keeps [x] before
    [y] unless [y < x]. *)
Definition Literal_le (x y : Literal) : Prop := Literal_lt y x = false.

#[global] Instance Literal_le_dec : RelDecision Literal_le.
Proof. intros x y. unfold Literal_le. apply _. Defined.

Definition sorted_literals (ls : list Literal) : list Literal :=
  merge_sort Literal_le ls.

Definition str_le (x y : string) : Prop := String.ltb y x = false.

#[global] Instance str_le_dec : RelDecision str_le.
Proof. intros x y. unfold str_le. apply _. Defined.

Definition sorted_strings (ss : list string) : list string :=
  merge_sort str_le ss.

(** [Literal.__str__] *)
Definition Literal_str (self : Literal) : string :=
  (if polarity self then EmptyString else "!") +:+ symbol self.

(** *** class Clause

    [__init__] stores the list it is given; [literal_values] is a cache
    of [_get_literal_polarities], computed from [literals]. *)

Record Clause : Set := mkClause { literals : list Literal }.

#[global] Instance Clause_eq_dec : EqDecision Clause.
Proof. solve_decision. Defined.

Definition get_literals (self : Clause) : list Literal := literals self.

Definition Clause_get_symbols (self : Clause) : gset string :=
  list_to_set (symbol <$> literals self).

(** [Clause.__len__] *)
Definition Clause_len (self : Clause) : nat := length (literals self).

(** [Clause.__bool__] *)
Definition Clause_bool (self : Clause) : bool :=
  bool_decide (0 < length (literals self)).

(** [Clause.__eq__]: [set(self.literals) == set(other.literals)] *)
Definition Clause_eq (self other : Clause) : bool :=
  bool_decide ((list_to_set (literals self) : gset Literal)
               = list_to_set (literals other)).

(** The argument of [hash] in [Clause.__hash__]:
    [tuple(sorted(self.literals))]. *)
Definition Clause_hash_key (self : Clause) : list Literal :=
  sorted_literals (literals self).

(** [Clause.__str__] *)
Definition Clause_str (self : Clause) : string :=
  match literals self with
  | [] => "FALSE"
  | _ => pystr.join " || " (Literal_str <$> sorted_literals (literals self))
  end.

(** [Clause._get_literal_polarities]: a later literal overwrites an
    earlier one with the same symbol. *)
Definition _get_literal_polarities (self : Clause) : gmap string bool :=
  foldl (λ d lit, <[symbol lit := polarity lit]> d) ∅ (literals self).

(** [Clause.__contains__] *)
Definition Clause_contains (self : Clause) (sym : string) : bool :=
  bool_decide (is_Some (_get_literal_polarities self !! sym)).

(** [Clause.__getitem__] *)
Definition Clause_getitem (self : Clause) (sym : string) : outcome bool :=
  match _get_literal_polarities self !! sym with
  | Some p => Ok p
  | None => Raise KeyError
  end.

(** *** Python sets of clauses *)

(** Two clauses are the same element of a [set]: same hash, and equal. *)
Definition same_element (x y : Clause) : bool :=
  bool_decide (Clause_hash_key x = Clause_hash_key y) && Clause_eq x y.

(** [x in s] *)
Definition set_in (x : Clause) (s : list Clause) : bool :=
  existsb (same_element x) s.

(** [s.add(x)] *)
Definition set_add (s : list Clause) (x : Clause) : list Clause :=
  if set_in x s then s else s ++ [x].

(** [set(xs)] *)
Definition set_of (xs : list Clause) : list Clause := foldl set_add [] xs.

(** [s | t] *)
Definition set_union (s t : list Clause) : list Clause := foldl set_add s t.

(** *** class Cnf *)

Record Cnf : Set := mkCnf { clauses : list Clause }.

(** [Cnf.__init__] *)
Definition Cnf_init (cls : list Clause) : Cnf := mkCnf (set_of cls).

Definition Cnf_get_symbols (self : Cnf) : gset string :=
  foldl (λ syms clause, syms ∪ Clause_get_symbols clause) ∅ (clauses self).

Definition get_clauses (self : Cnf) : list Clause := clauses self.

(** [Cnf.__eq__]: [self.clauses == other.clauses] on two sets, which have
    the same number of elements, each element of the first being an
    element of the second. *)
Definition Cnf_eq (self other : Cnf) : bool :=
  (length (clauses self) =? length (clauses other))%nat
  && forallb (λ x, set_in x (clauses other)) (clauses self).

(** The loop of [check_against_clause] over the symbols still to visit. *)
Fixpoint check_against_symbols (model : gmap string bool) (clause : Clause)
    (syms : list string) : outcome bool :=
  match syms with
  | [] => Ok false
  | sym :: rest =>
      match model !! sym with
      | None => Raise KeyError
      | Some mv =>
          let! cv := Clause_getitem clause sym in
          if (negb mv && negb cv) || (mv && cv) then Ok true
          else check_against_symbols model clause rest
      end
  end.

Definition check_against_clause (model : gmap string bool)
    (clause : Clause) : outcome bool :=
  check_against_symbols model clause (elements (Clause_get_symbols clause)).

Fixpoint check_model_clauses (model : gmap string bool)
    (cls : list Clause) : outcome bool :=
  match cls with
  | [] => Ok true
  | clause :: rest =>
      let! ok := check_against_clause model clause in
      if negb ok then Ok false else check_model_clauses model rest
  end.

(** [Cnf.check_model] *)
Definition check_model (self : Cnf) (model : gmap string bool)
    : outcome bool :=
  check_model_clauses model (clauses self).

(** *** The constructors [l], [c] and [sentence] *)

(** [l(s)]: [s[0]] raises [IndexError] on the empty string. *)
Definition l (s : string) : outcome Literal :=
  match s with
  | EmptyString => Raise IndexError
  | String ch rest =>
      if Ascii.eqb ch "!" then Ok (mkLiteral rest false)
      else Ok (mkLiteral s true)
  end.

(** [c(s)] *)
Definition c (s : string) : outcome Clause :=
  let literal_strings :=
    if String.eqb s "FALSE" then []
    else pystr.strip <$> pystr.split_bars s in
  let! lits := map_outcome l literal_strings in
  Ok (mkClause lits).

(** [sentence] of the clause strings *)
Definition sentence (cls : list string) : outcome Cnf :=
  let! parsed := map_outcome (λ clause, c (pystr.strip clause)) cls in
  Ok (Cnf_init parsed).

End cnf.

(** ** [util.py] *)

Module util.

(** The abstract class [SearchSpace]: its three methods. *)
Record SearchSpace (State : Type) : Type := mkSearchSpace {
  get_start_state : State;
  is_goal_state : State → outcome bool;
  get_successors : State → outcome (list State)
}.
Arguments mkSearchSpace {State}.
Arguments get_start_state {State}.
Arguments is_goal_state {State}.
Arguments get_successors {State}.

(** The two containers [uninformed_search] is run with: [queue.Queue]
    and [queue.LifoQueue].  A container is the list of its items, the
    next one to [get] first. *)
Inductive container_kind : Set := Queue | LifoQueue.

Definition put {State} (kind : container_kind) (container : list State)
    (x : State) : list State :=
  match kind with
  | Queue => container ++ [x]
  | LifoQueue => x :: container
  end.

(** The [while not container.empty()] loop of [uninformed_search]. *)
Fixpoint uninformed_search_loop {State} (fuel : nat)
    (space : SearchSpace State) (kind : container_kind)
    (container : list State) (count : nat)
    : outcome (option State * nat) :=
  match fuel with
  | 0 => OutOfFuel
  | S fuel' =>
      match container with
      | [] => Ok (None, count)
      | next_state :: container' =>
          let count := S count in
          let! goal := is_goal_state space next_state in
          if goal : bool then Ok (Some next_state, count)
          else
            let! successors := get_successors space next_state in
            uninformed_search_loop fuel' space kind
              (foldl (put kind) container' successors) count
      end
  end.

Definition uninformed_search {State} (fuel : nat)
    (space : SearchSpace State) (kind : container_kind)
    : outcome (option State * nat) :=
  uninformed_search_loop fuel space kind
    (put kind [] (get_start_state space)) 0.

Definition bfs {State} (fuel : nat) (space : SearchSpace State)
    : outcome (option State * nat) :=
  uninformed_search fuel space Queue.

Definition dfs {State} (fuel : nat) (space : SearchSpace State)
    : outcome (option State * nat) :=
  uninformed_search fuel space LifoQueue.

End util.

(** ** [search.py] *)

Module search.
Import cnf.

(** A search state is a tuple of literals. *)
Definition State : Set := list Literal.

Record SatisfiabilitySearchSpace : Set := mkSatisfiabilitySearchSpace {
  sent : Cnf;
  signature : list string;
  start_state : State
}.

(** [SatisfiabilitySearchSpace.__init__] *)
Definition init (sent : Cnf) : SatisfiabilitySearchSpace :=
  mkSatisfiabilitySearchSpace sent
    (sorted_strings (elements (Cnf_get_symbols sent))) [].

(** [{lit.get_symbol(): lit.get_polarity() for lit in state}] *)
Definition model_of (state : State) : gmap string bool :=
  foldl (λ d lit, <[get_symbol lit := get_polarity lit]> d) ∅ state.

Definition is_goal_state (self : SatisfiabilitySearchSpace) (state : State)
    : outcome bool :=
  if (length state <? length (signature self))%nat then Ok false
  else check_model (sent self) (model_of state).

Definition get_successors (self : SatisfiabilitySearchSpace) (state : State)
    : outcome (list State) :=
  if (length state =? length (signature self))%nat then Ok []
  else
    match signature self !! length state with
    | None => Raise IndexError
    | Some next_var =>
        Ok [state ++ [mkLiteral next_var true];
            state ++ [mkLiteral next_var false]]
    end.

Definition as_space (self : SatisfiabilitySearchSpace)
    : util.SearchSpace State :=
  util.mkSearchSpace (start_state self) (is_goal_state self)
    (get_successors self).

Definition search_solver (fuel : nat) (sent : Cnf)
    : outcome (option (gmap string bool) * nat) :=
  let search_space := init sent in
  let! '(state, num_visited) := util.dfs fuel (as_space search_space) in
  Ok (model_of <$> state, num_visited).

End search.

(** ** [dpll.py] *)

Module dpll.
Import cnf.

(** The [for literal in clause.get_literals()] loop of [unit_resolve];
    Python's [None] is [None]. *)
Fixpoint unit_resolve_loop (unit_clauses : list Clause) (clause : Clause)
    (lits : list Literal) (preserved_literals : list Literal)
    : option Clause :=
  match lits with
  | [] => Some (mkClause preserved_literals)
  | literal :: rest =>
      if (1 <? Clause_len clause)%nat && set_in (mkClause [literal]) unit_clauses
      then None
      else
        unit_resolve_loop unit_clauses clause rest
          (if negb (set_in (mkClause [negate literal]) unit_clauses)
           then preserved_literals ++ [literal]
           else preserved_literals)
  end.

Definition unit_resolve (unit_clauses : list Clause) (clause : Clause)
    : option Clause :=
  unit_resolve_loop unit_clauses clause (get_literals clause) [].

(** One pass of the [for clause in regular_clauses | unit_clauses] loop:
    the pair [(new_unit_clauses, new_clauses)] it leaves. *)
Definition resolve_step (unit_clauses : list Clause)
    (acc : list Clause * list Clause) (clause : Clause)
    : list Clause * list Clause :=
  let '(new_unit_clauses, new_clauses) := acc in
  match unit_resolve unit_clauses clause with
  | None => (new_unit_clauses, new_clauses)
  | Some new_clause =>
      if (Clause_len new_clause =? 1)%nat
      then (set_add new_unit_clauses new_clause, new_clauses)
      else (new_unit_clauses, set_add new_clauses new_clause)
  end.

Definition resolve_round (unit_clauses regular_clauses : list Clause)
    : list Clause * list Clause :=
  foldl (resolve_step unit_clauses) (set_of unit_clauses, [])
    (set_union regular_clauses unit_clauses).

(** The [while True] loop of [unit_resolution]. *)
Fixpoint unit_resolution_loop (fuel : nat)
    (unit_clauses regular_clauses : list Clause)
    : outcome (list Clause * list Clause) :=
  match fuel with
  | 0 => OutOfFuel
  | S fuel' =>
      let '(new_unit_clauses, new_clauses) :=
        resolve_round unit_clauses regular_clauses in
      let regular_clauses := new_clauses in
      if (length unit_clauses =? length new_unit_clauses)%nat
      then Ok (unit_clauses, regular_clauses)
      else unit_resolution_loop fuel' new_unit_clauses regular_clauses
  end.

Definition unit_resolution (fuel : nat)
    (unit_clauses regular_clauses : list Clause)
    : outcome (list Clause * list Clause) :=
  let regular_clauses := set_of regular_clauses in
  let unit_clauses := set_of unit_clauses in
  unit_resolution_loop fuel unit_clauses regular_clauses.

(** *** class DpllSearchSpace *)

Record DpllSearchSpace : Set := mkDpllSearchSpace {
  super : search.SatisfiabilitySearchSpace;
  unit_clauses : list Clause;
  regular_clauses : list Clause
}.

(** The partition loop of [DpllSearchSpace.__init__]. *)
Definition partition_step (acc : list Clause * list Clause)
    (clause : Clause) : list Clause * list Clause :=
  let '(units, regulars) := acc in
  if (Clause_len clause =? 1)%nat then (set_add units clause, regulars)
  else (units, set_add regulars clause).

Definition init (fuel : nat) (sent : Cnf) : outcome DpllSearchSpace :=
  let '(units, regulars) := foldl partition_step ([], []) (clauses sent) in
  let! '(units, regulars) := unit_resolution fuel units regulars in
  Ok (mkDpllSearchSpace (search.init sent) units regulars).

(** The [for uc in unit_clauses] loop of [get_successors]. *)
Fixpoint find_next_literal (next_var : string) (ucs : list Clause)
    (next_literal : option Literal) : outcome (option Literal) :=
  match ucs with
  | [] => Ok next_literal
  | uc :: rest =>
      match get_literals uc with
      | [] => Raise IndexError
      | lit0 :: _ =>
          if String.eqb next_var (get_symbol lit0)
          then find_next_literal next_var rest (Some lit0)
          else find_next_literal next_var rest next_literal
      end
  end.

Definition get_successors (fuel : nat) (self : DpllSearchSpace)
    (state : search.State) : outcome (list search.State) :=
  if (length state =? length (search.signature (super self)))%nat then Ok []
  else
    let units :=
      set_union (unit_clauses self) (set_of ((λ lit, mkClause [lit]) <$> state)) in
    let! '(units, regulars) := unit_resolution fuel units (regular_clauses self) in
    let! false_clause := c "FALSE" in
    if set_in false_clause regulars then Ok []
    else
      match search.signature (super self) !! length state with
      | None => Raise IndexError
      | Some next_var =>
          let! next_literal := find_next_literal next_var units None in
          match next_literal with
          | Some next_literal => Ok [state ++ [next_literal]]
          | None =>
              Ok ((λ value, state ++ [mkLiteral next_var value])
                    <$> [false; true])
          end
      end.

Definition as_space (fuel : nat) (self : DpllSearchSpace)
    : util.SearchSpace search.State :=
  util.mkSearchSpace (search.start_state (super self))
    (search.is_goal_state (super self)) (get_successors fuel self).

Definition dpll (fuel : nat) (sent : Cnf)
    : outcome (option (gmap string bool)) :=
  let! search_space := init fuel sent in
  let! '(state, _) := util.dfs fuel (as_space fuel search_space) in
  Ok (search.model_of <$> state).

End dpll.

(** ** [agent.py] *)

Module agent.

(** *** The moves and their [__eq__]

    The values that take part in the two comparisons: strings (the
    [__name__] of a type), class objects, integers. *)

Inductive pyclass : Set := RandomRevealClass | RevealClass.

Inductive pyvalue : Set :=
  | PyStr (s : string)
  | PyInt (n : Z)
  | PyClass (cls : pyclass).

#[global] Instance pyclass_eq_dec : EqDecision pyclass.
Proof. solve_decision. Defined.

(** [a == b] on these values: [str] and [int] compare by value with their
    own kind, class objects by identity; for operands of different kinds
    both [__eq__] methods return [NotImplemented] and Python falls back
    to identity, which is false. *)
Definition py_eq (a b : pyvalue) : bool :=
  match a, b with
  | PyStr s, PyStr t => String.eqb s t
  | PyInt n, PyInt m => Z.eqb n m
  | PyClass x, PyClass y => bool_decide (x = y)
  | _, _ => false
  end.

(** The objects a move is compared with. *)
Inductive MinesweeperMove : Set :=
  | RandomReveal
  | Reveal (row column : Z).

(** [type(x)] *)
Definition type_of (x : MinesweeperMove) : pyclass :=
  match x with
  | RandomReveal => RandomRevealClass
  | Reveal _ _ => RevealClass
  end.

(** [cls.__name__] *)
Definition __name__ (cls : pyclass) : string :=
  match cls with
  | RandomRevealClass => "RandomReveal"
  | RevealClass => "Reveal"
  end.

(** [x.row] and [x.column]: only a [Reveal] has them. *)
Definition get_row (x : MinesweeperMove) : outcome Z :=
  match x with
  | Reveal row _ => Ok row
  | RandomReveal => Raise AttributeError
  end.

Definition get_column (x : MinesweeperMove) : outcome Z :=
  match x with
  | Reveal _ column => Ok column
  | RandomReveal => Raise AttributeError
  end.

(** [RandomReveal.__eq__] *)
Definition RandomReveal_eq (other : MinesweeperMove) : bool :=
  py_eq (PyClass (type_of other)) (PyClass RandomRevealClass).

(** [Reveal.__eq__] of [Reveal(row, column)]; [and] evaluates its right
    operand only when the left one is true. *)
Definition Reveal_eq (row column : Z) (other : MinesweeperMove)
    : outcome bool :=
  if py_eq (PyStr (__name__ (type_of other))) (PyClass RevealClass) then
    let! other_row := get_row other in
    if py_eq (PyInt row) (PyInt other_row) then
      let! other_column := get_column other in
      Ok (py_eq (PyInt column) (PyInt other_column))
    else Ok false
  else Ok false.

(** [a == b] for two moves: the [__eq__] of the left operand. *)
Definition move_eq (a b : MinesweeperMove) : outcome bool :=
  match a with
  | RandomReveal => Ok (RandomReveal_eq b)
  | Reveal row column => Reveal_eq row column b
  end.

(** *** The clause builders of [OptimizedAgent] *)

(** [itertools.combinations(iterable, r)] for [r >= 0], in the order
    itertools emits them. *)
Fixpoint combinations {A} (iterable : list A) (r : nat) : list (list A) :=
  match r with
  | 0 => [[]]
  | S r' =>
      match iterable with
      | [] => []
      | x :: rest =>
          ((x ::.) <$> combinations rest r') ++ combinations rest r
      end
  end.

(** [itertools.combinations] raises [ValueError] for a negative [r]. *)
Definition itertools_combinations {A} (iterable : list A) (r : Z)
    : outcome (list (list A)) :=
  if (r <? 0)%Z then Raise ValueError
  else Ok (combinations iterable (Z.to_nat r)).

(** The formatted literals ["!B_{r}_{c}"] and ["B_{r}_{c}"]. *)
Definition not_mine (cell : Z * Z) : string :=
  "!B_" +:+ pystr.str_of_int cell.1 +:+ "_" +:+ pystr.str_of_int cell.2.

Definition mine (cell : Z * Z) : string :=
  "B_" +:+ pystr.str_of_int cell.1 +:+ "_" +:+ pystr.str_of_int cell.2.

Definition at_most_clauses (row col : Z) (k : Z)
    (unrevealed_neighbors : list (Z * Z)) : outcome (list string) :=
  let! combos := itertools_combinations unrevealed_neighbors (k + 1) in
  Ok ((λ combo, pystr.join " || " (not_mine <$> combo)) <$> combos).

Definition at_least_clauses (row col : Z) (k : Z)
    (unrevealed_neighbors : list (Z * Z)) : outcome (list string) :=
  let! combos := itertools_combinations unrevealed_neighbors
              (Z.of_nat (length unrevealed_neighbors) - k + 1) in
  Ok ((λ combo, pystr.join " || " (mine <$> combo)) <$> combos).

(** *** class OptimizedAgent

    The sets of cells and of clause strings are [gset]s; the list of
    pending reports is a list. *)

Record OptimizedAgent : Type := mkOptimizedAgent {
  num_rows : Z;
  num_columns : Z;
  num_mines : Z;
  unrevealed : gset (Z * Z);
  frontier : gset (Z * Z);
  clauses : gset string;
  most_recent_report : list (Z * Z * Z);
  move_num : Z
}.

(** [OptimizedAgent.__init__]; [range(n)] is empty for a negative [n]. *)
Definition init (num_rows num_columns num_mines : Z) : OptimizedAgent :=
  mkOptimizedAgent num_rows num_columns num_mines
    (list_to_set
       (flat_map (λ row, (λ col, (row, col)) <$> seqZ 0 num_columns)
                 (seqZ 0 num_rows)))
    ∅ ∅ [] 0.

Definition get_unrevealed_neighbors (self : OptimizedAgent) (row col : Z)
    : list (Z * Z) :=
  let neighbors :=
    [(row - 1, col - 1); (row - 1, col); (row - 1, col + 1);
     (row, col - 1); (row, col + 1);
     (row + 1, col - 1); (row + 1, col); (row + 1, col + 1)]%Z in
  List.filter
    (λ n, (0 <=? n.1)%Z && (n.1 <? num_rows self)%Z
          && (0 <=? n.2)%Z && (n.2 <? num_columns self)%Z
          && bool_decide (n ∈ unrevealed self))
    neighbors.

Definition report (self : OptimizedAgent) (row column : Z)
    (num_mine_neighbors : Z) : OptimizedAgent :=
  mkOptimizedAgent (num_rows self) (num_columns self) (num_mines self)
    (unrevealed self ∖ {[ (row, column) ]})
    (frontier self)
    (clauses self ∪ {[ not_mine (row, column) ]})
    (most_recent_report self ++ [(row, column, num_mine_neighbors)])
    (move_num self).

Definition process_report (self : OptimizedAgent) (row column : Z)
    (num_mine_neighbors : Z) : outcome OptimizedAgent :=
  let frontier1 := frontier self ∖ {[ (row, column) ]} in
  let with_sets frontier' clauses' :=
    mkOptimizedAgent (num_rows self) (num_columns self) (num_mines self)
      (unrevealed self) frontier' clauses' (most_recent_report self)
      (move_num self) in
  if (num_mine_neighbors =? 0)%Z then Ok (with_sets frontier1 (clauses self))
  else
    let unrevealed_neighbors := get_unrevealed_neighbors self row column in
    let frontier2 := frontier1 ∪ list_to_set unrevealed_neighbors in
    if (length unrevealed_neighbors =? 0)%nat
    then Ok (with_sets frontier2 (clauses self))
    else if (num_mine_neighbors =? Z.of_nat (length unrevealed_neighbors))%Z
    then Ok (with_sets frontier2
               (clauses self ∪ list_to_set (mine <$> unrevealed_neighbors)))
    else
      let! most :=
        at_most_clauses row column num_mine_neighbors unrevealed_neighbors in
      let! least :=
        at_least_clauses row column num_mine_neighbors unrevealed_neighbors in
      Ok (with_sets frontier2
            (clauses self ∪ list_to_set most ∪ list_to_set least)).

(** The loop [for report in self.most_recent_report] of [next_move]. *)
Fixpoint process_reports (self : OptimizedAgent) (reports : list (Z * Z * Z))
    : outcome OptimizedAgent :=
  match reports with
  | [] => Ok self
  | (row, column, num_mine_neighbors) :: rest =>
      let! self' := process_report self row column num_mine_neighbors in
      process_reports self' rest
  end.

(** The periodic rewriting of the clauses by unit resolution. *)
Definition compact (fuel : nat) (clause_strings : gset string)
    : outcome (gset string) :=
  let! sent := cnf.sentence (elements clause_strings) in
  let '(unit_clauses, regular_clauses) :=
    foldl dpll.partition_step ([], []) (cnf.clauses sent) in
  let! '(res_unit_clauses, res_regular_clauses) :=
    dpll.unit_resolution fuel unit_clauses regular_clauses in
  Ok (list_to_set
        (cnf.Clause_str
           <$> cnf.set_union res_unit_clauses res_regular_clauses)).

(** The two loops of [next_move] that look for a cell that cannot be a
    mine. *)
Fixpoint find_safe (fuel : nat) (clause_strings : gset string)
    (cells : list (Z * Z)) : outcome (option (Z * Z)) :=
  match cells with
  | [] => Ok None
  | cell :: rest =>
      if bool_decide (mine cell ∈ clause_strings)
      then find_safe fuel clause_strings rest
      else
        let! sent := cnf.sentence (elements (clause_strings ∪ {[ mine cell ]})) in
        let! model := dpll.dpll fuel sent in
        match model with
        | None => Ok (Some cell)
        | Some _ => find_safe fuel clause_strings rest
        end
  end.

(** The list [frontier_priority] of [next_move]: the unrevealed
    neighbours, in the frontier, of the frontier cells known to be mines. *)
Definition frontier_priority (self : OptimizedAgent) : list (Z * Z) :=
  flat_map
    (λ cell,
       if bool_decide (mine cell ∈ clauses self)
       then elements
              (list_to_set (get_unrevealed_neighbors self cell.1 cell.2)
               ∩ frontier self)
       else [])
    (elements (frontier self)).

Definition next_move (fuel : nat) (self : OptimizedAgent)
    : outcome (OptimizedAgent * MinesweeperMove) :=
  let self :=
    mkOptimizedAgent (num_rows self) (num_columns self) (num_mines self)
      (unrevealed self) (frontier self) (clauses self)
      (most_recent_report self) (move_num self + 1) in
  let! self := process_reports self (most_recent_report self) in
  if (size (frontier self) =? 0)%nat then Ok (self, RandomReveal)
  else
    let! clauses' :=
      if (move_num self mod 5 =? 0)%Z then compact fuel (clauses self)
      else Ok (clauses self) in
    let self :=
      mkOptimizedAgent (num_rows self) (num_columns self) (num_mines self)
        (unrevealed self) (frontier self) clauses' [] (move_num self) in
    let priority := frontier_priority self in
    let! first := find_safe fuel (clauses self) priority in
    match first with
    | Some (r, c) => Ok (self, Reveal r c)
    | None =>
        let! second :=
          find_safe fuel (clauses self)
            (elements (frontier self ∖ list_to_set priority)) in
        match second with
        | Some (r, c) => Ok (self, Reveal r c)
        | None => Ok (self, RandomReveal)
        end
    end.

(** [initialize_agent] *)
Definition initialize_agent (num_rows num_columns num_mines : Z)
    : OptimizedAgent :=
  init num_rows num_columns num_mines.

End agent.

(** ** [game.py]

    The board and the loop of the games played by the agent.  The graphics
    and the clock of the game classes are left out; what the random
    functions [sample] and [choice] return is a parameter. *)

Module game.

(** [seq[i]]: a negative index counts from the end, an index out of range
    raises [IndexError]. *)
Definition getitem {A} (seq : list A) (i : Z) : outcome A :=
  let j := if (i <? 0)%Z then (i + Z.of_nat (length seq))%Z else i in
  if (j <? 0)%Z then Raise IndexError
  else
    match seq !! Z.to_nat j with
    | Some x => Ok x
    | None => Raise IndexError
    end.

(** [seq[i] = x] *)
Definition setitem {A} (seq : list A) (i : Z) (x : A) : outcome (list A) :=
  let j := if (i <? 0)%Z then (i + Z.of_nat (length seq))%Z else i in
  if (j <? 0)%Z || (Z.of_nat (length seq) <=? j)%Z then Raise IndexError
  else Ok (<[Z.to_nat j := x]> seq).

(** A [for] loop whose body may raise. *)
Fixpoint for_each {A S} (body : S → A → outcome S) (s : S) (xs : list A)
    : outcome S :=
  match xs with
  | [] => Ok s
  | x :: rest => let! s' := body s x in for_each body s' rest
  end.



(** *** class Cell; the reference to the board is left out. *)

Record Cell : Type := mkCell {
  label : string;
  revealed : bool;
  row : Z;
  column : Z
}.

(** *** class MinesweeperBoard *)

Record MinesweeperBoard : Type := mkMinesweeperBoard {
  num_rows : Z;
  num_columns : Z;
  cell_map : list (list Cell);
  mines : gset (Z * Z);
  unrevealed : gset (Z * Z);
  game_status : Z
}.

(** [get_neighbors] reads [self.num_rows] and [self.num_columns] only;
    [__init__] calls it before the cells exist. *)
Definition get_neighbors (num_rows num_columns : Z) (row col : Z)
    : list (Z * Z) :=
  let neighbors :=
    [(row - 1, col - 1); (row - 1, col); (row - 1, col + 1);
     (row, col - 1); (row, col + 1);
     (row + 1, col - 1); (row + 1, col); (row + 1, col + 1)]%Z in
  List.filter
    (λ n, (0 <=? n.1)%Z && (n.1 <? num_rows)%Z
          && (0 <=? n.2)%Z && (n.2 <? num_columns)%Z)
    neighbors.

(** The entries of [mine_map]: numbers, then ["*"] for the mines. *)
Inductive entry : Set :=
  | IntEntry (n : Z)
  | StrEntry (s : string).

(** [str(entry)] *)
Definition str (e : entry) : string :=
  match e with
  | IntEntry n => pystr.str_of_int n
  | StrEntry s => s
  end.

(** [mine_map[nrow][ncol] += 1], in the first loop, where every entry is
    a number.  The rows are distinct lists, so that writing the row back
    at its index is what the update in place does. *)
Definition add_one (mine_map : list (list Z)) (cell : Z * Z)
    : outcome (list (list Z)) :=
  let! r := getitem mine_map cell.1 in
  let! n := getitem r cell.2 in
  let! r' := setitem r cell.2 (n + 1)%Z in
  setitem mine_map cell.1 r'.

(** [mine_map[row][col] = "*"] *)
Definition mark (mine_map : list (list entry)) (cell : Z * Z)
    : outcome (list (list entry)) :=
  let! r := getitem mine_map cell.1 in
  let! r' := setitem r cell.2 (StrEntry "*") in
  setitem mine_map cell.1 r'.

(** [MinesweeperBoard.__init__] *)
Definition init (num_rows num_columns : Z) (mines : list (Z * Z))
    : outcome MinesweeperBoard :=
  let mine_map :=
    replicate (Z.to_nat num_rows) (replicate (Z.to_nat num_columns) 0%Z) in
  let! mine_map :=
    for_each
      (λ mine_map mine,
         for_each add_one mine_map
           (get_neighbors num_rows num_columns mine.1 mine.2))
      mine_map mines in
  let! mine_map := for_each mark ((λ r : list Z, IntEntry <$> r) <$> mine_map) mines in
  let! cell_map :=
    map_outcome
      (λ row,
         map_outcome
           (λ col,
              let! r := getitem mine_map row in
              let! e := getitem r col in
              Ok (mkCell (str e) false row col))
           (seqZ 0 num_columns))
      (seqZ 0 num_rows) in
  Ok (mkMinesweeperBoard num_rows num_columns cell_map (list_to_set mines)
        (list_to_set
           (flat_map (λ row, (λ col, (row, col)) <$> seqZ 0 num_columns)
                     (seqZ 0 num_rows)))
        0).








(** *** class NoGraphicsGame *)





End game.

(** ** Propositional semantics *)

Module logic.
Import cnf.

(** A literal holds in a model when the model gives its symbol the
    literal's polarity. *)
Definition holds (model : gmap string bool) (lit : Literal) : Prop :=
  model !! symbol lit = Some (polarity lit).

(** A clause is a disjunction: some literal of it holds. *)
Definition satisfies_clause (model : gmap string bool) (clause : Clause)
    : Prop :=
  ∃ lit, lit ∈ literals clause ∧ holds model lit.

(** A set of clauses is a conjunction. *)
Definition satisfies_all (model : gmap string bool) (cls : list Clause)
    : Prop :=
  ∀ clause, clause ∈ cls → satisfies_clause model clause.

(** The model assigns every symbol of [syms]. *)
Definition covers (model : gmap string bool) (syms : gset string) : Prop :=
  ∀ sym, sym ∈ syms → is_Some (model !! sym).

(** What [check_model] tests on a clause: some symbol has the same value
    in the model and in the clause's dictionary. *)
Definition passes (model : gmap string bool) (clause : Clause) : Prop :=
  ∃ sym p, model !! sym = Some p
           ∧ _get_literal_polarities clause !! sym = Some p.

(** A list of clauses is a Python set when no two of its items are the same
    element. *)
Fixpoint is_set (s : list Clause) : Prop :=
  match s with
  | [] => True
  | x :: s' => set_in x s' = false ∧ is_set s'
  end.

(** The literal occurrences of a list of clauses. *)
Definition all_literals (cls : list Clause) : list Literal :=
  cls ≫= literals.

(** The literals of [lits] that are not yet a unit clause of [units]. *)
Definition pending (units : list Clause) (lits : list Literal)
    : list Literal :=
  List.filter (λ lit, negb (set_in (mkClause [lit]) units)) lits.

(** A state of the searches: one literal for each of the first symbols of
    the signature, in order. *)
Definition assigns_prefix (signature : list string) (state : list Literal)
    : Prop :=
  symbol <$> state = take (length state) signature.

(** The clause holds a symbol in both polarities. *)
Definition tautology (clause : Clause) : Prop :=
  ∃ sym, mkLiteral sym true ∈ literals clause
         ∧ mkLiteral sym false ∈ literals clause.

(** A string without white space and without [|]: it survives [split] on
    [||] and [strip] unchanged. *)
Fixpoint plain (s : string) : bool :=
  match s with
  | EmptyString => true
  | String ch s' =>
      negb (pystr.isspace ch) && negb (Ascii.eqb ch "|") && plain s'
  end.

(** The binomial coefficient, by Pascal's rule. *)
Fixpoint choose (n k : nat) : nat :=
  match k with
  | 0 => 1
  | S k' =>
      match n with
      | 0 => 0
      | S n' => choose n' k' + choose n' k
      end
  end.

(** The test for it. *)
Definition tautologyb (clause : Clause) : bool :=
  existsb (λ lit, bool_decide (negate lit ∈ literals clause))
          (literals clause).

(** The number of mines that [world] puts on [cells]; the variable of a
    cell is the symbol [agent.mine cell]. *)
Definition mines_among (world : gmap string bool) (cells : list (Z * Z))
    : nat :=
  length (List.filter
            (λ cell, bool_decide (world !! agent.mine cell = Some true))
            cells).

(** [world] says of every cell of the agent's grid whether it is a mine. *)
Definition describes (world : gmap string bool) (self : agent.OptimizedAgent)
    : Prop :=
  ∀ cell, (0 ≤ cell.1 < agent.num_rows self)%Z →
          (0 ≤ cell.2 < agent.num_columns self)%Z →
          is_Some (world !! agent.mine cell).

(** A clause over variables of cells that [world] describes, true in
    [world], with no symbol in both polarities. *)
Definition true_of (world : gmap string bool) (clause : Clause) : Prop :=
  satisfies_clause world clause
  ∧ ¬ tautology clause
  ∧ ∀ lit, lit ∈ literals clause →
           ∃ cell, symbol lit = agent.mine cell
                   ∧ is_Some (world !! agent.mine cell).

(** Every clause string of the agent reads, as [sentence] reads it, as a
    clause that is true of [world]. *)
Definition knowledge_holds (world : gmap string bool)
    (clause_strings : gset string) : Prop :=
  ∀ s, s ∈ clause_strings →
       ∃ clause, c (pystr.strip s) = Ok clause ∧ true_of world clause.

(** Every pending report gives the number of mines among the neighbours
    that the agent holds as unrevealed. *)
Definition truthful (world : gmap string bool) (self : agent.OptimizedAgent)
    : Prop :=
  ∀ row col k,
    (row, col, k) ∈ agent.most_recent_report self →
    k = Z.of_nat
          (mines_among world (agent.get_unrevealed_neighbors self row col)).







(** The string has no character [ch]. *)
Fixpoint free_of (ch : ascii) (s : string) : bool :=
  match s with
  | EmptyString => true
  | String x s' => negb (Ascii.eqb x ch) && free_of ch s'
  end.

(** The assignment that says, of every cell of the grid, whether it is a
    mine of the board. *)
Definition world_of (b : game.MinesweeperBoard) : gmap string bool :=
  list_to_map
    ((λ cell, (agent.mine cell, bool_decide (cell ∈ game.mines b)))
       <$> flat_map
             (λ row, (λ col, (row, col)) <$> seqZ 0 (game.num_columns b))
             (seqZ 0 (game.num_rows b))).


End logic.

(** * Properties *)

Import cnf logic.
Section clause_sets.
Implicit Types (x y z : Clause) (s t : list Clause) (lit : Literal).

Lemma hash_key_perm x : Clause_hash_key x ≡ₚ literals x.
Proof. apply merge_sort_Permutation. Qed.

Lemma same_element_iff x y :
  same_element x y = true ↔ Clause_hash_key x = Clause_hash_key y.
Proof.
  unfold same_element, Clause_eq. rewrite andb_true_iff, !bool_decide_eq_true.
  split; [by intros [? _]|]. intros Hk. split; [done|].
  apply set_eq. intros lit. rewrite !elem_of_list_to_set.
  by rewrite <-(hash_key_perm x), <-(hash_key_perm y), Hk.
Qed.

Lemma same_element_refl x : same_element x x = true.
Proof. by apply same_element_iff. Qed.

Lemma same_element_sym x y : same_element x y = same_element y x.
Proof.
  apply eq_true_iff_eq. rewrite !same_element_iff. split; congruence.
Qed.

Lemma same_element_trans x y z :
  same_element x y = true → same_element y z = true →
  same_element x z = true.
Proof. rewrite !same_element_iff. congruence. Qed.

Lemma same_element_literals x y lit :
  same_element x y = true → lit ∈ literals x ↔ lit ∈ literals y.
Proof.
  rewrite same_element_iff. intros Hk.
  by rewrite <-(hash_key_perm x), <-(hash_key_perm y), Hk.
Qed.

Lemma same_element_len x y :
  same_element x y = true → Clause_len x = Clause_len y.
Proof.
  rewrite same_element_iff. intros Hk. unfold Clause_len.
  by rewrite <-(hash_key_perm x), <-(hash_key_perm y), Hk.
Qed.

Lemma same_element_unit lit x :
  same_element (mkClause [lit]) x = true ↔ x = mkClause [lit].
Proof.
  split; [|intros ->; apply same_element_refl].
  rewrite same_element_iff. intros Hk.
  pose proof (hash_key_perm x) as Hp. rewrite <-Hk in Hp.
  change (Clause_hash_key (mkClause [lit])) with [lit] in Hp.
  apply Permutation_singleton_l in Hp. destruct x; simpl in *; congruence.
Qed.

Lemma same_element_empty x :
  same_element (mkClause []) x = true ↔ x = mkClause [].
Proof.
  split; [|intros ->; apply same_element_refl].
  rewrite same_element_iff. intros Hk.
  pose proof (hash_key_perm x) as Hp. rewrite <-Hk in Hp.
  change (Clause_hash_key (mkClause [])) with (@nil Literal) in Hp.
  apply Permutation_nil_l in Hp. destruct x; simpl in *; congruence.
Qed.

Lemma set_in_spec x s :
  set_in x s = true ↔ ∃ y, y ∈ s ∧ same_element x y = true.
Proof.
  unfold set_in. rewrite existsb_exists.
  split; intros (y & ? & ?); exists y; by rewrite ?list_elem_of_In in *.
Qed.

Lemma set_in_elem x s : x ∈ s → set_in x s = true.
Proof. intros. apply set_in_spec. exists x. auto using same_element_refl. Qed.

Lemma set_in_unit lit s : set_in (mkClause [lit]) s = true ↔ mkClause [lit] ∈ s.
Proof.
  rewrite set_in_spec. split; [|intros; eexists; split; [done|apply same_element_refl]].
  intros (y & ? & ->%same_element_unit). done.
Qed.

Lemma set_in_empty s : set_in (mkClause []) s = true ↔ mkClause [] ∈ s.
Proof.
  rewrite set_in_spec. split; [|intros; eexists; split; [done|apply same_element_refl]].
  intros (y & ? & ->%same_element_empty). done.
Qed.

Lemma elem_of_set_add y s x :
  y ∈ set_add s x ↔ y ∈ s ∨ (y = x ∧ set_in x s = false).
Proof.
  unfold set_add. destruct (set_in x s) eqn:E.
  - split; [auto|]. by intros [?|[_ ?]].
  - rewrite elem_of_app, list_elem_of_singleton. split.
    + intros [?|?]; auto.
    + intros [?|[? _]]; auto.
Qed.

Lemma set_in_set_add z s x :
  set_in z (set_add s x) = set_in z s || same_element z x.
Proof.
  apply eq_true_iff_eq. rewrite orb_true_iff, !set_in_spec. split.
  - intros (y & [?|[-> ?]]%elem_of_set_add & ?); eauto.
  - intros [(y & ? & ?)|?].
    + exists y. rewrite elem_of_set_add. auto.
    + destruct (set_in x s) eqn:E.
      * apply set_in_spec in E as (y & ? & ?). exists y.
        rewrite elem_of_set_add. eauto using same_element_trans.
      * exists x. rewrite elem_of_set_add. auto.
Qed.

Lemma set_in_foldl z t s :
  set_in z (foldl set_add s t) = set_in z s || set_in z t.
Proof.
  revert s. induction t as [|x t IH]; intros s; simpl.
  - by rewrite orb_false_r.
  - rewrite IH, set_in_set_add. by rewrite orb_assoc.
Qed.

Lemma elem_of_foldl_set_add y t s :
  y ∈ foldl set_add s t → y ∈ s ∨ y ∈ t.
Proof.
  revert s. induction t as [|x t IH]; intros s; simpl; [auto|].
  intros [[?|[-> _]]%elem_of_set_add|?]%IH; rewrite ?elem_of_cons; auto.
Qed.

Lemma elem_of_foldl_set_add_l y t s : y ∈ s → y ∈ foldl set_add s t.
Proof.
  revert s. induction t as [|x t IH]; intros s ?; simpl; [done|].
  apply IH, elem_of_set_add. auto.
Qed.
End clause_sets.
Section unit_resolve_facts.
Implicit Types (U : list Clause) (C : Clause) (lit : Literal).

(** The literal of [C] that makes it redundant, and the literals kept. *)
Lemma unit_resolve_loop_spec U C lits acc :
  dpll.unit_resolve_loop U C lits acc =
    if (1 <? Clause_len C)
       && existsb (λ lit, set_in (mkClause [lit]) U) lits
    then None
    else Some (mkClause
      (acc ++ List.filter (λ lit, negb (set_in (mkClause [negate lit]) U)) lits)).
Proof.
  revert acc. induction lits as [|lit lits IH]; intros acc; simpl.
  - by rewrite andb_false_r, app_nil_r.
  - destruct (1 <? Clause_len C) eqn:Hlen; simpl.
    + destruct (set_in (mkClause [lit]) U); simpl; [done|].
      rewrite IH. simpl.
      destruct (existsb _ lits); [done|].
      destruct (set_in (mkClause [negate lit]) U); simpl; [done|].
      by rewrite <-app_assoc.
    + rewrite IH. simpl.
      destruct (set_in (mkClause [negate lit]) U); simpl; [done|].
      by rewrite <-app_assoc.
Qed.
End unit_resolve_facts.

(** C3. [unit_resolve(U, C)] is [None] exactly when [C] has more than one
    literal and one of them is a unit clause of [U]; otherwise it is the
    clause of the literals of [C] whose negation is not a unit clause of
    [U], in their order.  Resolving [!A || !B || C] with the units [A] and
    [!C] gives [!B]. *)
Theorem unit_resolve_spec :
  (∀ (U : list Clause) (C : Clause),
     dpll.unit_resolve U C =
       if (1 <? Clause_len C)
          && existsb (λ lit, set_in (mkClause [lit]) U) (literals C)
       then None
       else Some (mkClause
         (List.filter (λ lit, negb (set_in (mkClause [negate lit]) U))
            (literals C))))
  ∧ (let clause :=
       mkClause [mkLiteral "A" false; mkLiteral "B" false; mkLiteral "C" true] in
     let a := mkClause [mkLiteral "A" true] in
     let not_c := mkClause [mkLiteral "C" false] in
     let not_b := mkClause [mkLiteral "B" false] in
     c "!A || !B || C" = Ok clause ∧ c "A" = Ok a ∧ c "!C" = Ok not_c
     ∧ c "!B" = Ok not_b
     ∧ dpll.unit_resolve [a; not_c] clause = Some not_b).
Proof.
  split.
  - intros U C. unfold dpll.unit_resolve. by rewrite unit_resolve_loop_spec.
  - repeat split; vm_compute; reflexivity.
Qed.

(** C5. On the unit clauses [A] and [!A], with no other clause,
    [unit_resolution] stops in its first round and returns the two units
    together with the zero-literal clause, which is the clause [c('FALSE')]
    that [get_successors] looks for with [in]. *)
Theorem unit_resolution_contradiction :
  ∀ fuel,
    let a := mkClause [mkLiteral "A" true] in
    let not_a := mkClause [mkLiteral "A" false] in
    c "A" = Ok a ∧ c "!A" = Ok not_a ∧ c "FALSE" = Ok (mkClause [])
    ∧ ∃ units regulars,
        dpll.unit_resolution (S fuel) [a; not_a] [] = Ok (units, regulars)
        ∧ set_in (mkClause []) regulars = true
        ∧ Clause_len (mkClause []) = 0.
Proof.
  intros fuel. repeat split; try (vm_compute; reflexivity).
  eexists _, _. split; [|split]; [vm_compute; reflexivity|reflexivity..].
Qed.

(** C10. [Reveal(r1, c1) == Reveal(r2, c2)] is [False] for all rows and
    columns, the equal ones included: [Reveal.__eq__] compares the name of
    the other value's type, a string, with the class [Reveal]. *)
Theorem Reveal_eq_never_holds :
  ∀ r1 c1 r2 c2 : Z,
    agent.move_eq (agent.Reveal r1 c1) (agent.Reveal r2 c2) = Ok false.
Proof. reflexivity. Qed.

Section check_model_facts.
Implicit Types (model : gmap string bool) (C : Clause) (lit : Literal).
Implicit Types (sent : Cnf) (sym : string).

Lemma elem_of_Clause_get_symbols C sym :
  sym ∈ Clause_get_symbols C ↔ ∃ lit, lit ∈ literals C ∧ symbol lit = sym.
Proof.
  unfold Clause_get_symbols. rewrite elem_of_list_to_set, list_elem_of_fmap.
  split; intros (lit & ? & ?); eauto.
Qed.

Lemma elem_of_Cnf_get_symbols sent sym :
  sym ∈ Cnf_get_symbols sent
  ↔ ∃ C, C ∈ clauses sent ∧ sym ∈ Clause_get_symbols C.
Proof.
  unfold Cnf_get_symbols.
  assert (∀ cls (acc : gset string),
    sym ∈ foldl (λ syms clause, syms ∪ Clause_get_symbols clause) acc cls
    ↔ sym ∈ acc ∨ ∃ C, C ∈ cls ∧ sym ∈ Clause_get_symbols C) as Hfold.
  { induction cls as [|C cls IH]; intros acc; simpl.
    - split; [auto|]. intros [?|(? & []%elem_of_nil & _)]. done.
    - rewrite IH, elem_of_union. split.
      + intros [[?|?]|(C' & ? & ?)]; [auto|right..].
        * exists C. by rewrite elem_of_cons; auto.
        * exists C'. by rewrite elem_of_cons; auto.
      + intros [?|(C' & [->|?]%elem_of_cons & ?)]; eauto. }
  rewrite Hfold. split; [|auto]. by intros [?%not_elem_of_empty|?].
Qed.

(** The dictionary of a clause: the polarity of the last literal of each
    symbol. *)
Lemma polarities_foldl (ls : list Literal) (d : gmap string bool) sym :
  foldl (λ d lit, <[symbol lit := polarity lit]> d) d ls !! sym =
    match last (List.filter (λ lit, String.eqb (symbol lit) sym) ls) with
    | Some lit => Some (polarity lit)
    | None => d !! sym
    end.
Proof.
  revert d. induction ls as [|lit ls IH]; intros d; simpl; [done|].
  rewrite IH. destruct (String.eqb_spec (symbol lit) sym) as [Heq|Hne].
  - destruct (List.filter _ ls) as [|lit' ls'] eqn:E; simpl.
    + by rewrite Heq, lookup_insert_eq.
    + rewrite last_cons. by destruct (last ls').
  - destruct (last _); [done|]. by rewrite lookup_insert_ne.
Qed.

Lemma polarities_lookup C sym :
  _get_literal_polarities C !! sym =
    polarity <$> last (List.filter (λ lit, String.eqb (symbol lit) sym)
                                   (literals C)).
Proof.
  unfold _get_literal_polarities. rewrite polarities_foldl.
  by destruct (last _).
Qed.

Lemma polarities_lookup_Some C sym p :
  _get_literal_polarities C !! sym = Some p → mkLiteral sym p ∈ literals C.
Proof.
  rewrite polarities_lookup. destruct (last _) as [lit|] eqn:E; [|done].
  intros [= <-]. apply last_Some_elem_of in E.
  apply list_elem_of_In, filter_In in E as [E Hs].
  apply String.eqb_eq in Hs. subst sym. destruct lit. by apply list_elem_of_In.
Qed.

Lemma polarities_is_Some C sym :
  sym ∈ Clause_get_symbols C → is_Some (_get_literal_polarities C !! sym).
Proof.
  rewrite elem_of_Clause_get_symbols. intros (lit & Hin & <-).
  rewrite polarities_lookup.
  destruct (last _) as [lit'|] eqn:E; [by eexists|].
  apply last_None in E.
  assert (In lit (List.filter (λ lit0, String.eqb (symbol lit0) (symbol lit)) (literals C))) as Hf.
  { apply filter_In. split; [by apply list_elem_of_In|apply String.eqb_refl]. }
  rewrite E in Hf. destruct Hf.
Qed.

Lemma polarities_consistent C lit :
  ¬ tautology C → lit ∈ literals C →
  _get_literal_polarities C !! symbol lit = Some (polarity lit).
Proof.
  intros Htaut Hin.
  destruct (polarities_is_Some C (symbol lit)) as [p Hp].
  { apply elem_of_Clause_get_symbols. eauto. }
  rewrite Hp. f_equal. apply polarities_lookup_Some in Hp.
  destruct lit as [sym q]; simpl in *.
  destruct p, q; try done; destruct Htaut; exists sym; auto.
Qed.

Lemma passes_satisfies model C : passes model C → satisfies_clause model C.
Proof.
  intros (sym & p & Hm & Hp). exists (mkLiteral sym p).
  split; [by apply polarities_lookup_Some|done].
Qed.

Lemma satisfies_passes model C :
  ¬ tautology C → satisfies_clause model C → passes model C.
Proof.
  intros Htaut (lit & Hin & Hm). exists (symbol lit), (polarity lit).
  split; [done|by apply polarities_consistent].
Qed.

Lemma check_against_symbols_spec model C syms :
  (∀ sym, sym ∈ syms → is_Some (model !! sym) ∧ sym ∈ Clause_get_symbols C) →
  ∃ b, check_against_symbols model C syms = Ok b
       ∧ (b = true ↔ ∃ sym p, sym ∈ syms ∧ model !! sym = Some p
                        ∧ _get_literal_polarities C !! sym = Some p).
Proof.
  induction syms as [|sym syms IH]; intros Hs; simpl.
  - exists false. split; [done|]. split; [done|].
    by intros (? & ? & []%elem_of_nil & _).
  - destruct (Hs sym) as [[mv Hmv] Hin]; [by left|].
    destruct (polarities_is_Some C sym Hin) as [cv Hcv].
    unfold Clause_getitem. rewrite Hmv, Hcv. simpl.
    destruct IH as (b & Hb & Hiff).
    { intros s ?. apply Hs. by right. }
    destruct (negb mv && negb cv || mv && cv) eqn:E.
    + exists true. split; [done|]. split; [|done]. intros _.
      exists sym, mv. split; [by left|]. split; [done|].
      rewrite Hcv. f_equal. by destruct mv, cv.
    + exists b. split; [done|]. rewrite Hiff. split.
      * intros (s & p & ? & ? & ?). exists s, p. split; [by right|done].
      * intros (s & p & [->|?]%elem_of_cons & Hm & Hp); [|eauto].
        rewrite Hmv in Hm. rewrite Hcv in Hp. simplify_eq. by destruct p.
Qed.

Lemma check_against_clause_spec model C :
  covers model (Clause_get_symbols C) →
  ∃ b, check_against_clause model C = Ok b ∧ (b = true ↔ passes model C).
Proof.
  intros Hcov. unfold check_against_clause.
  destruct (check_against_symbols_spec model C
              (elements (Clause_get_symbols C))) as (b & Hb & Hiff).
  { intros sym Hin%elem_of_elements. auto. }
  exists b. split; [done|]. rewrite Hiff. unfold passes. split.
  - intros (sym & p & _ & ? & ?). eauto.
  - intros (sym & p & Hm & Hp). exists sym, p. split; [|done].
    apply elem_of_elements, elem_of_Clause_get_symbols.
    apply polarities_lookup_Some in Hp. eauto.
Qed.

Lemma covers_clause model sent C :
  covers model (Cnf_get_symbols sent) → C ∈ clauses sent →
  covers model (Clause_get_symbols C).
Proof.
  intros Hcov HC sym Hsym. apply Hcov, elem_of_Cnf_get_symbols. eauto.
Qed.

Lemma check_model_clauses_spec model cls :
  (∀ C, C ∈ cls → covers model (Clause_get_symbols C)) →
  ∃ b, check_model_clauses model cls = Ok b
       ∧ (b = true ↔ ∀ C, C ∈ cls → passes model C).
Proof.
  induction cls as [|C cls IH]; intros Hcov; simpl.
  - exists true. split; [done|]. split; [|done]. by intros _ ? ?%elem_of_nil.
  - destruct (check_against_clause_spec model C) as (b & -> & Hb);
      [apply Hcov; by left|]. simpl.
    destruct IH as (b' & Hb' & Hiff); [intros; apply Hcov; by right|].
    destruct b; simpl.
    + exists b'. split; [done|]. rewrite Hiff. split.
      * intros H C' [->|?]%elem_of_cons; [by apply Hb|auto].
      * intros H C' ?. apply H. by right.
    + exists false. split; [done|]. split; [done|]. intros H.
      apply Hb, H. by left.
Qed.

(** With a model that covers the sentence, [check_model] returns, and
    returns [True] exactly when every clause passes. *)
Lemma check_model_spec sent model :
  covers model (Cnf_get_symbols sent) →
  ∃ b, check_model sent model = Ok b
       ∧ (b = true ↔ ∀ C, C ∈ clauses sent → passes model C).
Proof.
  intros Hcov. apply check_model_clauses_spec.
  intros C HC. by eapply covers_clause.
Qed.

Lemma check_model_true_satisfies sent model :
  covers model (Cnf_get_symbols sent) →
  check_model sent model = Ok true → satisfies_all model (clauses sent).
Proof.
  intros Hcov Hcheck. destruct (check_model_spec sent model Hcov) as (b & Hb & Hiff).
  rewrite Hcheck in Hb. injection Hb as <-.
  intros C HC. apply passes_satisfies. by apply Hiff.
Qed.

(** Without tautologies [check_model] decides satisfaction. *)
Lemma check_model_tautology_free sent model :
  covers model (Cnf_get_symbols sent) →
  (∀ C, C ∈ clauses sent → ¬ tautology C) →
  ∃ b, check_model sent model = Ok b
       ∧ (b = true ↔ satisfies_all model (clauses sent)).
Proof.
  intros Hcov Htaut.
  destruct (check_model_spec sent model Hcov) as (b & Hb & Hiff).
  exists b. split; [done|]. rewrite Hiff. split; intros H C HC.
  - by apply passes_satisfies, H.
  - apply satisfies_passes; auto.
Qed.
End check_model_facts.

(** The instances of the design document: [A || !B] holds under
    [{A: false, B: false}] and fails under [{A: false, B: true}]; the
    sentence [FALSE] fails. *)
Example check_model_examples :
  let clause := mkClause [mkLiteral "A" true; mkLiteral "B" false] in
  c "A || !B" = Ok clause
  ∧ check_model (Cnf_init [clause]) {[ "A" := false; "B" := false ]} = Ok true
  ∧ check_model (Cnf_init [clause]) {[ "A" := false; "B" := true ]} = Ok false
  ∧ ∀ model, check_model (Cnf_init [mkClause []]) model = Ok false.
Proof. repeat split; vm_compute; reflexivity. Qed.

(** C7. The sentence [B || !B] under the assignment [{B: true}]: the
    assignment covers the sentence and the clause contains the literal [B],
    whose polarity is the value of [B], yet [check_model] returns [False].
    The clause's dictionary keeps one polarity per symbol, the last. *)
Theorem check_model_misses_matching_literal :
  let clause := mkClause [mkLiteral "B" true; mkLiteral "B" false] in
  let sent := Cnf_init [clause] in
  let model : gmap string bool := {[ "B" := true ]} in
  c "B || !B" = Ok clause
  ∧ covers model (Cnf_get_symbols sent)
  ∧ (∀ C, C ∈ clauses sent →
       ∃ lit, lit ∈ literals C ∧ model !! symbol lit = Some (polarity lit))
  ∧ _get_literal_polarities clause = {[ "B" := false ]}
  ∧ check_model sent model = Ok false.
Proof.
  simpl. split; [by vm_compute|]. split; [|split; [|split]].
  - intros sym (C & HC & Hs)%elem_of_Cnf_get_symbols.
    apply list_elem_of_singleton in HC as ->.
    apply elem_of_Clause_get_symbols in Hs as (lit & Hin & <-).
    simpl in Hin. apply elem_of_cons in Hin as [->|Hin];
      [|apply list_elem_of_singleton in Hin as ->]; by eexists.
  - intros C ->%list_elem_of_singleton. exists (mkLiteral "B" true).
    split; [by left|done].
  - by vm_compute.
  - by vm_compute.
Qed.

(** C8. For every symbol the clause [sym || !sym] is a tautology, and
    [check_model] of the sentence made of it returns [False] under the
    complete assignment [{sym: true}] (and [True] under [{sym: false}]). *)
Theorem tautology_not_satisfied :
  ∀ sym : string,
    let clause := mkClause [mkLiteral sym true; mkLiteral sym false] in
    tautology clause
    ∧ covers {[ sym := true ]} (Cnf_get_symbols (Cnf_init [clause]))
    ∧ check_model (Cnf_init [clause]) {[ sym := true ]} = Ok false
    ∧ check_model (Cnf_init [clause]) {[ sym := false ]} = Ok true.
Proof.
  intros sym clause.
  assert (Hsyms : ∀ s, s ∈ Cnf_get_symbols (Cnf_init [clause]) → s = sym).
  { intros s (C & HC & Hs)%elem_of_Cnf_get_symbols.
    apply list_elem_of_singleton in HC as ->.
    apply elem_of_Clause_get_symbols in Hs as (lit & Hin & <-).
    subst clause. simpl in Hin. apply elem_of_cons in Hin as [->|Hin];
      [|apply list_elem_of_singleton in Hin as ->]; done. }
  assert (Hcov : ∀ v : bool, covers {[ sym := v ]} (Cnf_get_symbols (Cnf_init [clause]))).
  { intros v s ->%Hsyms. rewrite lookup_singleton_eq. by eexists. }
  assert (Hpol : _get_literal_polarities clause !! sym = Some false).
  { unfold _get_literal_polarities, clause. simpl. by rewrite lookup_insert_eq. }
  split; [exists sym; split; [by left|by right; left]|].
  split; [apply Hcov|]. split.
  - destruct (check_model_spec _ _ (Hcov true)) as (b & -> & Hiff).
    f_equal. destruct b; [|done]. destruct Hiff as [Hiff _].
    destruct (Hiff eq_refl clause) as (s & p & Hm & Hp); [by left|].
    apply lookup_singleton_Some in Hm as [<- <-]. congruence.
  - destruct (check_model_spec _ _ (Hcov false)) as (b & -> & Hiff).
    f_equal. apply Hiff. intros C ->%list_elem_of_singleton.
    exists sym, false. by rewrite lookup_singleton_eq.
Qed.

Section literal_order.
Implicit Types (x y z : Literal) (a b : string).

Lemma str_ltb_lt a b :
  String.ltb a b = true ↔ OrderedTypeEx.String_as_OT.lt a b.
Proof.
  rewrite <-OrderedTypeEx.String_as_OT.cmp_lt.
  unfold String.ltb, OrderedTypeEx.String_as_OT.cmp.
  by destruct (String.compare a b).
Qed.

Lemma str_ltb_irrefl a : String.ltb a a = false.
Proof.
  unfold String.ltb.
  pose proof (proj2 (OrderedTypeEx.String_as_OT.cmp_eq a a) eq_refl) as H.
  unfold OrderedTypeEx.String_as_OT.cmp in H. by rewrite H.
Qed.

Lemma str_ltb_trans a b c :
  String.ltb a b = true → String.ltb b c = true → String.ltb a c = true.
Proof.
  rewrite !str_ltb_lt. apply OrderedTypeEx.String_as_OT.lt_trans.
Qed.

Lemma str_ltb_trichotomy a b :
  String.ltb a b = true ∨ a = b ∨ String.ltb b a = true.
Proof.
  unfold String.ltb. rewrite (String.compare_antisym b a).
  destruct (String.compare a b) eqn:E; simpl; auto.
  right; left. by apply String.compare_eq_iff.
Qed.

Lemma str_ltb_asym a b : String.ltb a b = true → String.ltb b a = false.
Proof.
  intros H. destruct (String.ltb b a) eqn:E; [|done].
  pose proof (str_ltb_trans _ _ _ H E) as Hc. by rewrite str_ltb_irrefl in Hc.
Qed.

Lemma Literal_lt_spec x y :
  Literal_lt x y = true
  ↔ String.ltb (symbol x) (symbol y) = true
    ∨ (symbol x = symbol y ∧ polarity x = false ∧ polarity y = true).
Proof.
  unfold Literal_lt, bool_lt.
  destruct (String.ltb (symbol x) (symbol y)) eqn:E1.
  { split; auto. }
  destruct (String.ltb (symbol y) (symbol x)) eqn:E2.
  { split; [done|]. intros [?|(Hs & _)]; [done|].
    rewrite Hs, str_ltb_irrefl in E2. done. }
  destruct (str_ltb_trichotomy (symbol x) (symbol y)) as [?|[Hs|?]];
    [congruence| |congruence].
  rewrite andb_true_iff, negb_true_iff. split; [auto|].
  by intros [?|(_ & ? & ?)].
Qed.

Lemma Literal_lt_irrefl x : Literal_lt x x = false.
Proof.
  apply not_true_is_false. rewrite Literal_lt_spec.
  rewrite str_ltb_irrefl. intros [?|(_ & ? & ?)]; congruence.
Qed.

Lemma Literal_lt_trans x y z :
  Literal_lt x y = true → Literal_lt y z = true → Literal_lt x z = true.
Proof.
  rewrite !Literal_lt_spec.
  intros [H1|(E1 & ? & ?)] [H2|(E2 & ? & ?)].
  - left. eauto using str_ltb_trans.
  - left. by rewrite <-E2.
  - left. by rewrite E1.
  - congruence.
Qed.

Lemma Literal_lt_trichotomy x y :
  Literal_lt x y = true ∨ x = y ∨ Literal_lt y x = true.
Proof.
  rewrite !Literal_lt_spec.
  destruct (str_ltb_trichotomy (symbol x) (symbol y)) as [?|[Hs|?]]; auto.
  destruct x as [sx [|]], y as [sy [|]]; simpl in *; subst; auto 10.
Qed.

Lemma Literal_le_spec x y : Literal_le x y ↔ Literal_lt x y = true ∨ x = y.
Proof.
  unfold Literal_le. split.
  - intros H. destruct (Literal_lt_trichotomy x y) as [?|[?|?]]; auto.
    congruence.
  - intros [H| ->]; [|apply Literal_lt_irrefl].
    destruct (Literal_lt y x) eqn:E; [|done].
    pose proof (Literal_lt_trans _ _ _ H E) as Hc.
    by rewrite Literal_lt_irrefl in Hc.
Qed.

Lemma Literal_le_total : Total Literal_le.
Proof.
  intros x y. rewrite !Literal_le_spec.
  destruct (Literal_lt_trichotomy x y) as [?|[?|?]]; auto.
Qed.

Lemma Literal_le_trans : Transitive Literal_le.
Proof.
  intros x y z. rewrite !Literal_le_spec.
  intros [?| ->] [?| ->]; eauto using Literal_lt_trans.
Qed.

Lemma Literal_le_antisym : AntiSymm (=) Literal_le.
Proof.
  intros x y. rewrite !Literal_le_spec. intros [H1| ->] [H2|?]; auto.
  pose proof (Literal_lt_trans _ _ _ H1 H2) as Hc.
  by rewrite Literal_lt_irrefl in Hc.
Qed.

(** [sorted] depends only on the literals and their multiplicities. *)
Lemma sorted_literals_perm (xs ys : list Literal) :
  xs ≡ₚ ys → sorted_literals xs = sorted_literals ys.
Proof.
  intros Hp. unfold sorted_literals.
  pose proof Literal_le_total. pose proof Literal_le_trans.
  pose proof Literal_le_antisym.
  apply (StronglySorted_unique Literal_le);
    [apply StronglySorted_merge_sort; apply _..|].
  by rewrite !merge_sort_Permutation.
Qed.
End literal_order.

(** C9. The claim fails on its own example.  The clause built from
    [[A, !B, A]] keeps its three literals, [A] twice.  [__eq__] compares
    the sets of literals, so this clause is equal to the one built from
    [[!B, A]]; [__hash__] hashes the sorted tuple of the literals with its
    duplicates, so the two clauses are hashed from different tuples.  A set
    then holds both, and the sentences read from ["A || !B || A"] and
    from ["!B || A"] are not equal.  It is so whenever a literal is
    repeated: the clause with the repetition is equal to the clause
    without it, and the tuples they hash differ. *)
Theorem Clause_equal_with_different_hash :
  (let a := mkLiteral "A" true in
   let not_b := mkLiteral "B" false in
   let c1 := mkClause [a; not_b; a] in
   let c2 := mkClause [not_b; a] in
   c "A || !B || A" = Ok c1 ∧ c "!B || A" = Ok c2
   ∧ get_literals c1 = [a; not_b; a]
   ∧ ¬ NoDup (get_literals c1)
   ∧ Clause_len c1 = 3
   ∧ Clause_eq c1 c2 = true
   ∧ Clause_hash_key c1 ≠ Clause_hash_key c2
   ∧ same_element c1 c2 = false
   ∧ clauses (Cnf_init [c1; c2]) = [c1; c2]
   ∧ sentence ["A || !B || A"] = Ok (Cnf_init [c1])
   ∧ sentence ["!B || A"] = Ok (Cnf_init [c2])
   ∧ Cnf_eq (Cnf_init [c1]) (Cnf_init [c2]) = false)
  ∧ ∀ (lit : Literal) (ls : list Literal),
      Clause_eq (mkClause (lit :: lit :: ls)) (mkClause (lit :: ls)) = true
      ∧ Clause_hash_key (mkClause (lit :: lit :: ls))
        ≠ Clause_hash_key (mkClause (lit :: ls)).
Proof.
  split.
  { simpl. split_and!; try by vm_compute.
    intros [Hnd _]%NoDup_cons. apply Hnd. by right; left. }
  intros lit ls. split.
  - unfold Clause_eq. apply bool_decide_eq_true. simpl.
    apply set_eq. intros x. rewrite !elem_of_union. tauto.
  - intros Hk.
    pose proof (hash_key_perm (mkClause (lit :: lit :: ls))) as H1.
    pose proof (hash_key_perm (mkClause (lit :: ls))) as H2.
    rewrite Hk in H1. rewrite H2 in H1.
    apply Permutation_length in H1. simpl in H1. lia.
Qed.

Section proper_sets.
Implicit Types (x y z : Clause) (s t : list Clause).

Lemma set_in_app z s t : set_in z (s ++ t) = set_in z s || set_in z t.
Proof. unfold set_in. apply existsb_app. Qed.

Lemma set_in_same x y s :
  same_element x y = true → set_in x s = set_in y s.
Proof.
  intros Hxy. apply eq_true_iff_eq. rewrite !set_in_spec.
  split; intros (z & ? & ?); exists z; split; try done.
  - rewrite same_element_sym in Hxy. eauto using same_element_trans.
  - eauto using same_element_trans.
Qed.

Lemma is_set_snoc s x : is_set (s ++ [x]) ↔ is_set s ∧ set_in x s = false.
Proof.
  induction s as [|y s IH]; simpl.
  - split; [done|]. by intros _.
  - rewrite IH, set_in_app. simpl. rewrite orb_false_r, orb_false_iff.
    rewrite (same_element_sym y x). split.
    + intros ((? & ?) & ? & ?). by rewrite orb_false_iff.
    + intros ((? & ?) & (? & ?)%orb_false_iff). done.
Qed.

Lemma is_set_set_add s x : is_set s → is_set (set_add s x).
Proof.
  intros Hs. unfold set_add. destruct (set_in x s) eqn:E; [done|].
  by apply is_set_snoc.
Qed.

Lemma is_set_foldl t s : is_set s → is_set (foldl set_add s t).
Proof.
  revert s. induction t as [|x t IH]; intros s Hs; simpl; [done|].
  by apply IH, is_set_set_add.
Qed.

Lemma is_set_set_of t : is_set (set_of t).
Proof. by apply is_set_foldl. Qed.

Lemma set_add_extends s x : ∃ ext, set_add s x = s ++ ext.
Proof.
  unfold set_add. destruct (set_in x s); [exists []; by rewrite app_nil_r|eauto].
Qed.

Lemma is_set_app_l s t : is_set (s ++ t) → is_set s.
Proof.
  induction s as [|y s IH]; simpl; [done|].
  rewrite set_in_app. intros [[? _]%orb_false_iff ?]. auto.
Qed.

Lemma foldl_set_add_id t s : is_set (s ++ t) → foldl set_add s t = s ++ t.
Proof.
  revert s. induction t as [|x t IH]; intros s Hs; simpl.
  - by rewrite app_nil_r.
  - assert (is_set ((s ++ [x]) ++ t)) as Hst by by rewrite <-app_assoc.
    pose proof (is_set_app_l _ _ Hst) as [_ Hx]%is_set_snoc.
    unfold set_add at 2. rewrite Hx, IH by done. by rewrite <-app_assoc.
Qed.

Lemma set_of_id s : is_set s → set_of s = s.
Proof. intros Hs. unfold set_of. by rewrite foldl_set_add_id. Qed.
End proper_sets.

Section resolution_round.
Implicit Types (U G : list Clause) (C x y : Clause) (lit : Literal).

(** What one pass over the clauses [cls] adds to the two sets. *)
Lemma foldl_resolve_step U cls nu0 nc0 :
  ∃ extu extc,
    foldl (dpll.resolve_step U) (nu0, nc0) cls = (nu0 ++ extu, nc0 ++ extc)
    ∧ (is_set nu0 → is_set (nu0 ++ extu))
    ∧ (is_set nc0 → is_set (nc0 ++ extc))
    ∧ (∀ y, y ∈ extu →
         ∃ C, C ∈ cls ∧ dpll.unit_resolve U C = Some y ∧ Clause_len y = 1)
    ∧ (∀ y, y ∈ extc →
         ∃ C, C ∈ cls ∧ dpll.unit_resolve U C = Some y ∧ Clause_len y ≠ 1)
    ∧ (∀ C y, C ∈ cls → dpll.unit_resolve U C = Some y →
         if (Clause_len y =? 1)%nat then set_in y (nu0 ++ extu) = true
         else set_in y (nc0 ++ extc) = true).
Proof.
  revert nu0 nc0. induction cls as [|C cls IH]; intros nu0 nc0; simpl.
  { exists [], []. rewrite !app_nil_r.
    repeat split; try done; try (by intros ? ?%elem_of_nil);
      try (by intros ? ? ?%elem_of_nil). }
  destruct (dpll.unit_resolve U C) as [y|] eqn:Hres.
  2:{ destruct (IH nu0 nc0) as (extu & extc & Hf & Hsu & Hsc & Hu & Hc & Hall).
      exists extu, extc. rewrite Hf. repeat split; try done.
      - intros z Hz. destruct (Hu z Hz) as (C' & ? & ?). exists C'.
        split; [by right|done].
      - intros z Hz. destruct (Hc z Hz) as (C' & ? & ?). exists C'.
        split; [by right|done].
      - intros C' z [->|?]%elem_of_cons ?; [congruence|by eapply Hall]. }
  destruct (Clause_len y =? 1)%nat eqn:Hlen.
  - destruct (set_add_extends nu0 y) as (e1 & He1).
    destruct (IH (set_add nu0 y) nc0)
      as (extu & extc & Hf & Hsu & Hsc & Hu & Hc & Hall).
    exists (e1 ++ extu), extc. rewrite Hf, He1, <-app_assoc.
    split; [done|]. rewrite He1, <-app_assoc in Hsu, Hall.
    split; [|split; [done|split; [|split]]].
    + intros Hs. apply Hsu. rewrite <-He1. by apply is_set_set_add.
    + intros z [Hz|Hz]%elem_of_app.
      * exists C. split; [by left|]. apply Nat.eqb_eq in Hlen.
        assert (z ∈ set_add nu0 y) as Hz' by (rewrite He1, elem_of_app; auto).
        apply elem_of_set_add in Hz' as [Hz'|[-> _]]; [|done].
        unfold set_add in He1. destruct (set_in y nu0) eqn:E.
        -- assert (e1 = []) as -> by (by apply (app_inv_head nu0); rewrite app_nil_r).
           by apply elem_of_nil in Hz.
        -- apply app_inv_head in He1. subst e1.
           by apply list_elem_of_singleton in Hz as ->.
      * destruct (Hu z Hz) as (C' & ? & ?). exists C'. split; [by right|done].
    + intros z Hz. destruct (Hc z Hz) as (C' & ? & ?). exists C'.
      split; [by right|done].
    + intros C' z [->|?]%elem_of_cons Hz; [|by eapply Hall].
      rewrite Hres in Hz. injection Hz as <-. rewrite Hlen.
      rewrite app_assoc, <-He1, set_in_app, set_in_set_add.
      by rewrite same_element_refl, orb_true_r.
  - destruct (set_add_extends nc0 y) as (e1 & He1).
    destruct (IH nu0 (set_add nc0 y))
      as (extu & extc & Hf & Hsu & Hsc & Hu & Hc & Hall).
    exists extu, (e1 ++ extc). rewrite Hf, He1, <-app_assoc.
    split; [done|]. rewrite He1, <-app_assoc in Hsc, Hall.
    split; [done|split; [|split; [|split]]].
    + intros Hs. apply Hsc. rewrite <-He1. by apply is_set_set_add.
    + intros z Hz. destruct (Hu z Hz) as (C' & ? & ?). exists C'.
      split; [by right|done].
    + intros z [Hz|Hz]%elem_of_app.
      * exists C. split; [by left|]. apply Nat.eqb_neq in Hlen.
        unfold set_add in He1. destruct (set_in y nc0) eqn:E.
        -- assert (e1 = []) as -> by (by apply (app_inv_head nc0); rewrite app_nil_r).
           by apply elem_of_nil in Hz.
        -- apply app_inv_head in He1. subst e1.
           by apply list_elem_of_singleton in Hz as ->.
      * destruct (Hc z Hz) as (C' & ? & ?). exists C'. split; [by right|done].
    + intros C' z [->|?]%elem_of_cons Hz; [|by eapply Hall].
      rewrite Hres in Hz. injection Hz as <-. rewrite Hlen.
      rewrite app_assoc, <-He1, set_in_app, set_in_set_add.
      by rewrite same_element_refl, orb_true_r.
Qed.
End resolution_round.

Section resolution_semantics.
Implicit Types (U G : list Clause) (C x y : Clause) (lit : Literal).
Implicit Types (model : gmap string bool).

Lemma satisfies_same model x y :
  same_element x y = true → satisfies_clause model x ↔ satisfies_clause model y.
Proof.
  intros Hxy. unfold satisfies_clause.
  split; intros (lit & Hin & ?); exists lit; (split; [|done]);
    by apply (same_element_literals x y lit Hxy).
Qed.

Lemma satisfies_set_in model s x :
  satisfies_all model s → set_in x s = true → satisfies_clause model x.
Proof.
  intros Hs (y & Hy & Hxy)%set_in_spec.
  apply (satisfies_same model x y Hxy). by apply Hs.
Qed.

Lemma satisfies_all_app model s t :
  satisfies_all model (s ++ t) ↔ satisfies_all model s ∧ satisfies_all model t.
Proof.
  unfold satisfies_all. setoid_rewrite elem_of_app. split.
  - intros H. split; intros; apply H; auto.
  - intros [H1 H2] C [?|?]; auto.
Qed.

Lemma satisfies_unit model lit :
  satisfies_clause model (mkClause [lit]) ↔ holds model lit.
Proof.
  split.
  - by intros (l' & ->%list_elem_of_singleton & ?).
  - intros. exists lit. split; [by left|done].
Qed.

Lemma holds_negate model lit : holds model lit → ¬ holds model (negate lit).
Proof. unfold holds. simpl. intros -> [=]. by destruct (polarity lit). Qed.

Lemma unit_resolve_Some U C y :
  dpll.unit_resolve U C = Some y →
  literals y = List.filter (λ lit, negb (set_in (mkClause [negate lit]) U))
                           (literals C).
Proof.
  rewrite (proj1 unit_resolve_spec). destruct (_ && _); [done|]. by intros [= <-].
Qed.

Lemma unit_resolve_None U C :
  dpll.unit_resolve U C = None →
  ∃ lit, lit ∈ literals C ∧ mkClause [lit] ∈ U.
Proof.
  rewrite (proj1 unit_resolve_spec). destruct (_ && _) eqn:E; [|done].
  intros _. apply andb_true_iff in E as [_ E].
  apply existsb_exists in E as (lit & Hin & Hu).
  exists lit. split; [by apply list_elem_of_In|by apply set_in_unit].
Qed.

Lemma unit_resolve_subset U C y lit :
  dpll.unit_resolve U C = Some y → lit ∈ literals y → lit ∈ literals C.
Proof.
  intros ->%unit_resolve_Some Hin. apply list_elem_of_In, filter_In in Hin.
  apply list_elem_of_In, Hin.
Qed.

Lemma unit_resolve_sound model U C y :
  satisfies_all model U → dpll.unit_resolve U C = Some y →
  satisfies_clause model C → satisfies_clause model y.
Proof.
  intros HU Hy (lit & Hin & Hlit). exists lit. split; [|done].
  rewrite (unit_resolve_Some _ _ _ Hy). apply list_elem_of_In, filter_In.
  split; [by apply list_elem_of_In|]. apply negb_true_iff.
  destruct (set_in _ U) eqn:E; [|done].
  apply (satisfies_set_in model) in E; [|done].
  apply satisfies_unit in E. by apply holds_negate in Hlit.
Qed.

Lemma unit_resolve_back model U C y :
  dpll.unit_resolve U C = Some y →
  satisfies_clause model y → satisfies_clause model C.
Proof.
  intros Hy (lit & Hin & Hlit). exists lit. split; [|done].
  by eapply unit_resolve_subset.
Qed.

Lemma unit_resolve_redundant model U C :
  satisfies_all model U → dpll.unit_resolve U C = None →
  satisfies_clause model C.
Proof.
  intros HU (lit & Hin & Hu)%unit_resolve_None. exists lit. split; [done|].
  apply satisfies_unit. by apply HU.
Qed.

(** One round of [unit_resolution] from a proper set of units. *)
Lemma resolve_round_spec U G :
  is_set U →
  ∃ extu nc,
    dpll.resolve_round U G = (U ++ extu, nc)
    ∧ is_set (U ++ extu) ∧ is_set nc
    ∧ (∀ y, y ∈ extu →
         ∃ C, (C ∈ G ∨ C ∈ U) ∧ dpll.unit_resolve U C = Some y
              ∧ Clause_len y = 1)
    ∧ (∀ y, y ∈ nc →
         ∃ C, (C ∈ G ∨ C ∈ U) ∧ dpll.unit_resolve U C = Some y
              ∧ Clause_len y ≠ 1)
    ∧ (∀ C, C ∈ G ∨ C ∈ U →
         ∃ C', same_element C C' = true ∧ (C' ∈ G ∨ C' ∈ U)
               ∧ ∀ y, dpll.unit_resolve U C' = Some y →
                      set_in y (U ++ extu) = true ∨ set_in y nc = true).
Proof.
  intros HU. unfold dpll.resolve_round. rewrite (set_of_id U HU).
  destruct (foldl_resolve_step U (set_union G U) U [])
    as (extu & extc & Hf & Hsu & Hsc & Hu & Hc & Hall).
  exists extu, extc. simpl in *. split; [done|].
  split; [auto|]. split; [auto|]. split; [|split].
  - intros y Hy. destruct (Hu y Hy) as (C & HC & ?). exists C.
    split; [|done]. by apply elem_of_foldl_set_add in HC.
  - intros y Hy. destruct (Hc y Hy) as (C & HC & ?). exists C.
    split; [|done]. by apply elem_of_foldl_set_add in HC.
  - intros C HC.
    assert (set_in C (set_union G U) = true) as (C' & HC' & Hsame)%set_in_spec.
    { unfold set_union. rewrite set_in_foldl. apply orb_true_iff.
      destruct HC; [left|right]; by apply set_in_elem. }
    exists C'. split; [done|]. split; [by apply elem_of_foldl_set_add in HC'|].
    intros y Hy. specialize (Hall C' y HC' Hy).
    destruct (Clause_len y =? 1)%nat; auto.
Qed.

Lemma resolve_round_equivalent model U G nu nc :
  is_set U → dpll.resolve_round U G = (nu, nc) →
  satisfies_all model (U ++ G) ↔ satisfies_all model (nu ++ nc).
Proof.
  intros HU Hround.
  destruct (resolve_round_spec U G HU)
    as (extu & nc' & Hr & _ & _ & Hu & Hc & Hall).
  rewrite Hround in Hr. injection Hr as -> ->.
  rewrite !satisfies_all_app. split.
  - intros [HsU HsG]. split; [split; [done|]|].
    + intros y Hy. destruct (Hu y Hy) as (C & HC & Hres & _).
      apply (unit_resolve_sound model U C y HsU Hres). destruct HC; auto.
    + intros y Hy. destruct (Hc y Hy) as (C & HC & Hres & _).
      apply (unit_resolve_sound model U C y HsU Hres). destruct HC; auto.
  - intros [[HsU Hse] Hsc]. split; [done|].
    intros C HC. destruct (Hall C) as (C' & Hsame & _ & Hres); [auto|].
    apply (satisfies_same model _ _ Hsame).
    destruct (dpll.unit_resolve U C') as [y|] eqn:E.
    + apply (unit_resolve_back model U C' y E).
      destruct (Hres y eq_refl) as [Hin|Hin].
      * apply (satisfies_set_in model (U ++ extu)); [|done].
        by apply satisfies_all_app.
      * by apply (satisfies_set_in model nc').
    + by apply (unit_resolve_redundant model U).
Qed.

(** The partial-correctness rule of the [while True] loop. *)
Lemma unit_resolution_loop_inv (I Q : list Clause → list Clause → Prop) :
  (∀ U G nu nc, I U G → dpll.resolve_round U G = (nu, nc) →
     length U ≠ length nu → I nu nc) →
  (∀ U G nu nc, I U G → dpll.resolve_round U G = (nu, nc) →
     length U = length nu → Q U nc) →
  ∀ fuel U G U' G',
    I U G → dpll.unit_resolution_loop fuel U G = Ok (U', G') → Q U' G'.
Proof.
  intros Hstep Hexit. induction fuel as [|fuel IH]; intros U G U' G' HI; [done|].
  simpl. destruct (dpll.resolve_round U G) as [nu nc] eqn:Hround.
  destruct (length U =? length nu)%nat eqn:Hlen.
  - intros [= <- <-]. apply Nat.eqb_eq in Hlen. eauto.
  - apply Nat.eqb_neq in Hlen. apply IH. eauto.
Qed.
End resolution_semantics.

Section resolution_termination.
Implicit Types (U G : list Clause) (C x y : Clause) (lit : Literal).
Implicit Types (L : list Literal).

Lemma filter_length_le {A} (f g : A → bool) (l : list A) :
  (∀ a, f a = true → g a = true) →
  length (List.filter f l) ≤ length (List.filter g l).
Proof.
  intros Hfg. induction l as [|a l IH]; simpl; [done|].
  destruct (f a) eqn:Ef.
  - rewrite (Hfg a Ef). simpl. lia.
  - destruct (g a); simpl; lia.
Qed.

Lemma filter_length_lt {A} (f g : A → bool) (l : list A) (x : A) :
  (∀ a, f a = true → g a = true) →
  x ∈ l → g x = true → f x = false →
  length (List.filter f l) < length (List.filter g l).
Proof.
  intros Hfg Hin Hg Hf. induction l as [|a l IH]; [by apply elem_of_nil in Hin|].
  simpl. apply elem_of_cons in Hin as [<-|Hin].
  - rewrite Hg, Hf. simpl. pose proof (filter_length_le f g l Hfg). lia.
  - specialize (IH Hin). destruct (f a) eqn:Ef.
    + rewrite (Hfg a Ef). simpl. lia.
    + destruct (g a); simpl; lia.
Qed.

Lemma elem_of_all_literals lit cls :
  lit ∈ all_literals cls ↔ ∃ C, C ∈ cls ∧ lit ∈ literals C.
Proof.
  unfold all_literals. rewrite list_elem_of_bind. split.
  - intros (C & ? & ?). eauto.
  - intros (C & ? & ?). eauto.
Qed.

Lemma Clause_len_1 y : Clause_len y = 1 → ∃ lit, y = mkClause [lit].
Proof.
  destruct y as [[|lit [|]]]; unfold Clause_len; simpl; try done. eauto.
Qed.

(** A round that adds a unit clause lowers the number of pending literals,
    and keeps the literals within [L]. *)
Lemma resolve_round_progress L U G nu nc :
  is_set U →
  (∀ lit, lit ∈ all_literals (U ++ G) → lit ∈ L) →
  dpll.resolve_round U G = (nu, nc) →
  is_set nu
  ∧ (∀ lit, lit ∈ all_literals (nu ++ nc) → lit ∈ L)
  ∧ (length U ≠ length nu → length (pending nu L) < length (pending U L)).
Proof.
  intros HU HL Hround.
  destruct (resolve_round_spec U G HU)
    as (extu & nc' & Hr & Hsu & _ & Hu & Hc & _).
  rewrite Hround in Hr. injection Hr as -> ->.
  assert (Hsub : ∀ y C lit, (C ∈ G ∨ C ∈ U) → dpll.unit_resolve U C = Some y →
                   lit ∈ literals y → lit ∈ L).
  { intros y C lit HC Hres Hlit. apply HL, elem_of_all_literals. exists C.
    split; [rewrite elem_of_app; tauto|by eapply unit_resolve_subset]. }
  split; [done|]. split.
  - intros lit (y & Hy & Hlit)%elem_of_all_literals.
    apply elem_of_app in Hy as [[Hy|Hy]%elem_of_app|Hy].
    + apply HL, elem_of_all_literals. exists y. rewrite elem_of_app. auto.
    + destruct (Hu y Hy) as (C & HC & Hres & _). eauto.
    + destruct (Hc y Hy) as (C & HC & Hres & _). eauto.
  - intros Hlen. destruct extu as [|y extu].
    { by rewrite app_nil_r in Hlen. }
    destruct (Hu y) as (C & HC & Hres & Hlen1); [by left|].
    apply Clause_len_1 in Hlen1 as (lit & ->).
    apply (filter_length_lt _ _ L lit).
    + intros a. rewrite !negb_true_iff, set_in_app.
      by intros [? _]%orb_false_iff.
    + apply (Hsub _ C lit HC Hres). by left.
    + apply negb_true_iff.
      replace (U ++ mkClause [lit] :: extu)
        with ((U ++ [mkClause [lit]]) ++ extu) in Hsu
        by by rewrite <-app_assoc.
      by apply is_set_app_l, is_set_snoc in Hsu as [_ ?].
    + apply negb_false_iff. rewrite set_in_app. apply orb_true_iff. right.
      apply set_in_elem. by left.
Qed.

(** The loop stops: with [n] pending literals at most, any budget above
    [n] yields the same result. *)
Lemma unit_resolution_loop_terminates L n U G :
  is_set U →
  (∀ lit, lit ∈ all_literals (U ++ G) → lit ∈ L) →
  length (pending U L) ≤ n →
  ∃ U' G', ∀ fuel, n < fuel → dpll.unit_resolution_loop fuel U G = Ok (U', G').
Proof.
  revert U G. induction n as [|n IH]; intros U G HU HL Hn.
  - destruct (dpll.resolve_round U G) as [nu nc] eqn:Hround.
    destruct (resolve_round_progress L U G nu nc HU HL Hround) as (_ & _ & Hdec).
    exists U, nc. intros [|fuel] ?; [lia|]. simpl. rewrite Hround.
    destruct (length U =? length nu)%nat eqn:E; [done|].
    apply Nat.eqb_neq, Hdec in E. lia.
  - destruct (dpll.resolve_round U G) as [nu nc] eqn:Hround.
    destruct (resolve_round_progress L U G nu nc HU HL Hround)
      as (Hnu & HL' & Hdec).
    destruct (length U =? length nu)%nat eqn:E.
    + exists U, nc. intros [|fuel] ?; [lia|]. simpl. by rewrite Hround, E.
    + destruct (IH nu nc Hnu HL') as (U' & G' & Hloop).
      { apply Nat.eqb_neq, Hdec in E. lia. }
      exists U', G'. intros [|fuel] ?; [lia|]. simpl. rewrite Hround, E.
      apply Hloop. lia.
Qed.

Lemma pending_length U L : length (pending U L) ≤ length L.
Proof.
  unfold pending. induction L as [|a L IH]; simpl; [done|].
  destruct (negb _); simpl; lia.
Qed.

Lemma elem_of_set_of y t : y ∈ set_of t → y ∈ t.
Proof. intros [[]%elem_of_nil|?]%elem_of_foldl_set_add. done. Qed.

Lemma set_in_set_of y t : set_in y (set_of t) = set_in y t.
Proof. unfold set_of. by rewrite set_in_foldl. Qed.

Lemma satisfies_all_set_of model t :
  satisfies_all model (set_of t) ↔ satisfies_all model t.
Proof.
  split; intros H C HC.
  - apply (satisfies_set_in model (set_of t)); [done|].
    rewrite set_in_set_of. by apply set_in_elem.
  - by apply H, elem_of_set_of.
Qed.
End resolution_termination.

Section unit_resolution_result.
Implicit Types (U G : list Clause) (C x y : Clause) (lit : Literal).

(** What [unit_resolution] returns, for every input. *)
Lemma unit_resolution_spec U G :
  ∃ U' G',
    (∀ fuel, length (all_literals (U ++ G)) < fuel →
       dpll.unit_resolution fuel U G = Ok (U', G'))
    ∧ (∀ model, satisfies_all model (U ++ G) ↔ satisfies_all model (U' ++ G'))
    ∧ is_set U' ∧ is_set G'
    ∧ (∀ x, set_in x U = true → set_in x U' = true)
    ∧ (∀ y, y ∈ U' → y ∈ U ∨ Clause_len y = 1)
    ∧ (∀ y, y ∈ G' → Clause_len y ≠ 1)
    ∧ (∀ lit, lit ∈ all_literals (U' ++ G') → lit ∈ all_literals (U ++ G)).
Proof.
  set (L := all_literals (U ++ G)).
  assert (HL0 : ∀ lit, lit ∈ all_literals (set_of U ++ set_of G) → lit ∈ L).
  { intros lit (C & HC & Hlit)%elem_of_all_literals.
    apply elem_of_all_literals. exists C. split; [|done].
    rewrite elem_of_app in *. destruct HC as [?%elem_of_set_of|?%elem_of_set_of]; auto. }
  destruct (unit_resolution_loop_terminates L (length L) (set_of U) (set_of G))
    as (U' & G' & Hloop); [apply is_set_set_of|done|apply pending_length|].
  exists U', G'. split; [done|].
  pose (I := λ U1 G1 : list Clause,
    is_set U1
    ∧ (∀ model, satisfies_all model (U ++ G) ↔ satisfies_all model (U1 ++ G1))
    ∧ (∀ x, set_in x U = true → set_in x U1 = true)
    ∧ (∀ y, y ∈ U1 → y ∈ U ∨ Clause_len y = 1)
    ∧ (∀ lit, lit ∈ all_literals (U1 ++ G1) → lit ∈ L)).
  pose (Q := λ U1 G1 : list Clause,
    (∀ model, satisfies_all model (U ++ G) ↔ satisfies_all model (U1 ++ G1))
    ∧ is_set U1 ∧ is_set G1
    ∧ (∀ x, set_in x U = true → set_in x U1 = true)
    ∧ (∀ y, y ∈ U1 → y ∈ U ∨ Clause_len y = 1)
    ∧ (∀ y, y ∈ G1 → Clause_len y ≠ 1)
    ∧ (∀ lit, lit ∈ all_literals (U1 ++ G1) → lit ∈ L)).
  apply (unit_resolution_loop_inv I Q) with (fuel := S (length L))
    (U := set_of U) (G := set_of G).
  - intros U1 G1 nu nc (HU1 & Heq & Hin & Hlen & HL) Hround _.
    destruct (resolve_round_spec U1 G1 HU1)
      as (extu & nc' & Hr & Hsu & _ & Hu & _ & _).
    destruct (resolve_round_progress L U1 G1 nu nc HU1 HL Hround) as (? & ? & _).
    rewrite Hround in Hr. injection Hr as -> ->.
    split; [done|]. split; [|split; [|split; [|done]]].
    + intros model. rewrite Heq. by apply resolve_round_equivalent.
    + intros x Hx. rewrite set_in_app. by rewrite (Hin x Hx).
    + intros y [Hy|Hy]%elem_of_app; [auto|].
      destruct (Hu y Hy) as (_ & _ & _ & ?). auto.
  - intros U1 G1 nu nc (HU1 & Heq & Hin & Hlen & HL) Hround Hsame.
    destruct (resolve_round_spec U1 G1 HU1)
      as (extu & nc' & Hr & Hsu & Hsc & Hu & Hc & _).
    destruct (resolve_round_progress L U1 G1 nu nc HU1 HL Hround) as (? & HL' & _).
    rewrite Hround in Hr. injection Hr as -> ->.
    assert (extu = []) as ->.
    { rewrite length_app in Hsame. destruct extu; [done|simpl in Hsame; lia]. }
    rewrite app_nil_r in *.
    split; [|split; [done|split; [done|split; [done|split; [done|split; [|done]]]]]].
    + intros model. rewrite Heq. by apply resolve_round_equivalent.
    + intros y Hy. by destruct (Hc y Hy) as (_ & _ & _ & ?).
  - split; [apply is_set_set_of|]. split; [|split; [|split; [|done]]].
    + intros model. by rewrite !satisfies_all_app, !satisfies_all_set_of.
    + intros x. by rewrite set_in_set_of.
    + intros y ?%elem_of_set_of. auto.
  - apply Hloop. lia.
Qed.
End unit_resolution_result.

Section uninformed_search_facts.
Context {State : Type} (space : util.SearchSpace State).

Lemma foldl_put_perm kind (container successors : list State) :
  foldl (util.put kind) container successors ≡ₚ successors ++ container.
Proof.
  revert container. induction successors as [|x xs IH]; intros container; simpl.
  - done.
  - rewrite IH. destruct kind; simpl.
    + rewrite (Permutation_app_comm container [x]). simpl.
      by rewrite Permutation_middle.
    + by rewrite Permutation_middle.
Qed.

(** A state that the search returns passed the goal test, and the search
    visited at least one state. *)
Lemma uninformed_search_loop_goal kind fuel container count found visited :
  util.uninformed_search_loop fuel space kind container count
    = Ok (Some found, visited) →
  util.is_goal_state space found = Ok true ∧ count < visited.
Proof.
  revert container count.
  induction fuel as [|fuel IH]; intros container count; [done|]. simpl.
  destruct container as [|next_state container]; [done|].
  destruct (util.is_goal_state space next_state) as [[|]| |] eqn:Hgoal;
    simpl; try done.
  - intros [= <- <-]. split; [done|lia].
  - destruct (util.get_successors space next_state) as [successors| |];
      simpl; try done.
    intros [? ?]%IH. split; [done|lia].
Qed.

Context (good : State → Prop) (depth : State → nat) (P : State → Prop).

Hypothesis goal_total :
  ∀ s, good s → ∃ b, util.is_goal_state space s = Ok b.
Hypothesis successors_total :
  ∀ s, good s → util.is_goal_state space s = Ok false →
    ∃ successors,
      util.get_successors space s = Ok successors
      ∧ length successors ≤ 2
      ∧ (∀ s', s' ∈ successors → good s' ∧ depth s' < depth s)
      ∧ (P s → ∃ s', s' ∈ successors ∧ P s').

Lemma weight_successors (s : State) (successors : list State) :
  length successors ≤ 2 →
  (∀ s', s' ∈ successors → depth s' < depth s) →
  sum_list_with (λ s', 2 ^ S (depth s') - 1) successors < 2 ^ S (depth s) - 1.
Proof.
  intros Hlen Hdepth.
  assert (Hone : ∀ s', s' ∈ successors → 2 ^ S (depth s') - 1 ≤ 2 ^ depth s - 1).
  { intros s' Hs'. apply Hdepth in Hs'.
    pose proof (Nat.pow_le_mono_r 2 (S (depth s')) (depth s)). lia. }
  assert (1 ≤ 2 ^ depth s) by (apply Nat.neq_0_lt_0, Nat.pow_nonzero; lia).
  change (2 ^ S (depth s)) with (2 * 2 ^ depth s).
  destruct successors as [|a [|b [|]]]; simpl in *; try lia.
  - pose proof (Hone a ltac:(by left)). simpl in *. lia.
  - pose proof (Hone a ltac:(by left)).
    pose proof (Hone b ltac:(by right; left)). simpl in *. lia.
Qed.

(** A search over a tree of bounded depth and branching returns: either a
    goal state, or nothing when no state of the container leads to one. *)
Lemma uninformed_search_loop_complete kind fuel container count :
  Forall good container →
  sum_list_with (λ s, 2 ^ S (depth s) - 1) container < fuel →
  ∃ found visited,
    util.uninformed_search_loop fuel space kind container count
      = Ok (found, visited)
    ∧ visited ≤ count + sum_list_with (λ s, 2 ^ S (depth s) - 1) container
    ∧ match found with
      | Some s => good s ∧ util.is_goal_state space s = Ok true
      | None => ∀ s, s ∈ container → ¬ P s
      end.
Proof.
  revert container count.
  induction fuel as [|fuel IH]; intros container count Hgood Hfuel; [lia|].
  simpl. destruct container as [|s container].
  { exists None, count. split; [done|]. split; [simpl; lia|].
    by intros ? ?%elem_of_nil. }
  apply Forall_cons in Hgood as [Hs Hgood].
  destruct (goal_total s Hs) as [[|] Hgoal]; rewrite Hgoal; simpl.
  { exists (Some s), (S count). split; [done|]. split; [|done].
    assert (1 ≤ 2 ^ depth s) by (apply Nat.neq_0_lt_0, Nat.pow_nonzero; lia).
    simpl in *. lia. }
  destruct (successors_total s Hs Hgoal)
    as (successors & -> & Hlen & Hsucc & HP). simpl.
  pose proof (weight_successors s successors Hlen (λ s' H, proj2 (Hsucc s' H)))
    as Hw.
  pose proof (foldl_put_perm kind container successors) as Hperm.
  destruct (IH (foldl (util.put kind) container successors) (S count))
    as (found & visited & -> & Hvisited & Hfound).
  - rewrite Hperm. apply Forall_app. split; [|done].
    apply Forall_forall. intros s' Hs'. by apply Hsucc.
  - rewrite Hperm, sum_list_with_app. simpl in *. lia.
  - exists found, visited. split; [done|]. split.
    + rewrite Hperm, sum_list_with_app in Hvisited. simpl in *. lia.
    + destruct found as [s'|]; [done|].
      intros s' [->|Hs']%elem_of_cons.
      * intros (s'' & Hs'' & HP'')%HP. apply (Hfound s''); [|done].
        rewrite Hperm, elem_of_app. auto.
      * apply Hfound. rewrite Hperm, elem_of_app. auto.
Qed.
End uninformed_search_facts.

Section search_space_facts.
Implicit Types (sent : Cnf) (state : search.State) (lit : Literal).
Implicit Types (model : gmap string bool) (sym : string).

Lemma sorted_strings_perm (ss : list string) : sorted_strings ss ≡ₚ ss.
Proof. apply merge_sort_Permutation. Qed.

Lemma elem_of_signature sent sym :
  sym ∈ search.signature (search.init sent) ↔ sym ∈ Cnf_get_symbols sent.
Proof. simpl. by rewrite sorted_strings_perm, elem_of_elements. Qed.

Lemma NoDup_signature sent : NoDup (search.signature (search.init sent)).
Proof. simpl. rewrite sorted_strings_perm. apply NoDup_elements. Qed.

Lemma model_of_polarities state :
  search.model_of state = _get_literal_polarities (mkClause state).
Proof. done. Qed.

Lemma model_of_is_Some state sym :
  is_Some (search.model_of state !! sym) ↔ sym ∈ symbol <$> state.
Proof.
  rewrite model_of_polarities. split.
  - intros [p Hp]. apply polarities_lookup_Some in Hp.
    apply list_elem_of_fmap. by exists (mkLiteral sym p).
  - intros (lit & -> & Hin)%list_elem_of_fmap.
    apply polarities_is_Some, elem_of_Clause_get_symbols. eauto.
Qed.

Lemma NoDup_fmap_inj {A B} (f : A → B) (l : list A) (x y : A) :
  NoDup (f <$> l) → x ∈ l → y ∈ l → f x = f y → x = y.
Proof.
  induction l as [|a l IH]; simpl; [by intros _ ?%elem_of_nil|].
  intros [Hnot Hnd]%NoDup_cons [->|Hx]%elem_of_cons [->|Hy]%elem_of_cons Hf;
    auto.
  - destruct Hnot. rewrite Hf. by apply list_elem_of_fmap_2.
  - destruct Hnot. rewrite <-Hf. by apply list_elem_of_fmap_2.
Qed.

Lemma model_of_lookup state lit :
  NoDup (symbol <$> state) → lit ∈ state →
  search.model_of state !! symbol lit = Some (polarity lit).
Proof.
  intros Hnd Hin. rewrite model_of_polarities.
  apply polarities_consistent; [|done].
  intros (sym & H1 & H2). simpl in *.
  by pose proof (NoDup_fmap_inj symbol state _ _ Hnd H1 H2 eq_refl).
Qed.

(** [check_model] reads the model only at the symbols of the sentence. *)
Lemma check_against_symbols_ext model1 model2 C syms :
  (∀ sym, sym ∈ syms → model1 !! sym = model2 !! sym) →
  check_against_symbols model1 C syms = check_against_symbols model2 C syms.
Proof.
  induction syms as [|sym syms IH]; intros Hagree; simpl; [done|].
  rewrite <-(Hagree sym) by by left.
  destruct (model1 !! sym) as [mv|]; [|done].
  destruct (Clause_getitem C sym) as [cv| |]; simpl; try done.
  destruct (_ || _); [done|]. apply IH. intros s ?. apply Hagree. by right.
Qed.

Lemma check_model_ext sent model1 model2 :
  (∀ sym, sym ∈ Cnf_get_symbols sent → model1 !! sym = model2 !! sym) →
  check_model sent model1 = check_model sent model2.
Proof.
  intros Hagree. unfold check_model.
  assert (∀ cls, (∀ C, C ∈ cls → C ∈ clauses sent) →
    check_model_clauses model1 cls = check_model_clauses model2 cls) as Hcls.
  { induction cls as [|C cls IH]; intros Hsub; simpl; [done|].
    unfold check_against_clause.
    rewrite (check_against_symbols_ext model1 model2).
    - destruct (check_against_symbols model2 C _) as [[|]| |]; simpl; try done.
      apply IH. intros C' ?. apply Hsub. by right.
    - intros sym Hsym%elem_of_elements. apply Hagree, elem_of_Cnf_get_symbols.
      exists C. split; [apply Hsub; by left|done]. }
  by apply Hcls.
Qed.

(** The partition of [DpllSearchSpace.__init__]. *)
Lemma foldl_partition_step cls units0 regulars0 :
  ∃ units regulars,
    foldl dpll.partition_step (units0, regulars0) cls = (units, regulars)
    ∧ (∀ y, y ∈ units → y ∈ units0 ∨ (y ∈ cls ∧ Clause_len y = 1))
    ∧ (∀ y, y ∈ regulars → y ∈ regulars0 ∨ y ∈ cls)
    ∧ (∀ y, set_in y units0 = true ∨ set_in y regulars0 = true ∨ y ∈ cls →
         set_in y units = true ∨ set_in y regulars = true).
Proof.
  revert units0 regulars0. induction cls as [|C cls IH]; intros units0 regulars0.
  { exists units0, regulars0. simpl. split; [done|]. split; [auto|]. split; [auto|].
    intros y [?|[?|[]%elem_of_nil]]; auto. }
  simpl. destruct (Clause_len C =? 1)%nat eqn:Hlen.
  - destruct (IH (set_add units0 C) regulars0)
      as (units & regulars & -> & Hu & Hr & Hall).
    exists units, regulars. split; [done|]. split; [|split].
    + intros y [[?|[-> _]]%elem_of_set_add|[? ?]]%Hu; auto.
      * right. split; [by left|by apply Nat.eqb_eq].
      * right. split; [by right|done].
    + intros y [?|?]%Hr; auto. right. by right.
    + intros y Hy. apply Hall. rewrite set_in_set_add.
      destruct Hy as [->|[?|[->|?]%elem_of_cons]]; auto.
      left. by rewrite same_element_refl, orb_true_r.
  - destruct (IH units0 (set_add regulars0 C))
      as (units & regulars & -> & Hu & Hr & Hall).
    exists units, regulars. split; [done|]. split; [|split].
    + intros y [?|[? ?]]%Hu; auto. right. split; [by right|done].
    + intros y [[?|[-> _]]%elem_of_set_add|?]%Hr; auto.
      * right. by left.
      * right. by right.
    + intros y Hy. apply Hall. rewrite set_in_set_add.
      destruct Hy as [?|[->|[->|?]%elem_of_cons]]; auto.
      right; left. by rewrite same_element_refl, orb_true_r.
Qed.

Lemma partition_equivalent model cls units regulars :
  foldl dpll.partition_step ([], []) cls = (units, regulars) →
  (satisfies_all model (units ++ regulars) ↔ satisfies_all model cls)
  ∧ (∀ y, y ∈ units → Clause_len y = 1)
  ∧ (∀ lit, lit ∈ all_literals (units ++ regulars) → lit ∈ all_literals cls).
Proof.
  intros Hfold.
  destruct (foldl_partition_step cls [] [])
    as (units' & regulars' & Hf & Hu & Hr & Hall).
  rewrite Hfold in Hf. injection Hf as <- <-.
  assert (Hsub : ∀ y, y ∈ units ++ regulars → y ∈ cls).
  { intros y [[[]%elem_of_nil|[? _]]%Hu|[[]%elem_of_nil|?]%Hr]%elem_of_app; done. }
  split; [|split].
  - split.
    + intros Hsat C HC. destruct (Hall C) as [Hin|Hin]; [auto|..].
      * apply (satisfies_set_in model (units ++ regulars)); [done|].
        by rewrite set_in_app, Hin.
      * apply (satisfies_set_in model (units ++ regulars)); [done|].
        by rewrite set_in_app, Hin, orb_true_r.
    + intros Hsat y Hy. by apply Hsat, Hsub.
  - intros y [[]%elem_of_nil|[_ ?]]%Hu. done.
  - intros lit (y & Hy & ?)%elem_of_all_literals.
    apply elem_of_all_literals. exists y. auto.
Qed.
End search_space_facts.

Section dpll_successors.
Implicit Types (state : search.State) (lit : Literal) (y C : Clause).
Implicit Types (model : gmap string bool) (sym : string).

Lemma all_literals_app (s t : list Clause) :
  all_literals (s ++ t) = all_literals s ++ all_literals t.
Proof. unfold all_literals. apply bind_app. Qed.

Lemma all_literals_set_add_length (s : list Clause) (x : Clause) :
  length (all_literals (set_add s x))
  ≤ length (all_literals s) + length (literals x).
Proof.
  unfold set_add. destruct (set_in x s); [lia|].
  rewrite all_literals_app, length_app. unfold all_literals at 2. simpl.
  rewrite app_nil_r. lia.
Qed.

Lemma all_literals_foldl_set_add_length (t s : list Clause) :
  length (all_literals (foldl set_add s t))
  ≤ length (all_literals s) + length (all_literals t).
Proof.
  revert s. induction t as [|x t IH]; intros s; simpl; [lia|].
  specialize (IH (set_add s x)).
  pose proof (all_literals_set_add_length s x).
  change (all_literals (x :: t)) with (literals x ++ all_literals t).
  rewrite length_app. lia.
Qed.

Lemma all_literals_units_length state :
  length (all_literals ((λ lit, mkClause [lit]) <$> state)) = length state.
Proof.
  induction state as [|lit state IH]; [done|].
  rewrite fmap_cons. unfold all_literals in *. rewrite bind_cons. simpl.
  by rewrite IH.
Qed.

Lemma find_next_literal_spec next_var (ucs : list Clause) (acc : option Literal) :
  (∀ y, y ∈ ucs → Clause_len y = 1) →
  ∃ found,
    dpll.find_next_literal next_var ucs acc = Ok found
    ∧ (found = acc
       ∨ ∃ lit, found = Some lit ∧ mkClause [lit] ∈ ucs ∧ symbol lit = next_var).
Proof.
  revert acc. induction ucs as [|uc ucs IH]; intros acc Hlen; simpl.
  { exists acc. split; [done|by left]. }
  destruct (Clause_len_1 uc) as (lit0 & ->); [apply Hlen; by left|]. simpl.
  unfold get_symbol.
  destruct (String.eqb_spec next_var (symbol lit0)) as [->|Hne].
  - destruct (IH (Some lit0)) as (found & -> & Hfound);
      [intros; apply Hlen; by right|].
    exists found. split; [done|]. right. destruct Hfound as [->|(lit & -> & ? & ?)].
    + exists lit0. split; [done|]. split; [by left|done].
    + exists lit. split; [done|]. split; [by right|done].
  - destruct (IH acc) as (found & -> & Hfound);
      [intros; apply Hlen; by right|].
    exists found. split; [done|]. destruct Hfound as [->|(lit & -> & ? & ?)]; [by left|].
    right. exists lit. split; [done|]. split; [by right|done].
Qed.
End dpll_successors.

Section dpll_search.
Context (sent : Cnf) (U0 G0 : list Clause).
Hypothesis base_equivalent :
  ∀ model, satisfies_all model (U0 ++ G0) ↔ satisfies_all model (clauses sent).
Hypothesis base_units : ∀ y, y ∈ U0 → Clause_len y = 1.

Implicit Types (state : search.State) (lit : Literal) (y C : Clause).
Implicit Types (model : gmap string bool) (sym : string).

#[local] Abbreviation sig := (search.signature (search.init sent)).
#[local] Abbreviation space :=
  (dpll.mkDpllSearchSpace (search.init sent) U0 G0).
#[local] Abbreviation good := (assigns_prefix sig).

Lemma good_length state : good state → length state ≤ length sig.
Proof.
  intros Hgood. apply (f_equal length) in Hgood.
  rewrite length_fmap, length_take in Hgood. lia.
Qed.

Lemma good_NoDup state : good state → NoDup (symbol <$> state).
Proof.
  unfold assigns_prefix. intros ->.
  eapply sublist_NoDup; [apply NoDup_signature|apply sublist_take].
Qed.

Lemma good_snoc state lit :
  good state → sig !! length state = Some (symbol lit) →
  good (state ++ [lit]).
Proof.
  unfold assigns_prefix. intros Hgood Hsym.
  rewrite fmap_app, length_app, Hgood. change (length [lit]) with 1.
  by rewrite Nat.add_1_r, (take_S_r _ _ _ Hsym).
Qed.

Lemma good_complete state sym :
  good state → length state = length sig →
  sym ∈ symbol <$> state ↔ sym ∈ Cnf_get_symbols sent.
Proof.
  unfold assigns_prefix. intros -> Hlen. rewrite take_ge by lia.
  apply elem_of_signature.
Qed.

(** The goal test on a state of the search. *)
Lemma is_goal_state_good state :
  good state →
  ∃ b, search.is_goal_state (search.init sent) state = Ok b
       ∧ (b = true → length state = length sig
                     ∧ check_model sent (search.model_of state) = Ok true)
       ∧ (∀ model, length state = length sig →
            covers model (Cnf_get_symbols sent) →
            check_model sent model = Ok true →
            Forall (holds model) state → b = true).
Proof.
  intros Hgood. pose proof (good_length state Hgood) as Hle.
  unfold search.is_goal_state.
  destruct (length state <? length sig)%nat eqn:Hlt.
  { apply Nat.ltb_lt in Hlt. exists false.
    split; [done|]. split; [done|]. intros; lia. }
  apply Nat.ltb_ge in Hlt. assert (length state = length sig) as Hlen by lia.
  assert (covers (search.model_of state) (Cnf_get_symbols sent)) as Hcov.
  { intros sym Hsym. apply model_of_is_Some. by apply good_complete. }
  destruct (check_model_spec sent _ Hcov) as (b & Hb & _).
  exists b. simpl. rewrite Hb. split; [done|]. split.
  - by intros ->.
  - intros model _ Hcovm Hcheck Hholds.
    rewrite (check_model_ext sent (search.model_of state) model) in Hb.
    + congruence.
    + intros sym Hsym. apply (good_complete state sym Hgood Hlen) in Hsym.
      apply list_elem_of_fmap in Hsym as (lit & -> & Hin).
      rewrite (model_of_lookup state lit (good_NoDup state Hgood) Hin).
      symmetry. by apply (proj1 (Forall_forall _ _) Hholds).
Qed.

(** The successors of a state that is not complete. *)
Lemma get_successors_good fuel state :
  length (all_literals (U0 ++ G0)) + length sig < fuel →
  good state → length state < length sig →
  ∃ successors,
    dpll.get_successors fuel space state = Ok successors
    ∧ length successors ≤ 2
    ∧ (∀ s', s' ∈ successors → good s' ∧ length s' = S (length state))
    ∧ (∀ model, covers model (Cnf_get_symbols sent) →
         satisfies_all model (clauses sent) → Forall (holds model) state →
         ∃ s', s' ∈ successors ∧ Forall (holds model) s').
Proof.
  intros Hfuel Hgood Hlt. unfold dpll.get_successors.
  cbn [dpll.super dpll.unit_clauses dpll.regular_clauses].
  rewrite (proj2 (Nat.eqb_neq _ _)) by lia.
  set (units := set_union U0 (set_of ((λ lit, mkClause [lit]) <$> state))).
  destruct (unit_resolution_spec units G0)
    as (U' & G' & Hres & Heq & _ & _ & _ & Hlen' & _ & _).
  assert (Hunits : ∀ y, y ∈ units →
            y ∈ U0 ∨ ∃ lit, lit ∈ state ∧ y = mkClause [lit]).
  { intros y [?|Hy%elem_of_set_of]%elem_of_foldl_set_add; [auto|].
    apply list_elem_of_fmap in Hy as (lit & -> & ?). eauto. }
  assert (Hunits_sat : ∀ model, satisfies_all model U0 →
            Forall (holds model) state → satisfies_all model units).
  { intros model HU0 Hst y [?|(lit & Hin & ->)]%Hunits; [auto|].
    apply satisfies_unit. by apply (proj1 (Forall_forall _ _) Hst). }
  rewrite Hres.
  2:{ rewrite all_literals_app, length_app.
      assert (length (all_literals units)
              ≤ length (all_literals U0) + length state) as H1.
      { etrans; [apply all_literals_foldl_set_add_length|].
        apply Nat.add_le_mono_l.
        etrans; [apply all_literals_foldl_set_add_length|].
        by rewrite all_literals_units_length. }
      rewrite all_literals_app, length_app in Hfuel. lia. }
  cbn [bind]. change (c "FALSE") with (Ok (mkClause [])). cbn [bind].
  destruct (set_in (mkClause []) G') eqn:Hfalse.
  { exists []. split; [done|]. split; [simpl; lia|]. split.
    - by intros ? ?%elem_of_nil.
    - intros model _ Hsat Hst. exfalso.
      apply set_in_empty in Hfalse.
      assert (satisfies_all model (U' ++ G')) as Hs.
      { apply Heq, satisfies_all_app. apply base_equivalent, satisfies_all_app in Hsat.
        destruct Hsat. split; [|done]. by apply Hunits_sat. }
      apply satisfies_all_app in Hs as [_ Hs].
      destruct (Hs _ Hfalse) as (lit & []%elem_of_nil & _). }
  destruct (lookup_lt_is_Some_2 sig (length state) Hlt) as [next_var Hvar].
  rewrite Hvar.
  destruct (find_next_literal_spec next_var U' None) as (found & -> & Hfound).
  { intros y [[?|(lit & _ & ->)]%Hunits|?]%Hlen'; auto. }
  cbn [bind]. destruct Hfound as [->|(lit & -> & Hin & Hsym)].
  - exists [state ++ [mkLiteral next_var false];
            state ++ [mkLiteral next_var true]].
    split; [done|]. split; [simpl; lia|]. split.
    + intros s' [->|[->|[]%elem_of_nil]%elem_of_cons]%elem_of_cons;
        (split; [by apply good_snoc|rewrite length_app; simpl; lia]).
    + intros model Hcov _ Hst.
      destruct (Hcov next_var) as [b Hb].
      { apply elem_of_signature, list_elem_of_lookup. eauto. }
      exists (state ++ [mkLiteral next_var b]). split.
      * destruct b; [right; left|left]; done.
      * apply Forall_app. split; [done|]. by apply Forall_singleton.
  - exists [state ++ [lit]]. split; [done|]. split; [simpl; lia|]. split.
    + intros s' ->%list_elem_of_singleton.
      split; [apply good_snoc; congruence|rewrite length_app; simpl; lia].
    + intros model _ Hsat Hst. exists (state ++ [lit]). split; [by left|].
      apply Forall_app. split; [done|]. apply Forall_singleton.
      apply satisfies_unit.
      assert (satisfies_all model (U' ++ G')) as Hs.
      { apply Heq, satisfies_all_app. apply base_equivalent, satisfies_all_app in Hsat.
        destruct Hsat. split; [|done]. by apply Hunits_sat. }
      apply satisfies_all_app in Hs as [Hs _]. by apply Hs.
Qed.

(** The depth-first search over the DPLL space. *)
Lemma dfs_dpll_space fuel :
  length (all_literals (U0 ++ G0)) + length sig < fuel →
  2 ^ S (length sig) - 1 < fuel →
  ∃ found visited,
    util.dfs fuel (dpll.as_space fuel space) = Ok (found, visited)
    ∧ match found with
      | Some state =>
          good state ∧ length state = length sig
          ∧ check_model sent (search.model_of state) = Ok true
      | None =>
          ∀ model, covers model (Cnf_get_symbols sent) →
                   check_model sent model ≠ Ok true
      end.
Proof.
  intros Hfuel1 Hfuel2.
  pose (P := λ state : search.State,
    ∃ model, covers model (Cnf_get_symbols sent)
             ∧ check_model sent model = Ok true
             ∧ Forall (holds model) state).
  destruct (uninformed_search_loop_complete (dpll.as_space fuel space)
              good (λ state, length sig - length state) P)
    with (kind := util.LifoQueue) (fuel := fuel)
         (container := [@nil Literal]) (count := 0)
    as (found & visited & Hrun & _ & Hfound).
  - intros s Hs. destruct (is_goal_state_good s Hs) as (b & Hb & _). eauto.
  - intros s Hs Hgoal. pose proof (good_length s Hs) as Hle.
    destruct (is_goal_state_good s Hs) as (b & Hb & _ & Hcomplete).
    cbn [dpll.as_space util.is_goal_state dpll.super] in Hgoal.
    rewrite Hgoal in Hb. injection Hb as <-.
    destruct (decide (length s = length sig)) as [Hlen|Hlen].
    + exists []. cbn [dpll.as_space util.get_successors].
      unfold dpll.get_successors. cbn [dpll.super].
      rewrite (proj2 (Nat.eqb_eq _ _) Hlen).
      split; [done|]. split; [simpl; lia|]. split.
      * by intros ? ?%elem_of_nil.
      * intros (model & Hcov & Hcheck & Hholds).
        by specialize (Hcomplete model Hlen Hcov Hcheck Hholds).
    + destruct (get_successors_good fuel s Hfuel1 Hs)
        as (successors & Hsucc & Hlen2 & Hgood & Hext); [lia|].
      exists successors. split; [done|]. split; [done|]. split.
      * intros s' Hs'. destruct (Hgood s' Hs') as [? ->]. split; [done|lia].
      * intros (model & Hcov & Hcheck & Hholds).
        destruct (Hext model Hcov) as (s' & Hs' & Hholds'); [|done|].
        { by apply check_model_true_satisfies. }
        exists s'. split; [done|]. by exists model.
  - apply Forall_singleton. done.
  - simpl. rewrite Nat.sub_0_r. simpl in Hfuel2. lia.
  - exists found, visited. split; [done|].
    destruct found as [state|].
    + destruct Hfound as [Hgood Hgoal]. split; [done|].
      destruct (is_goal_state_good state Hgood) as (b & Hb & Htrue & _).
      cbn [dpll.as_space util.is_goal_state dpll.super] in Hgoal.
      rewrite Hgoal in Hb. injection Hb as <-. by apply Htrue.
    + intros model Hcov Hcheck. apply (Hfound []); [by left|].
      exists model. split; [done|]. split; [done|]. constructor.
Qed.
End dpll_search.

Section fuel_monotone.
Implicit Types (fuel : nat) (U G : list Clause).

Lemma unit_resolution_loop_mono fuel fuel' U G r :
  fuel ≤ fuel' →
  dpll.unit_resolution_loop fuel U G = Ok r →
  dpll.unit_resolution_loop fuel' U G = Ok r.
Proof.
  revert fuel' U G. induction fuel as [|fuel IH]; intros fuel' U G Hle; [done|].
  destruct fuel' as [|fuel']; [lia|]. simpl.
  destruct (dpll.resolve_round U G) as [nu nc].
  destruct (_ =? _)%nat; [done|]. apply IH. lia.
Qed.

Lemma unit_resolution_mono fuel fuel' U G r :
  fuel ≤ fuel' →
  dpll.unit_resolution fuel U G = Ok r → dpll.unit_resolution fuel' U G = Ok r.
Proof. apply unit_resolution_loop_mono. Qed.

Lemma get_successors_mono fuel fuel' space state r :
  fuel ≤ fuel' →
  dpll.get_successors fuel space state = Ok r →
  dpll.get_successors fuel' space state = Ok r.
Proof.
  intros Hle. unfold dpll.get_successors.
  destruct (_ =? _)%nat; [done|].
  destruct (dpll.unit_resolution fuel _ _) as [res| |] eqn:Hres; try done.
  by rewrite (unit_resolution_mono fuel fuel' _ _ res Hle Hres).
Qed.

Lemma uninformed_search_loop_mono {State} (space space' : util.SearchSpace State)
    kind fuel fuel' container count r :
  (∀ s, util.is_goal_state space' s = util.is_goal_state space s) →
  (∀ s succ, util.get_successors space s = Ok succ →
             util.get_successors space' s = Ok succ) →
  fuel ≤ fuel' →
  util.uninformed_search_loop fuel space kind container count = Ok r →
  util.uninformed_search_loop fuel' space' kind container count = Ok r.
Proof.
  intros Hgoal Hsucc. revert fuel' container count.
  induction fuel as [|fuel IH]; intros fuel' container count Hle; [done|].
  destruct fuel' as [|fuel']; [lia|]. simpl.
  destruct container as [|s container]; [done|]. rewrite Hgoal.
  destruct (util.is_goal_state space s) as [[|]| |]; simpl; try done.
  destruct (util.get_successors space s) as [succ| |] eqn:E; simpl; try done.
  rewrite (Hsucc s succ E). simpl. apply IH. lia.
Qed.

(** More fuel never changes an answer of [dpll]. *)
Lemma dpll_mono fuel fuel' sent r :
  fuel ≤ fuel' → dpll.dpll fuel sent = Ok r → dpll.dpll fuel' sent = Ok r.
Proof.
  intros Hle. unfold dpll.dpll, dpll.init.
  destruct (foldl dpll.partition_step _ _) as [units regulars].
  destruct (dpll.unit_resolution fuel units regulars) as [[U0 G0]| |] eqn:Hres;
    try done.
  rewrite (unit_resolution_mono fuel fuel' _ _ _ Hle Hres). cbn [bind].
  unfold util.dfs, util.uninformed_search.
  destruct (util.uninformed_search_loop fuel _ _ _ _) as [res| |] eqn:Hrun;
    try done.
  erewrite (uninformed_search_loop_mono _ _ _ fuel fuel'); [done| | |done|done].
  - done.
  - intros s succ. by apply get_successors_mono.
Qed.
End fuel_monotone.

(** X4. [dpll] returns for every sentence, given enough fuel.  When it returns
    a model, the model assigns exactly the symbols of the sentence and
    passes [check_model]; it returns [None] exactly when no assignment of
    the symbols passes [check_model]. *)
Theorem dpll_total_correct (sent : Cnf) :
  ∃ N result,
    (∀ fuel, N ≤ fuel → dpll.dpll fuel sent = Ok result)
    ∧ match result with
      | Some model =>
          dom model = Cnf_get_symbols sent
          ∧ check_model sent model = Ok true
      | None =>
          ∀ model, covers model (Cnf_get_symbols sent) →
                   check_model sent model ≠ Ok true
      end.
Proof.
  destruct (foldl dpll.partition_step ([], []) (clauses sent))
    as [units regulars] eqn:Hpart.
  destruct (unit_resolution_spec units regulars)
    as (U0 & G0 & Hres & Heq & _ & _ & _ & Hlen & _ & _).
  assert (Hbase : ∀ model,
            satisfies_all model (U0 ++ G0) ↔ satisfies_all model (clauses sent)).
  { intros model. rewrite <-Heq.
    apply (partition_equivalent model _ _ _ Hpart). }
  assert (Hunits : ∀ y, y ∈ U0 → Clause_len y = 1).
  { intros y [?|?]%Hlen; [|done].
    by apply (partition_equivalent ∅ _ _ _ Hpart). }
  set (n := length (search.signature (search.init sent))).
  set (N := S (length (all_literals (units ++ regulars))
              + length (all_literals (U0 ++ G0)) + n + 2 ^ S n)).
  destruct (dfs_dpll_space sent U0 G0 Hbase Hunits N)
    as (found & visited & Hrun & Hfound); [unfold N, n; lia..|].
  exists N, (search.model_of <$> found).
  assert (dpll.dpll N sent = Ok (search.model_of <$> found)) as HN.
  { unfold dpll.dpll, dpll.init. rewrite Hpart, Hres by (unfold N; lia).
    cbn [bind]. by rewrite Hrun. }
  split; [intros fuel Hle; by apply (dpll_mono N)|].
  destruct found as [state|]; simpl; [|done].
  destruct Hfound as (Hgood & Hlen' & Hcheck). split; [|done].
  apply set_eq. intros sym.
  rewrite elem_of_dom, model_of_is_Some. by apply good_complete.
Qed.

(** X1. [unit_resolution] returns for every pair of clause lists, after at most
    as many rounds as the input has literal occurrences plus one, and the
    clauses it returns hold in exactly the models of the clauses it was
    given. *)
Theorem unit_resolution_total_equivalent (U G : list Clause) :
  ∃ U' G',
    (∀ fuel, length (all_literals (U ++ G)) < fuel →
       dpll.unit_resolution fuel U G = Ok (U', G'))
    ∧ (∀ model : gmap string bool,
         satisfies_all model (U ++ G) ↔ satisfies_all model (U' ++ G')).
Proof.
  destruct (unit_resolution_spec U G) as (U' & G' & Hres & Heq & _).
  by exists U', G'.
Qed.

(** X2. The shape of what [unit_resolution] returns: every given unit clause is
    still a unit clause of the result, every other returned unit clause has
    one literal, no returned regular clause has exactly one literal, no
    clause is returned twice, and every literal of the result occurs in the
    input. *)
Theorem unit_resolution_result_shape
    (fuel : nat) (U G U' G' : list Clause) :
  dpll.unit_resolution fuel U G = Ok (U', G') →
  (∀ x, x ∈ U → set_in x U' = true)
  ∧ (∀ y, y ∈ U' → y ∈ U ∨ Clause_len y = 1)
  ∧ (∀ y, y ∈ G' → Clause_len y ≠ 1)
  ∧ is_set U' ∧ is_set G'
  ∧ (∀ lit, lit ∈ all_literals (U' ++ G') → lit ∈ all_literals (U ++ G)).
Proof.
  intros Hrun.
  destruct (unit_resolution_spec U G)
    as (U1 & G1 & Hres & _ & HsU & HsG & Hin & Hlen & Hreg & Hlits).
  set (big := fuel `max` S (length (all_literals (U ++ G)))).
  pose proof (unit_resolution_mono fuel big U G _ ltac:(lia) Hrun) as H1.
  rewrite Hres in H1 by lia. injection H1 as <- <-.
  repeat split; try done. intros x Hx. by apply Hin, set_in_elem.
Qed.

Lemma unit_resolution_result_shape_witness :
  let a := mkClause [mkLiteral "A" true] in
  let b := mkClause [mkLiteral "B" true] in
  let ab := mkClause [mkLiteral "A" false; mkLiteral "B" true] in
  dpll.unit_resolution 3 [a] [ab] = Ok ([a; b], [])
  ∧ (∀ x, x ∈ [a] → set_in x [a; b] = true).
Proof.
  intros a b ab. split; [by vm_compute|].
  apply (unit_resolution_result_shape 3 [a] [ab] [a; b] []). by vm_compute.
Defined.

(** X3. Whatever the container, a state that [uninformed_search] returns
    passed [is_goal_state], and at least one state was visited. *)
Theorem uninformed_search_returns_goal {State : Type}
    (space : util.SearchSpace State) (kind : util.container_kind)
    (fuel : nat) (found : State) (visited : nat) :
  util.uninformed_search fuel space kind = Ok (Some found, visited) →
  util.is_goal_state space found = Ok true ∧ 0 < visited.
Proof. apply uninformed_search_loop_goal. Qed.

Lemma uninformed_search_returns_goal_witness :
  let space := search.as_space (search.init (Cnf_init [mkClause [mkLiteral "A" true]])) in
  util.uninformed_search 5 space util.Queue
    = Ok (Some [mkLiteral "A" true], 2)
  ∧ util.is_goal_state space [mkLiteral "A" true] = Ok true ∧ 0 < 2.
Proof.
  intros space. split; [by vm_compute|].
  apply (uninformed_search_returns_goal space util.Queue 5). by vm_compute.
Defined.

Section check_model_sound.
Implicit Types (model : gmap string bool) (C : Clause) (sent : Cnf).

Lemma check_against_symbols_true model C syms :
  check_against_symbols model C syms = Ok true → passes model C.
Proof.
  induction syms as [|sym syms IH]; simpl; [done|].
  destruct (model !! sym) as [mv|] eqn:Hmv; [|done].
  unfold Clause_getitem.
  destruct (_get_literal_polarities C !! sym) as [cv|] eqn:Hcv; simpl; [|done].
  destruct (negb mv && negb cv || mv && cv) eqn:E; [|done].
  intros _. exists sym, mv. split; [done|]. rewrite Hcv. f_equal.
  by destruct mv, cv.
Qed.

Lemma check_model_clauses_true model cls :
  check_model_clauses model cls = Ok true → ∀ C, C ∈ cls → passes model C.
Proof.
  induction cls as [|C cls IH]; simpl; [by intros _ ? ?%elem_of_nil|].
  destruct (check_against_clause model C) as [[|]| |] eqn:E; simpl; try done.
  intros Hrest C' [->|?]%elem_of_cons; [|by apply IH].
  by apply check_against_symbols_true in E.
Qed.
End check_model_sound.

(** X5. When [check_model] returns [True], every clause of the sentence
    contains a literal whose polarity is the value the model gives to its
    symbol, whether or not the model assigns the other symbols. *)
Theorem check_model_sound (sent : Cnf) (model : gmap string bool) :
  check_model sent model = Ok true → satisfies_all model (clauses sent).
Proof.
  intros Hcheck C HC. apply passes_satisfies.
  by apply (check_model_clauses_true model (clauses sent)).
Qed.

Lemma check_model_sound_witness :
  let sent := Cnf_init [mkClause [mkLiteral "A" true; mkLiteral "B" false]] in
  let model : gmap string bool := {[ "A" := true ]} in
  check_model sent model = Ok true ∧ satisfies_all model (clauses sent).
Proof.
  intros sent model. split; [by vm_compute|].
  apply (check_model_sound sent model). by vm_compute.
Defined.

(** X6. On a sentence none of whose clauses holds a symbol in both
    polarities, and a model that assigns every symbol of the sentence,
    [check_model] returns without an exception, and returns [True] exactly
    when every clause contains a literal that holds in the model. *)
Theorem check_model_decides (sent : Cnf) (model : gmap string bool) :
  covers model (Cnf_get_symbols sent) →
  (∀ C, C ∈ clauses sent → ¬ tautology C) →
  ∃ b, check_model sent model = Ok b
       ∧ (b = true ↔ satisfies_all model (clauses sent)).
Proof. apply check_model_tautology_free. Qed.

Lemma check_model_decides_witness :
  let sent := Cnf_init [mkClause [mkLiteral "A" true; mkLiteral "B" false]] in
  let model : gmap string bool := {[ "A" := false; "B" := true ]} in
  ∃ b, check_model sent model = Ok b
       ∧ (b = true ↔ satisfies_all model (clauses sent)).
Proof.
  intros sent model. apply (check_model_decides sent model).
  - intros sym (C & HC & Hs)%elem_of_Cnf_get_symbols.
    apply list_elem_of_singleton in HC as ->.
    apply elem_of_Clause_get_symbols in Hs as (lit & Hin & <-).
    simpl in Hin. apply elem_of_cons in Hin as [->|Hin];
      [|apply list_elem_of_singleton in Hin as ->]; by eexists.
  - intros C ->%list_elem_of_singleton (sym & H1 & H2). simpl in *.
    apply elem_of_cons in H1 as [H1|H1];
      [|apply list_elem_of_singleton in H1; done].
    apply elem_of_cons in H2 as [H2|H2]; [done|].
    apply list_elem_of_singleton in H2. congruence.
Defined.

(** X7. [Literal.__lt__] is a strict total order on literals: no literal is
    below itself, the relation is transitive, and two different literals
    are always comparable; [Literal.__eq__] holds exactly between a literal
    and itself, and [negate] is an involution that never returns its
    argument. *)
Theorem Literal_order_and_equality :
  (∀ x, Literal_lt x x = false)
  ∧ (∀ x y z, Literal_lt x y = true → Literal_lt y z = true →
              Literal_lt x z = true)
  ∧ (∀ x y, Literal_lt x y = true ∨ x = y ∨ Literal_lt y x = true)
  ∧ (∀ x y, Literal_eq x y = true ↔ x = y)
  ∧ (∀ x, negate (negate x) = x ∧ Literal_eq (negate x) x = false).
Proof.
  split; [apply Literal_lt_irrefl|]. split; [apply Literal_lt_trans|].
  split; [apply Literal_lt_trichotomy|]. split.
  - intros [sx px] [sy py]. unfold Literal_eq. simpl.
    rewrite andb_true_iff, String.eqb_eq, Bool.eqb_true_iff.
    split; [by intros [-> ->]|by intros [= -> ->]].
  - intros [sx px]. unfold negate, Literal_eq. simpl.
    rewrite negb_involutive. split; [done|].
    rewrite String.eqb_refl. by destruct px.
Qed.

Section logical_reading.
Implicit Types (model : gmap string bool) (sent : Cnf).

(** A model that satisfies the clauses extends to one that assigns every
    symbol. *)
Lemma satisfies_all_extend model sent :
  satisfies_all model (clauses sent) →
  ∃ model', covers model' (Cnf_get_symbols sent)
            ∧ satisfies_all model' (clauses sent).
Proof.
  intros Hsat. exists (model ∪ gset_to_gmap false (Cnf_get_symbols sent)).
  split.
  - intros sym Hsym. destruct (model !! sym) as [b|] eqn:E.
    + exists b. by apply lookup_union_Some_l.
    + exists false. rewrite lookup_union_r by done.
      by apply lookup_gset_to_gmap_Some.
  - intros C HC. destruct (Hsat C HC) as (lit & Hin & Hlit).
    exists lit. split; [done|]. by apply lookup_union_Some_l.
Qed.
End logical_reading.

(** X8. On a sentence none of whose clauses holds a symbol in both
    polarities, [dpll] decides satisfiability: the model it returns
    satisfies every clause, and it returns [None] only if no assignment
    satisfies every clause. *)
Theorem dpll_decides_satisfiability (sent : Cnf) :
  (∀ C, C ∈ clauses sent → ¬ tautology C) →
  ∃ N result,
    (∀ fuel, N ≤ fuel → dpll.dpll fuel sent = Ok result)
    ∧ match result with
      | Some model => satisfies_all model (clauses sent)
      | None => ∀ model, ¬ satisfies_all model (clauses sent)
      end.
Proof.
  intros Htaut.
  destruct (foldl dpll.partition_step ([], []) (clauses sent))
    as [units regulars] eqn:Hpart.
  destruct (unit_resolution_spec units regulars)
    as (U0 & G0 & Hres & Heq & _ & _ & _ & Hlen & _ & _).
  assert (Hbase : ∀ model,
            satisfies_all model (U0 ++ G0) ↔ satisfies_all model (clauses sent)).
  { intros model. rewrite <-Heq.
    apply (partition_equivalent model _ _ _ Hpart). }
  assert (Hunits : ∀ y, y ∈ U0 → Clause_len y = 1).
  { intros y [?|?]%Hlen; [|done].
    by apply (partition_equivalent ∅ _ _ _ Hpart). }
  set (n := length (search.signature (search.init sent))).
  set (N := S (length (all_literals (units ++ regulars))
              + length (all_literals (U0 ++ G0)) + n + 2 ^ S n)).
  destruct (dfs_dpll_space sent U0 G0 Hbase Hunits N)
    as (found & visited & Hrun & Hfound); [unfold N, n; lia..|].
  exists N, (search.model_of <$> found).
  assert (dpll.dpll N sent = Ok (search.model_of <$> found)) as HN.
  { unfold dpll.dpll, dpll.init. rewrite Hpart, Hres by (unfold N; lia).
    cbn [bind]. by rewrite Hrun. }
  split; [intros fuel Hle; by apply (dpll_mono N)|].
  destruct found as [state|]; simpl.
  - destruct Hfound as (_ & _ & Hcheck). intros C HC. apply passes_satisfies. by apply (check_model_clauses_true _ (clauses sent)).
  - intros model (model' & Hcov & Hsat)%satisfies_all_extend.
    destruct (check_model_tautology_free sent model' Hcov Htaut)
      as (b & Hb & Hiff).
    apply (Hfound model' Hcov). rewrite Hb. f_equal. by apply Hiff.
Qed.

Lemma tautologyb_false (C : Clause) : tautologyb C = false → ¬ tautology C.
Proof.
  intros Hb (sym & H1 & H2). apply not_true_iff_false in Hb. apply Hb.
  apply existsb_exists. exists (mkLiteral sym true).
  split; [by apply list_elem_of_In|]. by apply bool_decide_eq_true.
Qed.

Lemma dpll_decides_satisfiability_witness :
  let sent :=
    mkCnf [mkClause [mkLiteral "A" true; mkLiteral "B" true];
           mkClause [mkLiteral "A" false; mkLiteral "C" true];
           mkClause [mkLiteral "B" false; mkLiteral "C" true]] in
  ∃ N result,
    (∀ fuel, N ≤ fuel → dpll.dpll fuel sent = Ok result)
    ∧ match result with
      | Some model => satisfies_all model (clauses sent)
      | None => ∀ model, ¬ satisfies_all model (clauses sent)
      end.
Proof.
  intros sent. apply (dpll_decides_satisfiability sent).
  intros C HC. apply tautologyb_false. revert C HC. apply Forall_forall.
  repeat constructor.
Defined.

Section plain_search.
Context (sent : Cnf).
Implicit Types (state : search.State) (model : gmap string bool).
#[local] Abbreviation sig := (search.signature (search.init sent)).

Lemma search_get_successors_good state :
  assigns_prefix sig state → length state < length sig →
  ∃ next_var,
    sig !! length state = Some next_var
    ∧ search.get_successors (search.init sent) state
      = Ok [state ++ [mkLiteral next_var true];
            state ++ [mkLiteral next_var false]].
Proof.
  intros Hgood Hlt. unfold search.get_successors.
  rewrite (proj2 (Nat.eqb_neq _ _)) by lia.
  destruct (lookup_lt_is_Some_2 sig (length state) Hlt) as [next_var Hvar].
  exists next_var. by rewrite Hvar.
Qed.

(** The search of [search_solver], on either container. *)
Lemma uninformed_search_plain kind fuel :
  2 ^ S (length sig) - 1 < fuel →
  ∃ found visited,
    util.uninformed_search fuel (search.as_space (search.init sent)) kind
      = Ok (found, visited)
    ∧ visited ≤ 2 ^ S (length sig) - 1
    ∧ match found with
      | Some state =>
          assigns_prefix sig state ∧ length state = length sig
          ∧ check_model sent (search.model_of state) = Ok true
      | None =>
          ∀ model, covers model (Cnf_get_symbols sent) →
                   check_model sent model ≠ Ok true
      end.
Proof.
  intros Hfuel.
  pose (P := λ state : search.State,
    ∃ model, covers model (Cnf_get_symbols sent)
             ∧ check_model sent model = Ok true
             ∧ Forall (holds model) state).
  destruct (uninformed_search_loop_complete (search.as_space (search.init sent))
              (assigns_prefix sig) (λ state, length sig - length state) P)
    with (kind := kind) (fuel := fuel)
         (container := [@nil Literal]) (count := 0)
    as (found & visited & Hrun & Hvisited & Hfound).
  - intros s Hs. destruct (is_goal_state_good sent s Hs) as (b & Hb & _). eauto.
  - intros s Hs Hgoal. pose proof (good_length sent s Hs) as Hle.
    destruct (is_goal_state_good sent s Hs) as (b & Hb & _ & Hcomplete).
    cbn [search.as_space util.is_goal_state] in Hgoal.
    rewrite Hgoal in Hb. injection Hb as <-.
    destruct (decide (length s = length sig)) as [Hlen|Hlen].
    + exists []. cbn [search.as_space util.get_successors].
      unfold search.get_successors.
      rewrite (proj2 (Nat.eqb_eq _ _) Hlen).
      split; [done|]. split; [simpl; lia|]. split.
      * by intros ? ?%elem_of_nil.
      * intros (model & Hcov & Hcheck & Hholds).
        by specialize (Hcomplete model Hlen Hcov Hcheck Hholds).
    + destruct (search_get_successors_good s Hs) as (next_var & Hvar & Hsucc);
        [lia|].
      eexists. split; [exact Hsucc|]. split; [simpl; lia|]. split.
      * intros s' [->|[->|[]%elem_of_nil]%elem_of_cons]%elem_of_cons;
          (split; [by apply good_snoc|rewrite length_app; cbn [length]; lia]).
      * intros (model & Hcov & Hcheck & Hholds).
        destruct (Hcov next_var) as [b Hb].
        { apply elem_of_signature, list_elem_of_lookup. eauto. }
        exists (s ++ [mkLiteral next_var b]). split.
        -- destruct b; [left|right; left]; done.
        -- exists model. split; [done|]. split; [done|].
           apply Forall_app. split; [done|]. by apply Forall_singleton.
  - apply Forall_singleton. done.
  - simpl. rewrite Nat.sub_0_r. simpl in Hfuel. lia.
  - exists found, visited. unfold util.uninformed_search.
    assert (util.put kind [] (util.get_start_state
              (search.as_space (search.init sent))) = [@nil Literal]) as ->
      by by destruct kind.
    split; [done|]. split.
    { simpl in Hvisited. rewrite Nat.sub_0_r in Hvisited. simpl. lia. }
    destruct found as [state|].
    + destruct Hfound as [Hgood Hgoal]. split; [done|].
      destruct (is_goal_state_good sent state Hgood) as (b & Hb & Htrue & _).
      cbn [search.as_space util.is_goal_state] in Hgoal.
      rewrite Hgoal in Hb. injection Hb as <-. by apply Htrue.
    + intros model Hcov Hcheck. apply (Hfound []); [by left|].
      exists model. split; [done|]. split; [done|]. constructor.
Qed.
End plain_search.

(** X9. [search_solver] returns on every sentence once the fuel reaches
    [2 ^ (n + 1)] for [n] symbols, after visiting at most [2 ^ (n + 1) - 1]
    states.  A returned model assigns exactly the symbols of the sentence
    and passes [check_model]; [None] is returned exactly when no assignment
    of the symbols passes [check_model]. *)
Theorem search_solver_total_correct (sent : Cnf) :
  let n := length (search.signature (search.init sent)) in
  ∃ result visited,
    (∀ fuel, 2 ^ S n ≤ fuel →
       search.search_solver fuel sent = Ok (result, visited))
    ∧ visited ≤ 2 ^ S n - 1
    ∧ match result with
      | Some model =>
          dom model = Cnf_get_symbols sent
          ∧ check_model sent model = Ok true
      | None =>
          ∀ model, covers model (Cnf_get_symbols sent) →
                   check_model sent model ≠ Ok true
      end.
Proof.
  intros n.
  assert (1 ≤ 2 ^ S n) by (apply Nat.neq_0_lt_0, Nat.pow_nonzero; lia).
  destruct (uninformed_search_plain sent util.LifoQueue (2 ^ S n))
    as (found & visited & Hrun & Hvisited & Hfound); [fold n; lia|].
  exists (search.model_of <$> found), visited.
  split; [|split; [done|]].
  - intros fuel Hle. unfold search.search_solver, util.dfs.
    unfold util.uninformed_search in *.
    by rewrite (uninformed_search_loop_mono _ _ _ (2 ^ S n) fuel _ _ _
                  (λ _, eq_refl) (λ _ _ H, H) Hle Hrun).
  - destruct found as [state|]; simpl; [|done].
    destruct Hfound as (Hgood & Hlen & Hcheck). split; [|done].
    apply set_eq. intros sym.
    rewrite elem_of_dom, model_of_is_Some. by apply good_complete.
Qed.

(** X10. Breadth-first search over the same space finds a satisfying
    assignment under the same conditions as [search_solver]: it returns a
    complete state that passes [check_model], or [None] when no assignment
    of the symbols does. *)
Theorem bfs_total_correct (sent : Cnf) (fuel : nat) :
  let n := length (search.signature (search.init sent)) in
  2 ^ S n ≤ fuel →
  ∃ found visited,
    util.bfs fuel (search.as_space (search.init sent)) = Ok (found, visited)
    ∧ match found with
      | Some state =>
          length state = n
          ∧ check_model sent (search.model_of state) = Ok true
      | None =>
          ∀ model, covers model (Cnf_get_symbols sent) →
                   check_model sent model ≠ Ok true
      end.
Proof.
  intros n Hfuel.
  assert (1 ≤ 2 ^ S n) by (apply Nat.neq_0_lt_0, Nat.pow_nonzero; lia).
  destruct (uninformed_search_plain sent util.Queue fuel)
    as (found & visited & Hrun & _ & Hfound); [fold n; lia|].
  exists found, visited. split; [done|].
  destruct found as [state|]; [|done]. by destruct Hfound as (_ & ? & ?).
Qed.

Lemma bfs_total_correct_witness :
  let sent := mkCnf [mkClause [mkLiteral "A" true; mkLiteral "B" false]] in
  ∃ found visited,
    util.bfs 8 (search.as_space (search.init sent)) = Ok (found, visited)
    ∧ match found with
      | Some state =>
          length state = 2
          ∧ check_model sent (search.model_of state) = Ok true
      | None =>
          ∀ model, covers model (Cnf_get_symbols sent) →
                   check_model sent model ≠ Ok true
      end.
Proof.
  intros sent. apply (bfs_total_correct sent 8). vm_compute. lia.
Defined.

Section combinations_facts.
Context {A : Type}.
Implicit Types (l c : list A) (r : nat).

Lemma combinations_nil r : agent.combinations (@nil A) (S r) = [].
Proof. done. Qed.

Lemma combinations_length l r :
  length (agent.combinations l r) = choose (length l) r.
Proof.
  revert r. induction l as [|x l IH]; intros [|r]; simpl; try done.
  by rewrite length_app, length_fmap, !IH.
Qed.

Lemma elem_of_combinations l r c :
  c ∈ agent.combinations l r ↔ c `sublist_of` l ∧ length c = r.
Proof.
  revert r c. induction l as [|x l IH]; intros r c.
  - destruct r as [|r]; simpl.
    + rewrite list_elem_of_singleton. split.
      * intros ->. split; [constructor|done].
      * intros [_ Hlen]. by destruct c.
    + split; [by intros ?%elem_of_nil|].
      intros [Hsub Hlen]. apply sublist_nil_r in Hsub. by subst.
  - destruct r as [|r]; simpl.
    + rewrite list_elem_of_singleton. split.
      * intros ->. split; [apply sublist_nil_l|done].
      * intros [_ Hlen]. by destruct c.
    + rewrite elem_of_app, list_elem_of_fmap. setoid_rewrite IH. split.
      * intros [(c' & -> & Hsub & Hlen)|[Hsub Hlen]].
        -- split; [by constructor|simpl; lia].
        -- split; [by constructor|done].
      * intros [Hsub Hlen]. apply sublist_cons_r in Hsub as [Hsub|(c' & -> & Hsub)].
        -- by right.
        -- left. exists c'. simpl in Hlen. split; [done|]. split; [done|lia].
Qed.

Lemma choose_gt n k : n < k → choose n k = 0.
Proof.
  revert k. induction n as [|n IH]; intros [|k] ?; simpl; try lia.
  rewrite !IH by lia. done.
Qed.

Lemma choose_diag n : choose n n = 1.
Proof. induction n as [|n IH]; simpl; [done|]. rewrite IH, choose_gt; lia. Qed.

(** [choose n k] is [n! / (k! (n-k)!)]. *)
Lemma choose_fact n k :
  k ≤ n → choose n k * (fact k * fact (n - k)) = fact n.
Proof.
  revert k. induction n as [|n IH]; intros [|k] Hle; simpl choose.
  - done.
  - lia.
  - rewrite Nat.sub_0_r. simpl fact at 1. lia.
  - destruct (decide (k = n)) as [->|Hne].
    + rewrite choose_diag, choose_gt, Nat.sub_diag by lia. simpl fact at 2. lia.
    + pose proof (IH k ltac:(lia)) as H1. pose proof (IH (S k) ltac:(lia)) as H2.
      replace (S n - S k) with (n - k) by lia.
      replace (n - k) with (S (n - S k)) in * by lia.
      change (fact (S k)) with (S k * fact k) in *.
      change (fact (S (n - S k))) with (S (n - S k) * fact (n - S k)) in *.
      change (fact (S n)) with (S n * fact n).
      nia.
Qed.

(** The clauses over the [r]-element selections constrain the number of
    items that satisfy [p]. *)
Lemma combinations_some_false (p : A → bool) l r :
  (∀ c, c ∈ agent.combinations l r → ∃ x, x ∈ c ∧ p x = false)
  ↔ length (List.filter p l) < r.
Proof.
  revert r. induction l as [|x l IH]; intros [|r]; simpl.
  - split; [|lia]. intros H. destruct (H []) as (? & []%elem_of_nil & _). by left.
  - split; [lia|]. by intros _ ? ?%elem_of_nil.
  - split; [|lia]. intros H. destruct (H []) as (? & []%elem_of_nil & _). by left.
  - destruct (p x) eqn:Hx; simpl.
    + rewrite <-Nat.succ_lt_mono, <-IH. split.
      * intros H c Hc. destruct (H (x :: c)) as (y & [->|?]%elem_of_cons & Hy).
        -- apply elem_of_app. left. by apply list_elem_of_fmap_2.
        -- congruence.
        -- eauto.
      * intros H c [(c' & -> & Hc')%list_elem_of_fmap|Hc]%elem_of_app.
        -- destruct (H c' Hc') as (y & ? & ?). exists y. split; [by right|done].
        -- apply (proj2 (IH (S r))); [|done]. apply (proj1 (IH r)) in H. lia.
    + rewrite <-IH. split.
      * intros H c Hc. apply H, elem_of_app. by right.
      * intros H c [(c' & -> & Hc')%list_elem_of_fmap|Hc]%elem_of_app.
        -- exists x. split; [by left|done].
        -- by apply H.
Qed.
End combinations_facts.

Section string_facts.
Implicit Types (s a b x cur : string) (ch : ascii).

Lemma str_app_cons ch a b : String ch a +:+ b = String ch (a +:+ b).
Proof. done. Qed.

Lemma str_app_assoc a b x : (a +:+ b) +:+ x = a +:+ (b +:+ x).
Proof.
  induction a as [|ch a IH]; [done|]. rewrite !str_app_cons. by f_equal.
Qed.

Lemma str_app_nil_r a : a +:+ EmptyString = a.
Proof.
  induction a as [|ch a IH]; [done|]. rewrite str_app_cons. by f_equal.
Qed.

Lemma rev_app_app a b x : String.rev_app a b +:+ x = String.rev_app a (b +:+ x).
Proof.
  revert b. induction a as [|ch a IH]; intros b; [done|].
  cbn [String.rev_app]. by rewrite IH.
Qed.

Lemma rev_cons ch a : String.rev (String ch a) = String.rev a +:+ String ch EmptyString.
Proof. unfold String.rev. cbn [String.rev_app]. by rewrite rev_app_app. Qed.

Lemma rev_append a b : String.rev (a +:+ b) = String.rev b +:+ String.rev a.
Proof.
  induction a as [|ch a IH].
  - by rewrite str_app_nil_r.
  - by rewrite str_app_cons, !rev_cons, IH, str_app_assoc.
Qed.

Lemma rev_involutive a : String.rev (String.rev a) = a.
Proof.
  induction a as [|ch a IH]; [done|]. by rewrite rev_cons, rev_append, IH.
Qed.

Lemma plain_app a b : plain (a +:+ b) = plain a && plain b.
Proof.
  induction a as [|ch a IH]; [done|].
  rewrite str_app_cons. cbn [plain]. rewrite IH. by rewrite andb_assoc.
Qed.

Lemma plain_rev a : plain (String.rev a) = plain a.
Proof.
  induction a as [|ch a IH]; [done|].
  rewrite rev_cons, plain_app, IH. cbn [plain]. rewrite andb_true_r.
  apply andb_comm.
Qed.

Lemma lstrip_plain_app a b :
  plain a = true → a ≠ EmptyString → pystr.lstrip (a +:+ b) = a +:+ b.
Proof.
  destruct a as [|ch a]; [done|]. rewrite str_app_cons. cbn [plain pystr.lstrip].
  by destruct (pystr.isspace ch).
Qed.

Lemma lstrip_plain a : plain a = true → pystr.lstrip a = a.
Proof.
  destruct a as [|ch a]; [done|]. cbn [plain pystr.lstrip].
  by destruct (pystr.isspace ch).
Qed.

Lemma rstrip_plain a : plain a = true → pystr.rstrip a = a.
Proof.
  intros Ha. unfold pystr.rstrip.
  by rewrite lstrip_plain, rev_involutive by by rewrite plain_rev.
Qed.

Lemma rstrip_space a : pystr.rstrip (a +:+ " ") = pystr.rstrip a.
Proof. unfold pystr.rstrip. by rewrite rev_append. Qed.

Lemma strip_plain a : plain a = true → pystr.strip a = a.
Proof.
  intros Ha. unfold pystr.strip. by rewrite lstrip_plain, rstrip_plain.
Qed.

Lemma strip_plain_space_r a : plain a = true → pystr.strip (a +:+ " ") = a.
Proof.
  intros Ha. unfold pystr.strip. destruct (decide (a = EmptyString)) as [->|Hne].
  - done.
  - by rewrite lstrip_plain_app, rstrip_space, rstrip_plain.
Qed.

Lemma strip_space_l a : pystr.strip (" " +:+ a) = pystr.strip a.
Proof. done. Qed.

(** Reading a character other than [|]. *)
Lemma split_bars_from_other cur ch s :
  ch ≠ "|"%char →
  pystr.split_bars_from cur (String ch s)
  = pystr.split_bars_from (cur +:+ String ch EmptyString) s.
Proof.
  intros Hch. destruct ch as [[] [] [] [] [] [] [] []]; try done.
Qed.

Lemma split_bars_from_plain cur x s :
  plain x = true →
  pystr.split_bars_from cur (x +:+ s) = pystr.split_bars_from (cur +:+ x) s.
Proof.
  revert cur. induction x as [|ch x IH]; intros cur Hx.
  - by rewrite str_app_nil_r.
  - cbn [plain] in Hx. apply andb_true_iff in Hx as [[_ Hbar]%andb_true_iff Hx].
    rewrite str_app_cons, split_bars_from_other.
    + rewrite IH by done. by rewrite str_app_assoc.
    + intros ->. done.
Qed.

(** [split] and [strip] undo [" || ".join] on plain pieces. *)
Lemma strip_split_join cur x (xs : list string) :
  cur = EmptyString ∨ cur = " " →
  plain x = true → Forall (λ y, plain y = true) xs →
  pystr.strip <$> pystr.split_bars_from cur (pystr.join " || " (x :: xs))
  = x :: xs.
Proof.
  revert cur x. induction xs as [|x' xs IH]; intros cur x Hcur Hx Hxs.
  - cbn [pystr.join]. rewrite <-(str_app_nil_r x) at 1.
    rewrite split_bars_from_plain by done. cbn [pystr.split_bars_from fmap list_fmap].
    f_equal.
    destruct Hcur as [-> | ->]; [|rewrite strip_space_l]; by apply strip_plain.
  - apply Forall_cons in Hxs as [Hx' Hxs].
    change (pystr.join " || " (x :: x' :: xs))
      with (x +:+ " || " +:+ pystr.join " || " (x' :: xs)).
    rewrite split_bars_from_plain by done.
    change (" || " +:+ ?j) with (String " " (String "|" (String "|" (String " " j)))).
    rewrite split_bars_from_other by done.
    change (pystr.split_bars_from ?c (String "|" (String "|" ?r)))
      with (c :: pystr.split_bars_from EmptyString r).
    rewrite split_bars_from_other by done.
    rewrite fmap_cons. change (EmptyString +:+ ?a) with a.
    rewrite IH by auto. f_equal.
    rewrite str_app_assoc.
    destruct Hcur as [-> | ->]; [|rewrite strip_space_l];
      by apply strip_plain_space_r.
Qed.
End string_facts.

Section clause_strings.
Implicit Types (s a b x : string) (xs : list string).

Lemma rev_nonempty a : a ≠ EmptyString → String.rev a ≠ EmptyString.
Proof.
  destruct a as [|ch a]; [done|]. intros _. rewrite rev_cons.
  by destruct (String.rev a).
Qed.

Lemma rstrip_plain_app a b :
  plain b = true → b ≠ EmptyString → pystr.rstrip (a +:+ b) = a +:+ b.
Proof.
  intros Hb Hne. unfold pystr.rstrip. rewrite rev_append.
  rewrite lstrip_plain_app by (by rewrite ?plain_rev; try apply rev_nonempty).
  by rewrite rev_append, !rev_involutive.
Qed.

Lemma join_ends sep x xs :
  ∃ a y, y ∈ x :: xs ∧ pystr.join sep (x :: xs) = a +:+ y.
Proof.
  revert x. induction xs as [|x' xs IH]; intros x.
  - exists EmptyString, x. split; [by left|done].
  - destruct (IH x') as (a & y & Hy & Hj).
    exists (x +:+ sep +:+ a), y. split; [by right|].
    change (pystr.join sep (x :: x' :: xs))
      with (x +:+ sep +:+ pystr.join sep (x' :: xs)).
    by rewrite Hj, !str_app_assoc.
Qed.

Lemma join_starts sep x xs :
  ∃ b, pystr.join sep (x :: xs) = x +:+ b.
Proof.
  destruct xs as [|x' xs].
  - exists EmptyString. by rewrite str_app_nil_r.
  - by eexists.
Qed.

(** A string made by joining plain, non-empty pieces has no white space
    at its ends. *)
Lemma strip_join x xs :
  Forall (λ y, plain y = true ∧ y ≠ EmptyString) (x :: xs) →
  pystr.strip (pystr.join " || " (x :: xs)) = pystr.join " || " (x :: xs).
Proof.
  intros Hall. unfold pystr.strip.
  destruct (join_starts " || " x xs) as (b & Hb).
  destruct (join_ends " || " x xs) as (a & y & Hy & Ha).
  pose proof (proj1 (Forall_forall _ _) Hall) as Hin.
  destruct (Hin x ltac:(by left)) as [Hx Hxne].
  destruct (Hin y Hy) as [Hyp Hyne].
  rewrite Hb at 1. rewrite lstrip_plain_app, <-Hb by done.
  rewrite Ha. by apply rstrip_plain_app.
Qed.

(** [c] reads back a clause written as its literals joined by [" || "]. *)
Lemma c_join x xs (lits : list Literal) :
  Forall (λ y, plain y = true) (x :: xs) →
  pystr.join " || " (x :: xs) ≠ "FALSE" →
  map_outcome l (x :: xs) = Ok lits →
  c (pystr.join " || " (x :: xs)) = Ok (mkClause lits).
Proof.
  intros [Hx Hxs]%Forall_cons HF Hl. unfold c.
  rewrite (proj2 (String.eqb_neq _ _) HF).
  unfold pystr.split_bars. rewrite strip_split_join by auto.
  by rewrite Hl.
Qed.
End clause_strings.

Section mine_strings.
Implicit Types (cell : Z * Z) (combo : list (Z * Z)).

Lemma plain_string_of_uint d : plain (NilEmpty.string_of_uint d) = true.
Proof. induction d; done. Qed.

Lemma plain_str_of_int (n : Z) : plain (pystr.str_of_int n) = true.
Proof.
  unfold pystr.str_of_int. destruct n as [|p|p]; [done|..];
    cbn [Z.to_int NilZero.string_of_int]; unfold NilZero.string_of_uint.
  - destruct (Pos.to_uint p) eqn:E; try done;
      rewrite <-E; apply plain_string_of_uint.
  - cbn [plain]. destruct (Pos.to_uint p) eqn:E; try done;
      rewrite <-E; apply plain_string_of_uint.
Qed.

Lemma plain_mine cell : plain (agent.mine cell) = true.
Proof.
  unfold agent.mine. by rewrite !plain_app, !plain_str_of_int.
Qed.

Lemma plain_not_mine cell : plain (agent.not_mine cell) = true.
Proof.
  unfold agent.not_mine. by rewrite !plain_app, !plain_str_of_int.
Qed.

Lemma l_mine cell : l (agent.mine cell) = Ok (mkLiteral (agent.mine cell) true).
Proof. done. Qed.

Lemma l_not_mine cell :
  l (agent.not_mine cell) = Ok (mkLiteral (agent.mine cell) false).
Proof. done. Qed.

Lemma map_outcome_l_mine combo :
  map_outcome l (agent.mine <$> combo)
  = Ok ((λ cell, mkLiteral (agent.mine cell) true) <$> combo).
Proof.
  induction combo as [|cell combo IH]; [done|].
  rewrite fmap_cons. cbn [map_outcome]. by rewrite l_mine, IH.
Qed.

Lemma map_outcome_l_not_mine combo :
  map_outcome l (agent.not_mine <$> combo)
  = Ok ((λ cell, mkLiteral (agent.mine cell) false) <$> combo).
Proof.
  induction combo as [|cell combo IH]; [done|].
  rewrite fmap_cons. cbn [map_outcome]. by rewrite l_not_mine, IH.
Qed.

Lemma Forall_fmap_cons {A} (f : A → string) (P : string → Prop) x (xs : list A) :
  (∀ y, P (f y)) → Forall P (f x :: (f <$> xs)).
Proof.
  intros HP. apply Forall_cons. split; [done|].
  apply Forall_fmap, Forall_forall. intros y _. apply HP.
Qed.

(** A clause string of [at_least_clauses], read by [sentence]. *)
Lemma c_strip_mine cell combo :
  c (pystr.strip (pystr.join " || " (agent.mine <$> cell :: combo)))
  = Ok (mkClause ((λ cell, mkLiteral (agent.mine cell) true) <$> cell :: combo)).
Proof.
  rewrite !fmap_cons, strip_join.
  - apply c_join.
    + apply Forall_fmap_cons. apply plain_mine.
    + destruct (join_starts " || " (agent.mine cell) (agent.mine <$> combo))
        as (b & ->). done.
    + exact (map_outcome_l_mine (cell :: combo)).
  - apply Forall_fmap_cons. intros c'. split; [apply plain_mine|done].
Qed.

(** A clause string of [at_most_clauses], read by [sentence]. *)
Lemma c_strip_not_mine cell combo :
  c (pystr.strip (pystr.join " || " (agent.not_mine <$> cell :: combo)))
  = Ok (mkClause ((λ cell, mkLiteral (agent.mine cell) false) <$> cell :: combo)).
Proof.
  rewrite !fmap_cons, strip_join.
  - apply c_join.
    + apply Forall_fmap_cons. apply plain_not_mine.
    + destruct (join_starts " || " (agent.not_mine cell) (agent.not_mine <$> combo))
        as (b & ->). done.
    + exact (map_outcome_l_not_mine (cell :: combo)).
  - apply Forall_fmap_cons. intros c'. split; [apply plain_not_mine|done].
Qed.
End mine_strings.

Section exactly_k.
Implicit Types (cell : Z * Z) (combo nbrs : list (Z * Z)).
Implicit Types (model : gmap string bool).

Lemma map_outcome_app {A B} (f : A → outcome B) (xs ys : list A) a b :
  map_outcome f xs = Ok a → map_outcome f ys = Ok b →
  map_outcome f (xs ++ ys) = Ok (a ++ b).
Proof.
  revert a. induction xs as [|x xs IH]; intros a; simpl.
  - by intros [= <-] ->.
  - destruct (f x) as [y| |]; simpl; try done.
    destruct (map_outcome f xs) as [ys'| |]; simpl; try done.
    intros [= <-] Hys. by rewrite (IH ys' eq_refl Hys).
Qed.

Lemma map_outcome_fmap_ok {A B C} (f : B → outcome C) (g : A → B)
    (h : A → C) (xs : list A) :
  (∀ x, x ∈ xs → f (g x) = Ok (h x)) →
  map_outcome f (g <$> xs) = Ok (h <$> xs).
Proof.
  induction xs as [|x xs IH]; intros Hf; [done|].
  rewrite !fmap_cons. cbn [map_outcome].
  rewrite Hf by by left. cbn [bind]. rewrite IH; [done|].
  intros y ?. apply Hf. by right.
Qed.

Lemma filter_length_negb {A} (p : A → bool) (l : list A) :
  length (List.filter p l) + length (List.filter (λ x, negb (p x)) l)
  = length l.
Proof.
  induction l as [|x l IH]; simpl; [done|]. destruct (p x); simpl; lia.
Qed.

(** The clauses that [sentence] reads from the strings of
    [at_most_clauses] and [at_least_clauses]. *)
Lemma sentence_of_mine_clauses (combos_most combos_least : list (list (Z * Z))) :
  (∀ combo, combo ∈ combos_most ++ combos_least → combo ≠ []) →
  sentence
    (((λ combo, pystr.join " || " (agent.not_mine <$> combo)) <$> combos_most)
     ++ ((λ combo, pystr.join " || " (agent.mine <$> combo)) <$> combos_least))
  = Ok (Cnf_init
      (((λ combo, mkClause ((λ cell, mkLiteral (agent.mine cell) false) <$> combo))
          <$> combos_most)
       ++ ((λ combo, mkClause ((λ cell, mkLiteral (agent.mine cell) true) <$> combo))
          <$> combos_least))).
Proof.
  intros Hne. unfold sentence.
  erewrite map_outcome_app; [done|..].
  - apply map_outcome_fmap_ok. intros [|cell combo] Hin.
    + destruct (Hne []); [|done]. apply elem_of_app. by left.
    + apply c_strip_not_mine.
  - apply map_outcome_fmap_ok. intros [|cell combo] Hin.
    + destruct (Hne []); [|done]. apply elem_of_app. by right.
    + apply c_strip_mine.
Qed.

Lemma satisfies_negative model combo :
  satisfies_clause model
    (mkClause ((λ cell, mkLiteral (agent.mine cell) false) <$> combo))
  ↔ ∃ cell, cell ∈ combo ∧ model !! agent.mine cell = Some false.
Proof.
  unfold satisfies_clause, holds. simpl. split.
  - intros (lit & (cell & -> & Hin)%list_elem_of_fmap & Hlit). eauto.
  - intros (cell & Hin & Hm). exists (mkLiteral (agent.mine cell) false).
    split; [|exact Hm].
    by apply (list_elem_of_fmap_2 (λ cell, mkLiteral (agent.mine cell) false)).
Qed.

Lemma satisfies_positive model combo :
  satisfies_clause model
    (mkClause ((λ cell, mkLiteral (agent.mine cell) true) <$> combo))
  ↔ ∃ cell, cell ∈ combo ∧ model !! agent.mine cell = Some true.
Proof.
  unfold satisfies_clause, holds. simpl. split.
  - intros (lit & (cell & -> & Hin)%list_elem_of_fmap & Hlit). eauto.
  - intros (cell & Hin & Hm). exists (mkLiteral (agent.mine cell) true).
    split; [|exact Hm].
    by apply (list_elem_of_fmap_2 (λ cell, mkLiteral (agent.mine cell) true)).
Qed.

(** The meaning of the two families over the selections of [nbrs]. *)
Lemma mine_clauses_count model nbrs (r_most r_least : nat) :
  (∀ cell, cell ∈ nbrs → is_Some (model !! agent.mine cell)) →
  let count :=
    length (List.filter (λ cell, bool_decide (model !! agent.mine cell = Some true))
                        nbrs) in
  (satisfies_all model
     ((λ combo, mkClause ((λ cell, mkLiteral (agent.mine cell) false) <$> combo))
        <$> agent.combinations nbrs r_most)
   ↔ count < r_most)
  ∧ (satisfies_all model
       ((λ combo, mkClause ((λ cell, mkLiteral (agent.mine cell) true) <$> combo))
          <$> agent.combinations nbrs r_least)
     ↔ length nbrs - count < r_least).
Proof.
  intros Hcov count. subst count.
  set (p := λ cell, bool_decide (model !! agent.mine cell = Some true)).
  assert (Hsub : ∀ r combo cell, combo ∈ agent.combinations nbrs r →
            cell ∈ combo → cell ∈ nbrs).
  { intros r combo cell [Hs _]%elem_of_combinations Hin.
    by eapply elem_of_sublist. }
  split.
  - rewrite <-(combinations_some_false p). unfold satisfies_all. split.
    + intros Hsat combo Hc.
      destruct (proj1 (satisfies_negative model combo)) as (cell & Hin & Hm).
      { apply Hsat.
        by apply (list_elem_of_fmap_2 (λ combo, mkClause
              ((λ cell, mkLiteral (agent.mine cell) false) <$> combo))). }
      exists cell. split; [done|]. unfold p. rewrite Hm.
      by apply bool_decide_eq_false.
    + intros Hall C (combo & -> & Hc)%list_elem_of_fmap.
      apply satisfies_negative. destruct (Hall combo Hc) as (cell & Hin & Hp).
      exists cell. split; [done|].
      destruct (Hcov cell) as [[|] Hv]; [by eapply Hsub| |done].
      unfold p in Hp. rewrite Hv in Hp. by apply bool_decide_eq_false in Hp.
  - assert (length nbrs - length (List.filter p nbrs)
            = length (List.filter (λ cell, negb (p cell)) nbrs)) as ->.
    { pose proof (filter_length_negb p nbrs). lia. }
    rewrite <-(combinations_some_false (λ cell, negb (p cell))).
    unfold satisfies_all. split.
    + intros Hsat combo Hc.
      destruct (proj1 (satisfies_positive model combo)) as (cell & Hin & Hm).
      { apply Hsat.
        by apply (list_elem_of_fmap_2 (λ combo, mkClause
              ((λ cell, mkLiteral (agent.mine cell) true) <$> combo))). }
      exists cell. split; [done|]. unfold p. rewrite Hm.
      by rewrite bool_decide_eq_true_2.
    + intros Hall C (combo & -> & Hc)%list_elem_of_fmap.
      apply satisfies_positive. destruct (Hall combo Hc) as (cell & Hin & Hp).
      exists cell. split; [done|].
      apply negb_false_iff in Hp. by apply bool_decide_eq_true in Hp.
Qed.
End exactly_k.

(** X11. [itertools.combinations] as the agent uses it: the number of
    selections of [r] items is the binomial coefficient, which is
    [n! / (r! (n-r)!)] for [r <= n], and the selections are exactly the
    sub-sequences of length [r]. *)
Theorem combinations_spec {A : Type} (iterable : list A) (r : nat) :
  length (agent.combinations iterable r) = choose (length iterable) r
  ∧ (r ≤ length iterable →
     choose (length iterable) r * (fact r * fact (length iterable - r))
     = fact (length iterable))
  ∧ (length iterable < r → agent.combinations iterable r = [])
  ∧ (∀ combo, combo ∈ agent.combinations iterable r
              ↔ combo `sublist_of` iterable ∧ length combo = r).
Proof.
  split; [apply combinations_length|]. split; [apply choose_fact|].
  split; [|apply elem_of_combinations].
  intros Hlt. apply length_zero_iff_nil.
  by rewrite combinations_length, choose_gt.
Qed.

(** X12. For a count [k] between 0 and the number [n] of unrevealed
    neighbours, [at_most_clauses] returns one string for each selection of
    [k+1] neighbours and [at_least_clauses] one for each selection of
    [n-k+1]; [sentence] reads all of them, and a model that assigns every
    neighbour's variable passes [check_model] on that sentence exactly when
    [k] of the neighbours are mines in it. *)
Theorem exactly_k_encoding (row col k : Z) (nbrs : list (Z * Z)) :
  (0 ≤ k ≤ Z.of_nat (length nbrs))%Z →
  ∃ most least sent,
    agent.at_most_clauses row col k nbrs = Ok most
    ∧ agent.at_least_clauses row col k nbrs = Ok least
    ∧ length most = choose (length nbrs) (Z.to_nat (k + 1))
    ∧ length least
      = choose (length nbrs) (Z.to_nat (Z.of_nat (length nbrs) - k + 1))
    ∧ sentence (most ++ least) = Ok sent
    ∧ ∀ model : gmap string bool,
        (∀ cell, cell ∈ nbrs → is_Some (model !! agent.mine cell)) →
        check_model sent model = Ok true
        ↔ Z.of_nat (length (List.filter
             (λ cell, bool_decide (model !! agent.mine cell = Some true))
             nbrs)) = k.
Proof.
  intros Hk.
  set (n := length nbrs) in *.
  set (r_most := Z.to_nat (k + 1)). set (r_least := Z.to_nat (Z.of_nat n - k + 1)).
  set (neg := λ combo : list (Z * Z),
         mkClause ((λ cell, mkLiteral (agent.mine cell) false) <$> combo)).
  set (pos := λ combo : list (Z * Z),
         mkClause ((λ cell, mkLiteral (agent.mine cell) true) <$> combo)).
  eexists _, _, _.
  split; [|split; [|split; [|split; [|split]]]].
  - unfold agent.at_most_clauses, agent.itertools_combinations.
    rewrite (proj2 (Z.ltb_ge _ _)) by lia. done.
  - unfold agent.at_least_clauses, agent.itertools_combinations.
    rewrite (proj2 (Z.ltb_ge _ _)) by (fold n; lia). done.
  - by rewrite length_fmap, combinations_length.
  - by rewrite length_fmap, combinations_length.
  - apply sentence_of_mine_clauses.
    intros combo [Hc|Hc]%elem_of_app Hnil;
      apply elem_of_combinations in Hc as [_ Hlen]; subst combo;
      simpl in Hlen; lia.
  - intros model Hcov.
    set (clauses_all := (neg <$> agent.combinations nbrs r_most)
                        ++ (pos <$> agent.combinations nbrs r_least)).
    assert (Horigin : ∀ C, C ∈ clauses (Cnf_init clauses_all) →
              ∃ combo b, combo `sublist_of` nbrs
                ∧ C = mkClause ((λ cell, mkLiteral (agent.mine cell) b) <$> combo)).
    { intros C [(combo & -> & Hc)%list_elem_of_fmap
               |(combo & -> & Hc)%list_elem_of_fmap]%elem_of_set_of%elem_of_app;
        apply elem_of_combinations in Hc as [Hs _]; eauto. }
    destruct (check_model_tautology_free (Cnf_init clauses_all) model)
      as (b & Hb & Hiff).
    { intros sym (C & HC & Hsym)%elem_of_Cnf_get_symbols.
      destruct (Horigin C HC) as (combo & pol & Hs & ->).
      apply elem_of_Clause_get_symbols in Hsym as (lit & Hlit & <-).
      simpl in Hlit. apply list_elem_of_fmap in Hlit as (cell & -> & Hin).
      apply Hcov. by eapply elem_of_sublist. }
    { intros C HC (sym & H1 & H2).
      destruct (Horigin C HC) as (combo & pol & Hs & ->). simpl in *.
      apply list_elem_of_fmap in H1 as (c1 & [= _ <-] & _).
      apply list_elem_of_fmap in H2 as (c2 & [= _ ?] & _). }
    change (check_model (Cnf_init clauses_all) model = Ok true
            ↔ Z.of_nat (length (List.filter
                (λ cell, bool_decide (model !! agent.mine cell = Some true))
                nbrs)) = k).
    rewrite Hb.
    destruct (mine_clauses_count model nbrs r_most r_least Hcov) as [Hmost Hleast].
    cbv zeta in Hmost, Hleast.
    assert (b = true ↔ Z.of_nat (length (List.filter
              (λ cell, bool_decide (model !! agent.mine cell = Some true)) nbrs))
            = k) as <-.
    { rewrite Hiff. cbn [Cnf_init clauses].
      rewrite satisfies_all_set_of. unfold clauses_all, neg, pos.
      rewrite satisfies_all_app, Hmost, Hleast. fold n.
      pose proof (filter_length_le
        (λ cell, bool_decide (model !! agent.mine cell = Some true))
        (λ _, true) nbrs (λ _ _, eq_refl)) as Hle.
      assert (length (List.filter (λ _ : Z * Z, true) nbrs) = n) as Hall.
      { clear. subst n. induction nbrs; simpl; auto. }
      rewrite Hall in Hle. subst r_most r_least. lia. }
    split; [by intros [= ->]|by intros ->].
Qed.

Lemma exactly_k_encoding_witness :
  ∃ most least sent,
    agent.at_most_clauses 0 0 1 [(0, 1); (1, 0); (1, 1)]%Z = Ok most
    ∧ agent.at_least_clauses 0 0 1 [(0, 1); (1, 0); (1, 1)]%Z = Ok least
    ∧ length most = 3 ∧ length least = 1
    ∧ sentence (most ++ least) = Ok sent
    ∧ ∀ model : gmap string bool,
        (∀ cell, cell ∈ [(0, 1); (1, 0); (1, 1)]%Z →
                 is_Some (model !! agent.mine cell)) →
        check_model sent model = Ok true
        ↔ Z.of_nat (length (List.filter
             (λ cell, bool_decide (model !! agent.mine cell = Some true))
             [(0, 1); (1, 0); (1, 1)]%Z)) = 1%Z.
Proof.
  apply (exactly_k_encoding 0 0 1 [(0, 1); (1, 0); (1, 1)]%Z). simpl. lia.
Defined.

(** X13. Outside that range the builders fail or produce a string that
    [sentence] rejects: a count above [n + 1] makes [at_least_clauses]
    raise [ValueError], a count below [-1] makes [at_most_clauses] raise
    it, and the counts [n + 1] and [-1] give the single empty string, on
    which [sentence] raises [IndexError]. *)
Theorem clause_builders_out_of_range (row col k : Z) (nbrs : list (Z * Z)) :
  ((Z.of_nat (length nbrs) + 1 < k)%Z →
     agent.at_least_clauses row col k nbrs = Raise ValueError)
  ∧ ((k < -1)%Z → agent.at_most_clauses row col k nbrs = Raise ValueError)
  ∧ agent.at_least_clauses row col (Z.of_nat (length nbrs) + 1) nbrs
    = Ok [EmptyString]
  ∧ agent.at_most_clauses row col (-1) nbrs = Ok [EmptyString]
  ∧ sentence [EmptyString] = Raise IndexError.
Proof.
  split; [|split; [|split; [|split]]].
  - intros Hk. unfold agent.at_least_clauses, agent.itertools_combinations.
    by rewrite (proj2 (Z.ltb_lt _ _)) by lia.
  - intros Hk. unfold agent.at_most_clauses, agent.itertools_combinations.
    by rewrite (proj2 (Z.ltb_lt _ _)) by lia.
  - unfold agent.at_least_clauses, agent.itertools_combinations.
    rewrite (proj2 (Z.ltb_ge _ _)) by lia.
    replace (Z.of_nat (length nbrs) - (Z.of_nat (length nbrs) + 1) + 1)%Z
      with 0%Z by lia.
    by destruct nbrs.
  - unfold agent.at_most_clauses, agent.itertools_combinations. simpl.
    by destruct nbrs.
  - done.
Qed.

Section print_and_parse.
Implicit Types (lit : Literal) (C : Clause) (ls : list Literal).

Lemma plain_Literal_str lit :
  plain (symbol lit) = true → plain (Literal_str lit) = true.
Proof.
  intros Hs. unfold Literal_str. rewrite plain_app, Hs.
  by destruct (polarity lit).
Qed.

Lemma l_Literal_str lit :
  (polarity lit = true →
     ∃ ch rest, symbol lit = String ch rest ∧ ch ≠ "!"%char) →
  l (Literal_str lit) = Ok lit.
Proof.
  destruct lit as [sym [|]]; unfold Literal_str; simpl polarity; simpl symbol.
  - intros (ch & rest & -> & Hch); [done|].
    change (EmptyString +:+ String ch rest) with (String ch rest).
    cbn [l]. by rewrite (proj2 (Ascii.eqb_neq _ _) Hch).
  - intros _. done.
Qed.

Lemma map_outcome_l_Literal_str ls :
  (∀ lit, lit ∈ ls → polarity lit = true →
     ∃ ch rest, symbol lit = String ch rest ∧ ch ≠ "!"%char) →
  map_outcome l (Literal_str <$> ls) = Ok ls.
Proof.
  intros Hls. rewrite (map_outcome_fmap_ok l Literal_str id).
  - by rewrite list_fmap_id.
  - intros lit Hin. apply l_Literal_str. by apply Hls.
Qed.
End print_and_parse.

(** X14. Printing a clause and reading it back with [c]: when the symbols
    contain neither white space nor [|], the positive literals have a
    non-empty symbol that does not start with [!], and the printed form is
    not the reserved word [FALSE], [c(str(clause))] is the clause of the
    sorted literals, which is the same element of a set as the clause
    printed.  The empty clause prints as [FALSE] and reads back as itself;
    the unit clause of the symbol [FALSE] prints as [FALSE] too, and reads
    back as the empty clause. *)
Theorem c_of_Clause_str (C : Clause) :
  (∀ lit, lit ∈ literals C →
     plain (symbol lit) = true
     ∧ (polarity lit = true →
          ∃ ch rest, symbol lit = String ch rest ∧ ch ≠ "!"%char)) →
  Clause_str C ≠ "FALSE" →
  c (Clause_str C) = Ok (mkClause (sorted_literals (literals C)))
  ∧ same_element C (mkClause (sorted_literals (literals C))) = true
  ∧ c (Clause_str (mkClause [])) = Ok (mkClause [])
  ∧ c (Clause_str (mkClause [mkLiteral "FALSE" true])) = Ok (mkClause []).
Proof.
  intros Hlits HF.
  assert (Hperm : sorted_literals (literals C) ≡ₚ literals C)
    by apply merge_sort_Permutation.
  split; [|split; [|split; by vm_compute]].
  - unfold Clause_str in *. destruct (literals C) as [|lit0 ls0] eqn:E; [done|].
    rewrite <-E in *.
    destruct (sorted_literals (literals C)) as [|lit ls] eqn:Es.
    { rewrite E in Hperm. by apply Permutation_nil_l in Hperm. }
    rewrite fmap_cons in *. apply c_join.
    + rewrite <-fmap_cons. apply Forall_fmap, Forall_forall. intros x Hx.
      apply plain_Literal_str, Hlits. by rewrite <-Hperm.
    + done.
    + rewrite <-fmap_cons. apply map_outcome_l_Literal_str.
      intros x Hx. apply Hlits. by rewrite <-Hperm.
  - apply same_element_iff. unfold Clause_hash_key. simpl.
    symmetry. by apply sorted_literals_perm.
Qed.

Lemma c_of_Clause_str_witness :
  let C := mkClause [mkLiteral "B_1_2" false; mkLiteral "A" true] in
  c (Clause_str C) = Ok (mkClause (sorted_literals (literals C)))
  ∧ same_element C (mkClause (sorted_literals (literals C))) = true
  ∧ c (Clause_str (mkClause [])) = Ok (mkClause [])
  ∧ c (Clause_str (mkClause [mkLiteral "FALSE" true])) = Ok (mkClause []).
Proof.
  intros C. apply (c_of_Clause_str C).
  - intros lit Hin. simpl in Hin.
    apply elem_of_cons in Hin as [->|Hin];
      [|apply list_elem_of_singleton in Hin as ->].
    + split; [by vm_compute|done].
    + split; [by vm_compute|]. intros _. by exists "A"%char, EmptyString.
  - by vm_compute.
Defined.

(** X15. The test [next_move == RandomReveal()] of the game loops tells the
    two kinds of move apart: comparing any move with a [RandomReveal], on
    either side, is [True] exactly when the move is a [RandomReveal], and
    no comparison of moves raises. *)
Theorem move_eq_RandomReveal (move : agent.MinesweeperMove) :
  let is_random :=
    match move with
    | agent.RandomReveal => true
    | agent.Reveal _ _ => false
    end in
  agent.move_eq move agent.RandomReveal = Ok is_random
  ∧ agent.move_eq agent.RandomReveal move = Ok is_random
  ∧ ∀ other, ∃ b, agent.move_eq move other = Ok b.
Proof.
  split; [by destruct move|]. split; [by destruct move|].
  intros other. destruct move, other; by eexists.
Qed.

Section agent_grid.
Implicit Types (self : agent.OptimizedAgent) (row col : Z) (cell : Z * Z).

Lemma elem_of_grid (rows cols : list Z) row col :
  (row, col) ∈ flat_map (λ row, (λ col, (row, col)) <$> cols) rows
  ↔ row ∈ rows ∧ col ∈ cols.
Proof.
  rewrite list_elem_of_In, in_flat_map. split.
  - intros (r & Hr%list_elem_of_In & (c' & [= -> ->] & Hc)%list_elem_of_In%list_elem_of_fmap).
    done.
  - intros [Hr Hc]. exists row. split; [by apply list_elem_of_In|].
    apply list_elem_of_In, list_elem_of_fmap. by exists col.
Qed.

Lemma NoDup_grid (rows cols : list Z) :
  NoDup rows → NoDup cols →
  NoDup (flat_map (λ row, (λ col, (row, col)) <$> cols) rows).
Proof.
  intros Hrows Hcols. induction Hrows as [|r rows Hr Hrows IH]; simpl.
  - apply NoDup_nil_2.
  - apply NoDup_app. split; [|split; [|done]].
    + apply NoDup_fmap_2; [|done]. by intros c1 c2 [= ->].
    + intros [r' c'] (c1 & [= -> ->] & Hc)%list_elem_of_fmap.
      by intros [? _]%elem_of_grid.
Qed.

Lemma length_grid (rows cols : list Z) :
  length (flat_map (λ row, (λ col, (row, col)) <$> cols) rows)
  = length rows * length cols.
Proof.
  induction rows as [|r rows IH]; simpl; [done|].
  by rewrite length_app, length_fmap, IH.
Qed.

Lemma NoDup_neighbors row col :
  NoDup [(row - 1, col - 1); (row - 1, col); (row - 1, col + 1);
         (row, col - 1); (row, col + 1);
         (row + 1, col - 1); (row + 1, col); (row + 1, col + 1)]%Z.
Proof.
  repeat (apply NoDup_cons_2;
          [rewrite ?elem_of_cons, elem_of_nil; intros H;
           repeat (destruct H as [H|H]); try done; injection H; lia|]).
  apply NoDup_nil_2.
Qed.

Lemma elem_of_neighbors row col nrow ncol :
  (nrow, ncol) ∈ [(row - 1, col - 1); (row - 1, col); (row - 1, col + 1);
                  (row, col - 1); (row, col + 1);
                  (row + 1, col - 1); (row + 1, col); (row + 1, col + 1)]%Z
  ↔ (Z.abs (nrow - row) ≤ 1)%Z ∧ (Z.abs (ncol - col) ≤ 1)%Z
    ∧ (nrow, ncol) ≠ (row, col).
Proof.
  rewrite ?elem_of_cons, elem_of_nil. split.
  - intros H. repeat (destruct H as [H|H]); try done;
      simplify_eq; (split; [lia|split; [lia|]]); intros [=]; lia.
  - intros (Hr & Hc & Hne).
    assert (nrow = row - 1 ∨ nrow = row ∨ nrow = row + 1)%Z as Hrow by lia.
    assert (ncol = col - 1 ∨ ncol = col ∨ ncol = col + 1)%Z as Hcol by lia.
    destruct Hrow as [Hrow|[Hrow|Hrow]]; destruct Hcol as [Hcol|[Hcol|Hcol]];
      subst nrow ncol; try done; repeat first [left; reflexivity | right].
Qed.

Lemma elem_of_get_unrevealed_neighbors self row col cell :
  cell ∈ agent.get_unrevealed_neighbors self row col
  ↔ cell ∈ agent.unrevealed self
    ∧ (0 ≤ cell.1 < agent.num_rows self)%Z
    ∧ (0 ≤ cell.2 < agent.num_columns self)%Z
    ∧ (Z.abs (cell.1 - row) ≤ 1)%Z ∧ (Z.abs (cell.2 - col) ≤ 1)%Z
    ∧ cell ≠ (row, col).
Proof.
  unfold agent.get_unrevealed_neighbors.
  rewrite list_elem_of_In, filter_In, <-list_elem_of_In.
  destruct cell as [nrow ncol]. rewrite elem_of_neighbors. simpl.
  rewrite !andb_true_iff, bool_decide_eq_true.
  rewrite !Z.leb_le, !Z.ltb_lt. tauto.
Qed.

Lemma NoDup_List_filter {A} (f : A → bool) (l : list A) :
  NoDup l → NoDup (List.filter f l).
Proof.
  induction 1 as [|x l Hx Hl IH]; simpl; [apply NoDup_nil_2|].
  destruct (f x); [|done]. apply NoDup_cons_2; [|done].
  rewrite list_elem_of_In, filter_In, <-list_elem_of_In. tauto.
Qed.

Lemma NoDup_get_unrevealed_neighbors self row col :
  NoDup (agent.get_unrevealed_neighbors self row col).
Proof.
  unfold agent.get_unrevealed_neighbors. apply NoDup_List_filter, NoDup_neighbors.
Qed.

End agent_grid.

(** X16. [get_unrevealed_neighbors] returns exactly the cells of the grid
    that touch the given cell, are not the cell itself and are still
    unrevealed; it returns none of them twice, and at most eight. *)
Theorem get_unrevealed_neighbors_spec
    (self : agent.OptimizedAgent) (row col : Z) :
  let result := agent.get_unrevealed_neighbors self row col in
  (∀ nrow ncol,
     (nrow, ncol) ∈ result
     ↔ (nrow, ncol) ∈ agent.unrevealed self
       ∧ (0 ≤ nrow < agent.num_rows self)%Z
       ∧ (0 ≤ ncol < agent.num_columns self)%Z
       ∧ (Z.abs (nrow - row) ≤ 1)%Z ∧ (Z.abs (ncol - col) ≤ 1)%Z
       ∧ (nrow, ncol) ≠ (row, col))
  ∧ NoDup result ∧ length result ≤ 8.
Proof.
  split; [|split].
  - intros nrow ncol. apply elem_of_get_unrevealed_neighbors.
  - apply NoDup_get_unrevealed_neighbors.
  - unfold agent.get_unrevealed_neighbors.
    etrans; [apply List.filter_length_le|]. done.
Qed.

(** X17. A new agent holds every cell of the grid as unrevealed, and nothing
    else: [num_rows * num_columns] cells, none when a dimension is not
    positive; its frontier and its clauses are empty, so every neighbour in
    the grid is an unrevealed neighbour. *)
Theorem initialize_agent_unrevealed (num_rows num_columns num_mines : Z) :
  let self := agent.initialize_agent num_rows num_columns num_mines in
  (∀ row col,
     (row, col) ∈ agent.unrevealed self
     ↔ (0 ≤ row < num_rows)%Z ∧ (0 ≤ col < num_columns)%Z)
  ∧ size (agent.unrevealed self) = Z.to_nat num_rows * Z.to_nat num_columns
  ∧ (∀ row col nrow ncol,
       (nrow, ncol) ∈ agent.get_unrevealed_neighbors self row col
       ↔ (0 ≤ nrow < num_rows)%Z ∧ (0 ≤ ncol < num_columns)%Z
         ∧ (Z.abs (nrow - row) ≤ 1)%Z ∧ (Z.abs (ncol - col) ≤ 1)%Z
         ∧ (nrow, ncol) ≠ (row, col)).
Proof.
  assert (Hin : ∀ row col,
    (row, col) ∈ agent.unrevealed
                   (agent.initialize_agent num_rows num_columns num_mines)
    ↔ (0 ≤ row < num_rows)%Z ∧ (0 ≤ col < num_columns)%Z).
  { intros row col. unfold agent.initialize_agent, agent.init. simpl.
    rewrite elem_of_list_to_set, elem_of_grid, !elem_of_seqZ. lia. }
  split; [exact Hin|split].
  - unfold agent.initialize_agent, agent.init. simpl.
    rewrite size_list_to_set by (apply NoDup_grid; apply NoDup_seqZ).
    by rewrite length_grid, !length_seqZ.
  - intros row col nrow ncol.
    rewrite elem_of_get_unrevealed_neighbors, Hin. simpl. tauto.
Qed.

Section agent_knowledge.
Context (world : gmap string bool).
Implicit Types (self : agent.OptimizedAgent) (row col k : Z) (cell : Z * Z).
Implicit Types (combo nbrs : list (Z * Z)) (S T : gset string).

Lemma true_of_negative combo :
  (∀ cell, cell ∈ combo → is_Some (world !! agent.mine cell)) →
  satisfies_clause world
    (mkClause ((λ cell, mkLiteral (agent.mine cell) false) <$> combo)) →
  true_of world
    (mkClause ((λ cell, mkLiteral (agent.mine cell) false) <$> combo)).
Proof.
  intros Hsome Hsat. split; [done|]. split.
  - intros (sym & (cell & [=] & _)%list_elem_of_fmap & _).
  - intros lit (cell & -> & Hin)%list_elem_of_fmap. exists cell. auto.
Qed.

Lemma true_of_positive combo :
  (∀ cell, cell ∈ combo → is_Some (world !! agent.mine cell)) →
  satisfies_clause world
    (mkClause ((λ cell, mkLiteral (agent.mine cell) true) <$> combo)) →
  true_of world
    (mkClause ((λ cell, mkLiteral (agent.mine cell) true) <$> combo)).
Proof.
  intros Hsome Hsat. split; [done|]. split.
  - intros (sym & _ & (cell & [=] & _)%list_elem_of_fmap).
  - intros lit (cell & -> & Hin)%list_elem_of_fmap. exists cell. auto.
Qed.

Lemma knowledge_holds_union S T :
  knowledge_holds world S → knowledge_holds world T →
  knowledge_holds world (S ∪ T).
Proof. intros HS HT s [?|?]%elem_of_union; auto. Qed.

Lemma knowledge_holds_list (strings : list string) :
  (∀ s, s ∈ strings →
        ∃ clause, c (pystr.strip s) = Ok clause ∧ true_of world clause) →
  knowledge_holds world (list_to_set strings).
Proof. intros H s Hs%elem_of_list_to_set. auto. Qed.

Lemma mines_among_le nbrs : mines_among world nbrs ≤ length nbrs.
Proof. apply List.filter_length_le. Qed.

Lemma mines_among_all nbrs cell :
  mines_among world nbrs = length nbrs → cell ∈ nbrs →
  world !! agent.mine cell = Some true.
Proof.
  unfold mines_among. induction nbrs as [|x nbrs IH]; simpl.
  - by intros _ ?%elem_of_nil.
  - destruct (bool_decide _) eqn:Hx; simpl.
    + intros [= Hlen] [->|Hin]%elem_of_cons; [|by apply IH].
      by apply bool_decide_eq_true in Hx.
    + intros Hlen.
      pose proof (List.filter_length_le
        (λ cell, bool_decide (world !! agent.mine cell = Some true)) nbrs).
      lia.
Qed.

Lemma get_unrevealed_neighbors_ext self self' row col :
  agent.unrevealed self' = agent.unrevealed self →
  agent.num_rows self' = agent.num_rows self →
  agent.num_columns self' = agent.num_columns self →
  agent.get_unrevealed_neighbors self' row col
  = agent.get_unrevealed_neighbors self row col.
Proof.
  unfold agent.get_unrevealed_neighbors. by intros -> -> ->.
Qed.

Lemma describes_neighbors self row col cell :
  describes world self →
  cell ∈ agent.get_unrevealed_neighbors self row col →
  is_Some (world !! agent.mine cell).
Proof.
  intros Hd (_ & ? & ? & _)%elem_of_get_unrevealed_neighbors. by apply Hd.
Qed.

(** What [process_report] does with a report that is true of [world]. *)
Lemma process_report_spec self row col k :
  let nbrs := agent.get_unrevealed_neighbors self row col in
  describes world self →
  knowledge_holds world (agent.clauses self) →
  k = Z.of_nat (mines_among world nbrs) →
  ∃ self',
    agent.process_report self row col k = Ok self'
    ∧ knowledge_holds world (agent.clauses self')
    ∧ agent.unrevealed self' = agent.unrevealed self
    ∧ agent.num_rows self' = agent.num_rows self
    ∧ agent.num_columns self' = agent.num_columns self
    ∧ agent.num_mines self' = agent.num_mines self
    ∧ agent.most_recent_report self' = agent.most_recent_report self
    ∧ agent.move_num self' = agent.move_num self
    ∧ agent.clauses self ⊆ agent.clauses self'
    ∧ agent.frontier self'
      = (if (k =? 0)%Z then agent.frontier self ∖ {[ (row, col) ]}
         else agent.frontier self ∖ {[ (row, col) ]} ∪ list_to_set nbrs).
Proof.
  intros nbrs Hd Hknow Hk.
  assert (Hsome : ∀ cell, cell ∈ nbrs → is_Some (world !! agent.mine cell)).
  { intros cell Hin. by apply (describes_neighbors self row col). }
  pose proof (mines_among_le nbrs) as Hle.
  unfold agent.process_report. fold nbrs.
  destruct (k =? 0)%Z eqn:Hk0; [by eexists|].
  destruct (length nbrs =? 0)%nat eqn:Hn0; [by eexists|].
  destruct (k =? Z.of_nat (length nbrs))%Z eqn:Hkn.
  { eexists. split; [done|]. simpl. split; [|repeat split; try done; intros s Hs; rewrite !elem_of_union; auto].
    apply knowledge_holds_union; [done|]. apply knowledge_holds_list.
    intros s (cell & -> & Hin)%list_elem_of_fmap.
    eexists. split; [exact (c_strip_mine cell [])|].
    apply (true_of_positive [cell]).
    - intros cell' ->%list_elem_of_singleton. auto.
    - apply satisfies_positive. exists cell. split; [by left|].
      apply (mines_among_all nbrs); [|done]. apply Z.eqb_eq in Hkn. lia. }
  apply Z.eqb_neq in Hk0, Hkn.
  destruct (mine_clauses_count world nbrs (Z.to_nat (k + 1))
              (Z.to_nat (Z.of_nat (length nbrs) - k + 1)) Hsome)
    as [Hmost Hleast].
  unfold mines_among in *.
  unfold agent.at_most_clauses, agent.at_least_clauses,
    agent.itertools_combinations.
  destruct (k + 1 <? 0)%Z eqn:E1; [lia|].
  destruct (Z.of_nat (length nbrs) - k + 1 <? 0)%Z eqn:E2; [lia|].
  cbn [bind]. eexists. split; [done|]. simpl.
  split; [|repeat split; try done; intros s Hs; rewrite !elem_of_union; auto].
  repeat apply knowledge_holds_union; [done|..]; apply knowledge_holds_list.
  - intros s (combo & -> & Hin)%list_elem_of_fmap.
    pose proof Hin as [Hsub Hlen]%elem_of_combinations.
    destruct combo as [|cell combo]; [simpl in Hlen; lia|].
    eexists. split; [apply c_strip_not_mine|].
    apply true_of_negative.
    + intros cell' Hin'. apply Hsome. by eapply elem_of_sublist.
    + apply (proj2 Hmost); [lia|].
      by apply (list_elem_of_fmap_2
        (λ combo, mkClause ((λ cell, mkLiteral (agent.mine cell) false) <$> combo))).
  - intros s (combo & -> & Hin)%list_elem_of_fmap.
    pose proof Hin as [Hsub Hlen]%elem_of_combinations.
    destruct combo as [|cell combo]; [simpl in Hlen; lia|].
    eexists. split; [apply c_strip_mine|].
    apply true_of_positive.
    + intros cell' Hin'. apply Hsome. by eapply elem_of_sublist.
    + apply (proj2 Hleast); [lia|].
      by apply (list_elem_of_fmap_2
        (λ combo, mkClause ((λ cell, mkLiteral (agent.mine cell) true) <$> combo))).
Qed.

Lemma process_reports_spec (reports : list (Z * Z * Z)) self :
  describes world self →
  knowledge_holds world (agent.clauses self) →
  (∀ row col k, (row, col, k) ∈ reports →
     k = Z.of_nat
           (mines_among world (agent.get_unrevealed_neighbors self row col))) →
  ∃ self',
    agent.process_reports self reports = Ok self'
    ∧ knowledge_holds world (agent.clauses self')
    ∧ agent.unrevealed self' = agent.unrevealed self
    ∧ agent.num_rows self' = agent.num_rows self
    ∧ agent.num_columns self' = agent.num_columns self
    ∧ agent.num_mines self' = agent.num_mines self
    ∧ agent.most_recent_report self' = agent.most_recent_report self
    ∧ agent.move_num self' = agent.move_num self
    ∧ agent.clauses self ⊆ agent.clauses self'.
Proof.
  revert self. induction reports as [|[[row col] k] reports IH];
    intros self Hd Hknow Htrue.
  { exists self. by repeat split. }
  destruct (process_report_spec self row col k Hd Hknow)
    as (self1 & Hrun & Hknow1 & Hu & Hr & Hc & Hm & Hrep & Hmv & Hsub & _).
  { apply Htrue. by left. }
  destruct (IH self1) as (self2 & Hrun2 & Hknow2 & Hu2 & Hr2 & Hc2 & Hm2
                          & Hrep2 & Hmv2 & Hsub2).
  - intros cell. rewrite Hr, Hc. apply Hd.
  - done.
  - intros row' col' k' Hin.
    rewrite (get_unrevealed_neighbors_ext self self1) by done.
    apply Htrue. by right.
  - exists self2. simpl. rewrite Hrun. cbn [bind].
    split; [done|]. split; [done|].
    repeat split; try congruence. by etrans.
Qed.

End agent_knowledge.

(** X18. [process_report] on a report that is true of the world: when [k]
    is the number of mines among the neighbours that the agent holds as
    unrevealed, the call returns, it leaves the unrevealed cells, the
    grid, the pending reports and the move counter as they are, it only
    adds clauses, every clause string it holds afterwards reads as a
    clause that is true of the world, and the reported cell leaves the
    frontier, which the unrevealed neighbours join unless [k] is 0. *)
Theorem process_report_sound
    (world : gmap string bool) (self : agent.OptimizedAgent) (row col k : Z) :
  describes world self →
  knowledge_holds world (agent.clauses self) →
  k = Z.of_nat
        (mines_among world (agent.get_unrevealed_neighbors self row col)) →
  ∃ self',
    agent.process_report self row col k = Ok self'
    ∧ knowledge_holds world (agent.clauses self')
    ∧ agent.clauses self ⊆ agent.clauses self'
    ∧ agent.unrevealed self' = agent.unrevealed self
    ∧ agent.most_recent_report self' = agent.most_recent_report self
    ∧ agent.move_num self' = agent.move_num self
    ∧ (agent.num_rows self', agent.num_columns self', agent.num_mines self')
      = (agent.num_rows self, agent.num_columns self, agent.num_mines self)
    ∧ agent.frontier self'
      = (if (k =? 0)%Z then agent.frontier self ∖ {[ (row, col) ]}
         else agent.frontier self ∖ {[ (row, col) ]}
              ∪ list_to_set (agent.get_unrevealed_neighbors self row col)).
Proof.
  intros Hd Hknow Hk.
  destruct (process_report_spec world self row col k Hd Hknow Hk)
    as (self' & Hrun & Hknow' & Hu & Hr & Hc & Hm & Hrep & Hmv & Hsub & Hf).
  exists self'. repeat split; try done. congruence.
Qed.

Section subclauses.
Implicit Types (U G : list Clause) (C x y : Clause) (lit : Literal).

(** Every clause that [unit_resolution] returns is what is left of one of
    the clauses it was given. *)
Lemma unit_resolution_subclause fuel U G U' G' :
  dpll.unit_resolution fuel U G = Ok (U', G') →
  ∀ y, y ∈ U' ++ G' →
       ∃ C, C ∈ U ++ G ∧ ∀ lit, lit ∈ literals y → lit ∈ literals C.
Proof.
  pose (sub := λ y, ∃ C, C ∈ U ++ G ∧ ∀ lit, lit ∈ literals y → lit ∈ literals C).
  pose (I := λ U1 G1 : list Clause, is_set U1 ∧ ∀ y, y ∈ U1 ++ G1 → sub y).
  pose (Q := λ U1 G1 : list Clause, ∀ y, y ∈ U1 ++ G1 → sub y).
  assert (Hround : ∀ U1 G1 nu nc, I U1 G1 → dpll.resolve_round U1 G1 = (nu, nc) →
            is_set nu ∧ ∀ y, y ∈ nu ++ nc → sub y).
  { intros U1 G1 nu nc [Hset HI] Hr.
    destruct (resolve_round_spec U1 G1 Hset)
      as (extu & nc' & Hr' & Hsnu & _ & Hu & Hc & _).
    rewrite Hr in Hr'. injection Hr' as -> ->. split; [done|].
    assert (Hres : ∀ y C, C ∈ G1 ∨ C ∈ U1 → dpll.unit_resolve U1 C = Some y →
              sub y).
    { intros y C HC Hy. destruct (HI C) as (C0 & HC0 & Hsub).
      - apply elem_of_app. tauto.
      - exists C0. split; [done|]. intros lit Hlit. apply Hsub.
        by apply (unit_resolve_subset U1 C y). }
    intros y. rewrite !elem_of_app. intros [[Hy|Hy]|Hy].
    - apply HI, elem_of_app. by left.
    - destruct (Hu y Hy) as (C & HC & Hy' & _). by apply (Hres y C).
    - destruct (Hc y Hy) as (C & HC & Hy' & _). by apply (Hres y C). }
  unfold dpll.unit_resolution. intros Hrun.
  apply (unit_resolution_loop_inv I Q) with (fuel := fuel)
    (U := set_of U) (G := set_of G); [| | |done].
  - intros U1 G1 nu nc HI Hr _. by apply (Hround U1 G1).
  - intros U1 G1 nu nc HI Hr _ y. rewrite elem_of_app. intros [Hy|Hy].
    + apply HI, elem_of_app. by left.
    + apply (Hround U1 G1 nu nc HI Hr), elem_of_app. by right.
  - split; [apply is_set_set_of|]. intros y Hy. exists y. split; [|done].
    rewrite elem_of_app in *. destruct Hy as [?%elem_of_set_of|?%elem_of_set_of]; auto.
Qed.

End subclauses.

Section reading_sentences.

Lemma map_outcome_ok {A B} (f : A → outcome B) (P : B → Prop) (xs : list A) :
  (∀ x, x ∈ xs → ∃ y, f x = Ok y ∧ P y) →
  ∃ ys, map_outcome f xs = Ok ys ∧ ∀ y, y ∈ ys → P y.
Proof.
  induction xs as [|x xs IH]; intros Hf.
  - exists []. split; [done|]. by intros y ?%elem_of_nil.
  - destruct (Hf x) as (y & Hy & HP); [by left|].
    destruct IH as (ys & Hys & HPs); [intros; apply Hf; by right|].
    exists (y :: ys). cbn [map_outcome]. rewrite Hy, Hys. split; [done|].
    intros y' [->|?]%elem_of_cons; auto.
Qed.

(** [sentence] reads a set of clause strings when [c] reads each. *)
Lemma sentence_ok (P : Clause → Prop) (strings : gset string) :
  (∀ s, s ∈ strings → ∃ C, c (pystr.strip s) = Ok C ∧ P C) →
  ∃ sent, sentence (elements strings) = Ok sent
          ∧ ∀ C, C ∈ clauses sent → P C.
Proof.
  intros Hs.
  destruct (map_outcome_ok (λ clause, c (pystr.strip clause)) P (elements strings))
    as (ys & Hys & HP).
  { intros s Hin%elem_of_elements. auto. }
  exists (Cnf_init ys). unfold sentence. rewrite Hys. split; [done|].
  intros C HC%elem_of_set_of. auto.
Qed.

End reading_sentences.

Section compaction.
Context (world : gmap string bool).
Implicit Types (C y : Clause) (lit : Literal) (S : gset string).

Lemma true_of_sub C y :
  true_of world C → (∀ lit, lit ∈ literals y → lit ∈ literals C) →
  satisfies_clause world y → true_of world y.
Proof.
  intros (_ & Htaut & Hcells) Hsub Hsat. split; [done|]. split.
  - intros (sym & Hp & Hn). apply Htaut. exists sym. auto.
  - intros lit Hlit. auto.
Qed.

Lemma true_of_perm C y :
  true_of world C → literals y ≡ₚ literals C → true_of world y.
Proof.
  intros HC Hperm. apply (true_of_sub C); [done|..].
  - intros lit. by rewrite Hperm.
  - destruct HC as ((lit & Hlit & Hholds) & _). exists lit.
    by rewrite Hperm.
Qed.

Lemma mine_starts cell : ∃ rest, agent.mine cell = String "B" rest.
Proof. unfold agent.mine. rewrite !str_app_cons. by eexists. Qed.

Lemma Literal_str_mine lit cell :
  symbol lit = agent.mine cell →
  plain (Literal_str lit) = true
  ∧ (∃ ch rest, Literal_str lit = String ch rest ∧ ch ≠ "F"%char)
  ∧ (polarity lit = true →
       ∃ ch rest, symbol lit = String ch rest ∧ ch ≠ "!"%char).
Proof.
  intros Hsym. destruct (mine_starts cell) as (rest & Hrest).
  split; [|split].
  - apply plain_Literal_str. rewrite Hsym. apply plain_mine.
  - unfold Literal_str. rewrite Hsym, Hrest.
    destruct (polarity lit); rewrite ?str_app_cons; by eexists _, _.
  - intros _. rewrite Hsym, Hrest. by eexists _, _.
Qed.

(** A clause that is true of the world is read back from its printed
    form. *)
Lemma c_Clause_str_true_of y :
  true_of world y →
  ∃ C, c (pystr.strip (Clause_str y)) = Ok C ∧ true_of world C.
Proof.
  intros Hy. pose proof Hy as ((lit0 & Hlit0 & _) & _ & Hcells).
  assert (Hperm : sorted_literals (literals y) ≡ₚ literals y)
    by apply merge_sort_Permutation.
  exists (mkClause (sorted_literals (literals y))).
  split; [|by apply (true_of_perm y)].
  unfold Clause_str. destruct (literals y) as [|l0 ls0] eqn:E.
  { by apply elem_of_nil in Hlit0. }
  rewrite <-E in *.
  destruct (sorted_literals (literals y)) as [|lit ls] eqn:Es.
  { rewrite E in Hperm. by apply Permutation_nil_l in Hperm. }
  assert (Hall : ∀ x, x ∈ lit :: ls → ∃ cell, symbol x = agent.mine cell).
  { intros x Hx. rewrite Hperm in Hx. destruct (Hcells x Hx) as (cell & ? & _).
    by exists cell. }
  rewrite fmap_cons. rewrite strip_join.
  - apply c_join.
    + rewrite <-fmap_cons. apply Forall_fmap, Forall_forall. intros x Hx.
      destruct (Hall x Hx) as (cell & Hcell).
      by apply (Literal_str_mine x cell).
    + destruct (join_starts " || " (Literal_str lit) (Literal_str <$> ls))
        as (b & ->).
      destruct (Hall lit) as (cell & Hcell); [by left|].
      destruct (Literal_str_mine lit cell Hcell) as (_ & (ch & rest & -> & Hch) & _).
      rewrite str_app_cons. intros [= ? _]. done.
    + rewrite <-fmap_cons. apply map_outcome_l_Literal_str.
      intros x Hx. destruct (Hall x Hx) as (cell & Hcell).
      by apply (Literal_str_mine x cell).
  - rewrite <-fmap_cons. apply Forall_fmap, Forall_forall. intros x Hx.
    destruct (Hall x Hx) as (cell & Hcell).
    destruct (Literal_str_mine x cell Hcell) as (Hp & (ch & rest & Hs & _) & _).
    simpl. split; [done|]. by rewrite Hs.
Qed.

Lemma compact_mono fuel fuel' S r :
  fuel ≤ fuel' →
  agent.compact fuel S = Ok r → agent.compact fuel' S = Ok r.
Proof.
  intros Hle. unfold agent.compact.
  destruct (sentence (elements S)) as [sent| |]; try done. cbn [bind].
  destruct (foldl dpll.partition_step _ _) as [units regulars].
  destruct (dpll.unit_resolution fuel units regulars) as [[ru rr]| |] eqn:Hres;
    try done.
  by rewrite (unit_resolution_mono fuel fuel' _ _ _ Hle Hres).
Qed.

(** The periodic rewriting keeps the knowledge true of the world. *)
Lemma compact_spec S :
  knowledge_holds world S →
  ∃ N S', (∀ fuel, N ≤ fuel → agent.compact fuel S = Ok S')
          ∧ knowledge_holds world S'.
Proof.
  intros Hknow.
  destruct (sentence_ok (true_of world) S Hknow) as (sent & Hsent & Htrue).
  destruct (foldl dpll.partition_step ([], []) (clauses sent))
    as [units regulars] eqn:Hpart.
  destruct (foldl_partition_step (clauses sent) [] [])
    as (units' & regulars' & Hpart' & Hunits & Hregs & _).
  rewrite Hpart in Hpart'. injection Hpart' as <- <-.
  destruct (partition_equivalent world _ _ _ Hpart) as (Heq & _ & _).
  destruct (unit_resolution_spec units regulars)
    as (U' & G' & Hres & Heq' & _).
  set (N := Datatypes.S (length (all_literals (units ++ regulars)))).
  exists N, (list_to_set (Clause_str <$> set_union U' G')).
  split.
  { intros fuel Hle. unfold agent.compact. rewrite Hsent. cbn [bind].
    rewrite Hpart, Hres by (unfold N in Hle; lia). done. }
  assert (Hin : ∀ C, C ∈ units ++ regulars → true_of world C).
  { intros C [HC|HC]%elem_of_app; apply Htrue.
    - by destruct (Hunits C HC) as [?%elem_of_nil|[? _]].
    - by destruct (Hregs C HC) as [?%elem_of_nil|?]. }
  assert (Hsat : satisfies_all world (U' ++ G')).
  { apply Heq', Heq. intros C HC. by apply Htrue. }
  apply knowledge_holds_list.
  intros s (y & -> & Hy)%list_elem_of_fmap.
  apply c_Clause_str_true_of.
  assert (y ∈ U' ++ G') as Hy'.
  { apply elem_of_app. unfold set_union in Hy.
    by apply elem_of_foldl_set_add in Hy. }
  destruct (unit_resolution_subclause N units regulars U' G') with (y := y)
    as (C & HC & Hsub); [apply Hres; unfold N; lia|done|].
  apply (true_of_sub C); auto.
Qed.

End compaction.

Section dpll_result.
Implicit Types (sent : Cnf) (model : gmap string bool).

(** [dpll] returns; [None] means that no assignment passes [check_model]. *)
Lemma dpll_returns sent :
  ∃ N result,
    (∀ fuel, N ≤ fuel → dpll.dpll fuel sent = Ok result)
    ∧ (result = None →
       ∀ model, covers model (Cnf_get_symbols sent) →
                check_model sent model ≠ Ok true).
Proof.
  destruct (foldl dpll.partition_step ([], []) (clauses sent))
    as [units regulars] eqn:Hpart.
  destruct (unit_resolution_spec units regulars)
    as (U0 & G0 & Hres & Heq & _ & _ & _ & Hlen & _ & _).
  assert (Hbase : ∀ model,
            satisfies_all model (U0 ++ G0) ↔ satisfies_all model (clauses sent)).
  { intros model. rewrite <-Heq.
    apply (partition_equivalent model _ _ _ Hpart). }
  assert (Hunits : ∀ y, y ∈ U0 → Clause_len y = 1).
  { intros y [?|?]%Hlen; [|done].
    by apply (partition_equivalent ∅ _ _ _ Hpart). }
  set (n := length (search.signature (search.init sent))).
  set (N := S (length (all_literals (units ++ regulars))
              + length (all_literals (U0 ++ G0)) + n + 2 ^ S n)).
  destruct (dfs_dpll_space sent U0 G0 Hbase Hunits N)
    as (found & visited & Hrun & Hfound); [unfold N, n; lia..|].
  exists N, (search.model_of <$> found).
  assert (dpll.dpll N sent = Ok (search.model_of <$> found)) as HN.
  { unfold dpll.dpll, dpll.init. rewrite Hpart, Hres by (unfold N; lia).
    cbn [bind]. by rewrite Hrun. }
  split; [intros fuel Hle; by apply (dpll_mono N)|].
  by destruct found.
Qed.

End dpll_result.

Section agent_moves.
Context (world : gmap string bool).
Implicit Types (self : agent.OptimizedAgent) (cell : Z * Z) (S : gset string).
Implicit Types (cells : list (Z * Z)).

Lemma find_safe_mono fuel fuel' S cells r :
  fuel ≤ fuel' →
  agent.find_safe fuel S cells = Ok r → agent.find_safe fuel' S cells = Ok r.
Proof.
  intros Hle. induction cells as [|cell cells IH]; simpl; [done|].
  destruct (bool_decide _); [done|].
  destruct (sentence _) as [sent| |]; try done. cbn [bind].
  destruct (dpll.dpll fuel sent) as [model| |] eqn:Hrun; try done.
  rewrite (dpll_mono fuel fuel' sent model Hle Hrun). cbn [bind].
  by destruct model.
Qed.

(** A cell that the search finds cannot be a mine of a world of which the
    knowledge is true. *)
Lemma find_safe_spec S cells :
  knowledge_holds world S →
  ∃ N r,
    (∀ fuel, N ≤ fuel → agent.find_safe fuel S cells = Ok r)
    ∧ match r with
      | Some cell =>
          cell ∈ cells ∧ (agent.mine cell ∉ S)
          ∧ world !! agent.mine cell ≠ Some true
      | None => True
      end.
Proof.
  intros Hknow. induction cells as [|cell cells IH].
  { by exists 0, None. }
  destruct IH as (N1 & r1 & Hrun1 & Hr1).
  assert (Hrest : match r1 with
                  | Some cell' =>
                      cell' ∈ cell :: cells ∧ (agent.mine cell' ∉ S)
                      ∧ world !! agent.mine cell' ≠ Some true
                  | None => True
                  end).
  { destruct r1 as [cell'|]; [|done]. destruct Hr1 as (? & ? & ?).
    split; [by right|done]. }
  simpl. destruct (bool_decide (agent.mine cell ∈ S)) eqn:Hdec.
  { by exists N1, r1. }
  apply bool_decide_eq_false in Hdec.
  pose (unit := mkClause [mkLiteral (agent.mine cell) true]).
  destruct (sentence_ok (λ C, true_of world C ∨ C = unit)
              (S ∪ {[ agent.mine cell ]}))
    as (sent & Hsent & Hcls).
  { intros s [Hs| ->%elem_of_singleton]%elem_of_union.
    - destruct (Hknow s Hs) as (C & HC & Htrue). exists C. auto.
    - exists unit. split; [exact (c_strip_mine cell [])|by right]. }
  rewrite Hsent. cbn [bind].
  destruct (dpll_returns sent) as (N2 & result & Hrun2 & Hnone).
  destruct result as [model|].
  { exists (N1 `max` N2), r1. split; [|done].
    intros fuel Hle. rewrite Hrun2 by lia. cbn [bind]. apply Hrun1. lia. }
  exists N2, (Some cell). split.
  { intros fuel Hle. by rewrite Hrun2. }
  split; [by left|]. split; [done|]. intros Hmine.
  assert (Htrue : ∀ C, C ∈ clauses sent → true_of world C).
  { intros C [HC| ->]%Hcls; [done|]. apply (true_of_positive world [cell]).
    - intros cell' ->%list_elem_of_singleton. by rewrite Hmine.
    - apply satisfies_positive. exists cell. split; [by left|done]. }
  assert (Hcov : covers world (Cnf_get_symbols sent)).
  { intros sym (C & HC & (lit & Hlit & <-)%elem_of_Clause_get_symbols)
      %elem_of_Cnf_get_symbols.
    destruct (Htrue C HC) as (_ & _ & Hcells).
    destruct (Hcells lit Hlit) as (cell' & -> & ?). done. }
  destruct (check_model_tautology_free sent world Hcov)
    as (b & Hb & Hiff).
  { intros C HC. by destruct (Htrue C HC) as (_ & ? & _). }
  apply (Hnone eq_refl world Hcov). rewrite Hb. f_equal. apply Hiff.
  intros C HC. by destruct (Htrue C HC) as (? & _).
Qed.

Lemma elem_of_frontier_priority self cell :
  cell ∈ agent.frontier_priority self → cell ∈ agent.frontier self.
Proof.
  unfold agent.frontier_priority.
  rewrite list_elem_of_In, in_flat_map. intros (cell0 & _ & Hin).
  destruct (bool_decide _); [|done].
  by apply list_elem_of_In, elem_of_elements, elem_of_intersection in Hin as [_ ?].
Qed.

Lemma bind_mono {A B} (e e' : outcome A) (k k' : A → outcome B) (r : B) :
  (∀ x, e = Ok x → e' = Ok x) →
  (∀ x, k x = Ok r → k' x = Ok r) →
  bind e k = Ok r → bind e' k' = Ok r.
Proof.
  intros He Hk. destruct e as [x| |]; try done.
  rewrite (He x eq_refl). apply Hk.
Qed.

Lemma next_move_mono fuel fuel' self r :
  fuel ≤ fuel' →
  agent.next_move fuel self = Ok r → agent.next_move fuel' self = Ok r.
Proof.
  intros Hle. unfold agent.next_move. cbv zeta.
  destruct (agent.process_reports _ _) as [self1| |]; try done. cbn [bind].
  destruct (size (agent.frontier self1) =? 0)%nat; [done|].
  apply bind_mono.
  { destruct (_ =? 0)%Z; [|done]. intros S. by apply compact_mono. }
  intros S. apply bind_mono.
  { intros first. by apply find_safe_mono. }
  intros [[row col]|]; [done|]. apply bind_mono; [|done].
  intros second. by apply find_safe_mono.
Qed.

(** What [next_move] does when the knowledge and the pending reports are
    true of [world]. *)
Lemma next_move_spec self :
  describes world self →
  knowledge_holds world (agent.clauses self) →
  truthful world self →
  ∃ N self' move,
    (∀ fuel, N ≤ fuel → agent.next_move fuel self = Ok (self', move))
    ∧ knowledge_holds world (agent.clauses self')
    ∧ agent.unrevealed self' = agent.unrevealed self
    ∧ agent.num_rows self' = agent.num_rows self
    ∧ agent.num_columns self' = agent.num_columns self
    ∧ agent.num_mines self' = agent.num_mines self
    ∧ agent.move_num self' = (agent.move_num self + 1)%Z
    ∧ match move with
      | agent.Reveal row col =>
          (row, col) ∈ agent.frontier self'
          ∧ (agent.mine (row, col) ∉ agent.clauses self')
          ∧ world !! agent.mine (row, col) ≠ Some true
          ∧ agent.most_recent_report self' = []
      | agent.RandomReveal => True
      end.
Proof.
  intros Hd Hknow Htrue.
  pose (self0 := agent.mkOptimizedAgent
    (agent.num_rows self) (agent.num_columns self) (agent.num_mines self)
    (agent.unrevealed self) (agent.frontier self) (agent.clauses self)
    (agent.most_recent_report self) (agent.move_num self + 1)).
  destruct (process_reports_spec world (agent.most_recent_report self0) self0)
    as (self1 & Hrun1 & Hknow1 & Hu & Hr & Hc & Hm & Hrep & Hmv & Hsub);
    [done..|].
  simpl in Hu, Hr, Hc, Hm, Hrep, Hmv.
  unfold agent.next_move. cbv zeta. fold self0. rewrite Hrun1. cbn [bind].
  destruct (size (agent.frontier self1) =? 0)%nat.
  { exists 0, self1, agent.RandomReveal. by repeat split. }
  assert (∃ N1 S', (∀ fuel, N1 ≤ fuel →
                      (if (agent.move_num self1 mod 5 =? 0)%Z
                       then agent.compact fuel (agent.clauses self1)
                       else Ok (agent.clauses self1)) = Ok S')
                   ∧ knowledge_holds world S')
    as (N1 & S' & Hrun2 & Hknow2).
  { destruct (_ =? 0)%Z; [by apply compact_spec|].
    by exists 0, (agent.clauses self1). }
  set (self2 := agent.mkOptimizedAgent
    (agent.num_rows self1) (agent.num_columns self1) (agent.num_mines self1)
    (agent.unrevealed self1) (agent.frontier self1) S' []
    (agent.move_num self1)).
  destruct (find_safe_spec S' (agent.frontier_priority self2) Hknow2)
    as (N2 & first & Hrun3 & Hfirst).
  destruct (find_safe_spec S'
              (elements (agent.frontier self2
                         ∖ list_to_set (agent.frontier_priority self2))) Hknow2)
    as (N3 & second & Hrun4 & Hsecond).
  destruct first as [[row col]|].
  { exists (N1 `max` N2), self2, (agent.Reveal row col). split.
    - intros fuel Hle. rewrite Hrun2 by lia. cbn [bind].
      cbn [agent.clauses agent.frontier]. fold self2.
      rewrite Hrun3 by lia. done.
    - destruct Hfirst as (Hin & Hnot & Hsafe).
      repeat split; try done. by apply elem_of_frontier_priority. }
  destruct second as [[row col]|].
  { exists ((N1 `max` N2) `max` N3), self2, (agent.Reveal row col). split.
    - intros fuel Hle. rewrite Hrun2 by lia. cbn [bind].
      cbn [agent.clauses agent.frontier]. fold self2.
      rewrite Hrun3 by lia. cbn [bind]. rewrite Hrun4 by lia. done.
    - destruct Hsecond as (Hin & Hnot & Hsafe).
      repeat split; try done.
      by apply elem_of_elements, elem_of_difference in Hin as [? _]. }
  exists ((N1 `max` N2) `max` N3), self2, agent.RandomReveal. split.
  - intros fuel Hle. rewrite Hrun2 by lia. cbn [bind].
    cbn [agent.clauses agent.frontier]. fold self2.
    rewrite Hrun3 by lia. cbn [bind]. rewrite Hrun4 by lia. done.
  - by repeat split.
Qed.

End agent_moves.

Lemma process_report_sound_witness :
  let world : gmap string bool :=
    list_to_map [("B_0_0", false); ("B_0_1", true); ("B_0_2", false);
                 ("B_0_3", false)] in
  let self := agent.report (agent.initialize_agent 1 4 1) 0 2 1 in
  ∃ self',
    agent.process_report self 0 2 1 = Ok self'
    ∧ knowledge_holds world (agent.clauses self')
    ∧ agent.clauses self ⊆ agent.clauses self'
    ∧ agent.unrevealed self' = agent.unrevealed self
    ∧ agent.most_recent_report self' = agent.most_recent_report self
    ∧ agent.move_num self' = agent.move_num self
    ∧ (agent.num_rows self', agent.num_columns self', agent.num_mines self')
      = (agent.num_rows self, agent.num_columns self, agent.num_mines self)
    ∧ agent.frontier self'
      = (if (1 =? 0)%Z then agent.frontier self ∖ {[ (0, 2)%Z ]}
         else agent.frontier self ∖ {[ (0, 2)%Z ]}
              ∪ list_to_set (agent.get_unrevealed_neighbors self 0 2)).
Proof.
  intros world self. apply (process_report_sound world self 0 2 1).
  - intros [row col] Hrow Hcol. simpl in Hrow, Hcol.
    assert (row = 0)%Z as -> by lia.
    assert (col = 0 ∨ col = 1 ∨ col = 2 ∨ col = 3)%Z
      as [-> | [-> | [-> | ->]]] by lia; vm_compute; by eexists.
  - intros s Hs. unfold self, agent.report, agent.initialize_agent in Hs.
    simpl in Hs. rewrite !elem_of_union, !elem_of_singleton in Hs.
    destruct Hs as [[]%elem_of_empty| ->].
    eexists. split; [exact (c_strip_not_mine (0, 2)%Z [])|].
    apply true_of_negative.
    + intros cell ->%list_elem_of_singleton. vm_compute. by eexists.
    + apply satisfies_negative. exists (0, 2)%Z. split; [by left|done].
  - by vm_compute.
Defined.

(** X19. [next_move] never reveals a mine.  Take any assignment [world] of
    the cells of the grid of which the agent's clauses are true and for
    which every pending report counts the mines among the unrevealed
    neighbours.  Then [next_move] returns, with one result for every
    amount of fuel that suffices; it raises nothing; the clauses it leaves
    are still true of [world]; the unrevealed cells are the same and the
    move counter is one more; and when the move is [Reveal(row, col)], the
    cell is in the frontier, it is no mine of [world], and the pending
    reports have been consumed. *)
Theorem next_move_never_reveals_a_mine
    (world : gmap string bool) (self : agent.OptimizedAgent) :
  describes world self →
  knowledge_holds world (agent.clauses self) →
  truthful world self →
  ∃ N self' move,
    (∀ fuel, N ≤ fuel → agent.next_move fuel self = Ok (self', move))
    ∧ (∀ fuel r, agent.next_move fuel self = Ok r → r = (self', move))
    ∧ knowledge_holds world (agent.clauses self')
    ∧ agent.unrevealed self' = agent.unrevealed self
    ∧ agent.move_num self' = (agent.move_num self + 1)%Z
    ∧ match move with
      | agent.Reveal row col =>
          (row, col) ∈ agent.frontier self'
          ∧ world !! agent.mine (row, col) ≠ Some true
          ∧ agent.most_recent_report self' = []
      | agent.RandomReveal => True
      end.
Proof.
  intros Hd Hknow Htrue.
  destruct (next_move_spec world self Hd Hknow Htrue)
    as (N & self' & move & Hrun & Hknow' & Hu & _ & _ & _ & Hmv & Hmove).
  exists N, self', move. split; [done|]. split.
  { intros fuel r Hr.
    pose proof (next_move_mono fuel (fuel `max` N) self r ltac:(lia) Hr) as H1.
    rewrite Hrun in H1 by lia. by injection H1. }
  repeat split; try done.
  destruct move as [|row col]; [done|]. tauto.
Qed.

Lemma next_move_never_reveals_a_mine_witness :
  let world : gmap string bool :=
    list_to_map [("B_0_0", false); ("B_0_1", true); ("B_0_2", false);
                 ("B_0_3", false)] in
  let self :=
    agent.report (agent.report (agent.initialize_agent 1 4 1) 0 0 1) 0 2 1 in
  (∃ self', agent.next_move 100 self = Ok (self', agent.Reveal 0 3))
  ∧ ∃ N self' move,
      (∀ fuel, N ≤ fuel → agent.next_move fuel self = Ok (self', move))
      ∧ (∀ fuel r, agent.next_move fuel self = Ok r → r = (self', move))
      ∧ knowledge_holds world (agent.clauses self')
      ∧ agent.unrevealed self' = agent.unrevealed self
      ∧ agent.move_num self' = (agent.move_num self + 1)%Z
      ∧ match move with
        | agent.Reveal row col =>
            (row, col) ∈ agent.frontier self'
            ∧ world !! agent.mine (row, col) ≠ Some true
            ∧ agent.most_recent_report self' = []
        | agent.RandomReveal => True
        end.
Proof.
  intros world self. split; [eexists; vm_compute; reflexivity|].
  apply (next_move_never_reveals_a_mine world self).
  - intros [row col] Hrow Hcol. simpl in Hrow, Hcol.
    assert (row = 0)%Z as -> by lia.
    assert (col = 0 ∨ col = 1 ∨ col = 2 ∨ col = 3)%Z
      as [-> | [-> | [-> | ->]]] by lia; vm_compute; by eexists.
  - intros s Hs. unfold self, agent.report, agent.initialize_agent in Hs.
    simpl in Hs. rewrite !elem_of_union, !elem_of_singleton in Hs.
    destruct Hs as [[[]%elem_of_empty| ->]| ->].
    + eexists. split; [exact (c_strip_not_mine (0, 0)%Z [])|].
      apply true_of_negative.
      * intros cell ->%list_elem_of_singleton. vm_compute. by eexists.
      * apply satisfies_negative. exists (0, 0)%Z. split; [by left|done].
    + eexists. split; [exact (c_strip_not_mine (0, 2)%Z [])|].
      apply true_of_negative.
      * intros cell ->%list_elem_of_singleton. vm_compute. by eexists.
      * apply satisfies_negative. exists (0, 2)%Z. split; [by left|done].
  - intros row col k Hin. unfold self, agent.report, agent.initialize_agent in Hin.
    simpl in Hin. rewrite !elem_of_cons, elem_of_nil in Hin.
    destruct Hin as [[= -> -> ->]|[[= -> -> ->]|[]]]; by vm_compute.
Defined.

Section python_lists.
Context {A : Type}.
Implicit Types (seq : list A) (i : Z) (x : A).






End python_lists.

Section grids.
Context {A : Type}.
Implicit Types (f g : Z * Z → A) (cell : Z * Z) (R C : Z).







End grids.

Section board_init.
Implicit Types (R C : Z) (cell y : Z * Z) (cells mines : list (Z * Z)).















End board_init.

Section board_labels.
Implicit Types (R C : Z) (cell y : Z * Z) (cells mines : list (Z * Z)).










End board_labels.

Section labels.
Implicit Types (R C : Z) (y : Z * Z) (mines : gset (Z * Z)).





End labels.

Section board_cells.
Implicit Types (b : game.MinesweeperBoard) (y : Z * Z).




End board_cells.

Section report_reveal.
Implicit Types (b : game.MinesweeperBoard) (y : Z * Z).
Implicit Types (stack : list (Z * Z)) (revs : list (Z * Z * Z)) (R C : Z).




End report_reveal.

Section reveals.
Implicit Types (b : game.MinesweeperBoard) (y : Z * Z) (row col : Z).



End reveals.

Section cell_variables.
Implicit Types (cell : Z * Z) (n : Z) (s t : string).

Lemma free_of_string_of_uint d :
  free_of "_" (NilEmpty.string_of_uint d) = true.
Proof. induction d; done. Qed.

Lemma free_of_str_of_int n : free_of "_" (pystr.str_of_int n) = true.
Proof.
  unfold pystr.str_of_int. destruct n as [|p|p]; [done|..];
    cbn [Z.to_int NilZero.string_of_int]; unfold NilZero.string_of_uint.
  - destruct (Pos.to_uint p) eqn:E; try done;
      rewrite <-E; apply free_of_string_of_uint.
  - cbn [free_of]. destruct (Pos.to_uint p) eqn:E; try done;
      rewrite <-E; apply free_of_string_of_uint.
Qed.

Lemma split_at_char ch s s' t t' :
  free_of ch s = true → free_of ch s' = true →
  s +:+ String ch t = s' +:+ String ch t' → s = s' ∧ t = t'.
Proof.
  revert s'. induction s as [|x s IH]; intros [|x' s'] Hs Hs'.
  - by intros [= ->].
  - change (EmptyString +:+ String ch t) with (String ch t).
    rewrite str_app_cons. intros [= <- _]. simpl in Hs'.
    by rewrite Ascii.eqb_refl in Hs'.
  - change (EmptyString +:+ String ch t') with (String ch t').
    rewrite str_app_cons. intros [= -> _]. simpl in Hs.
    by rewrite Ascii.eqb_refl in Hs.
  - rewrite !str_app_cons. intros [= -> Heq]. simpl in Hs, Hs'.
    apply andb_true_iff in Hs as [_ Hs]. apply andb_true_iff in Hs' as [_ Hs'].
    destruct (IH s' Hs Hs' Heq) as [-> ->]. done.
Qed.

Lemma str_of_int_inj n m : pystr.str_of_int n = pystr.str_of_int m → n = m.
Proof.
  unfold pystr.str_of_int. intros Heq.
  assert (Hnil : ∀ z, Z.to_int z ≠ Decimal.Pos Decimal.Nil
                      ∧ Z.to_int z ≠ Decimal.Neg Decimal.Nil).
  { intros z. split; intros Hz;
      pose proof (DecimalZ.of_to z) as Hof; rewrite Hz in Hof;
      simpl in Hof; subst z; done. }
  pose proof (NilZero.isi (Z.to_int n) (proj1 (Hnil n)) (proj2 (Hnil n))) as Hn.
  pose proof (NilZero.isi (Z.to_int m) (proj1 (Hnil m)) (proj2 (Hnil m))) as Hm.
  rewrite Heq, Hm in Hn. injection Hn as Hn.
  by rewrite <-(DecimalZ.of_to n), <-(DecimalZ.of_to m), Hn.
Qed.

Lemma mine_inj cell cell' : agent.mine cell = agent.mine cell' → cell = cell'.
Proof.
  unfold agent.mine. rewrite !str_app_cons. intros [= Heq].
  change (EmptyString +:+ ?x) with x in Heq.
  change ("_" +:+ ?x) with (String "_" x) in Heq.
  apply split_at_char in Heq as [H1%str_of_int_inj H2%str_of_int_inj];
    [|apply free_of_str_of_int..].
  destruct cell, cell'. simpl in *. by subst.
Qed.


Lemma world_of_is_mine (b : game.MinesweeperBoard) cell :
  world_of b !! agent.mine cell = Some true → cell ∈ game.mines b.
Proof.
  unfold world_of. intros Hin%elem_of_list_to_map_2.
  apply list_elem_of_fmap in Hin as (cell' & Heq & _).
  pose proof (f_equal fst Heq) as H1. pose proof (f_equal snd Heq) as H2.
  simpl in H1, H2. apply mine_inj in H1 as ->. symmetry in H2.
  by apply bool_decide_eq_true in H2.
Qed.

End cell_variables.

Section game_invariant.
Implicit Types (b : game.MinesweeperBoard) (a : agent.OptimizedAgent).
Implicit Types (cell y : Z * Z) (row col k : Z).










End game_invariant.

Section agent_frontier.
Implicit Types (b : game.MinesweeperBoard) (a self : agent.OptimizedAgent).
Implicit Types (cell y : Z * Z) (row col k : Z).






End agent_frontier.

Section play.
Implicit Types (b : game.MinesweeperBoard) (a : agent.OptimizedAgent).
Implicit Types (cell y : Z * Z) (penalty : Z).


Context (choices : nat → list (Z * Z) → Z * Z).
Hypothesis choices_valid : ∀ turn l, l ≠ [] → choices turn l ∈ l.



End play.

Section new_game.
Implicit Types (R C num_mines : Z) (sampled : list Z).


End new_game.






Section distinct_selections.
Context {A : Type}.
Implicit Types (l combo : list A) (r : nat).


End distinct_selections.












